(** * gazelle/tsconfig: the per-package configuration tree of the TypeScript
    Gazelle extension (tsconfig.go), embedded in Rocq.

    Layout of the development:
    - [GoStrings]: the parts of the Go standard library that tsconfig.go
      calls ([strings.TrimSpace], [strings.ReplaceAll], [filepath.Dir],
      [fmt.Sprintf] with a single [%s]), over byte strings;
    - [Heap], [Config] and the monad [M]: Go pointers ([*Config],
      [*singlylinkedlist.List], maps) as addresses into stores;
    - the methods of tsconfig.go, one definition per Go function;
    - invariants of reachable heaps and the theorems about the methods. *)

From Stdlib Require Import ZArith Ascii String.
From stdpp Require Import base option list gmap strings.

Local Open Scope Z_scope.

(** ** Go strings

    A Go [string] is an immutable sequence of bytes; Rocq's [string] is a list
    of 8-bit [ascii] values, so it is the same data.  Slicing [s[i:j]] is
    [take (j - i) (drop i s)] on the list of bytes. *)
Module GoStrings.

Definition bytes (s : string) : list ascii := String.list_ascii_of_string s.
Definition str (l : list ascii) : string := String.string_of_list_ascii l.

(** The numeric value of a byte, [0 <= byteval c < 256]. *)
Definition byteval (c : ascii) : Z := Z.of_N (N_of_ascii c).

(** *** unicode/utf8 *)

Definition RuneError : Z := 0xFFFD.
Definition RuneSelf : Z := 0x80.
Definition UTFMax : nat := 4.

Definition maskx : Z := 0x3F.
Definition mask2 : Z := 0x1F.
Definition mask3 : Z := 0x0F.
Definition mask4 : Z := 0x07.

Definition locb : Z := 0x80.
Definition hicb : Z := 0xBF.

(** The codes of the table [first]: the low three bits are the length of the
    sequence, the high nibble indexes [acceptRanges]. *)
Definition xx : Z := 0xF1.
Definition as_ : Z := 0xF0.
Definition s1 : Z := 0x02.
Definition s2 : Z := 0x13.
Definition s3 : Z := 0x03.
Definition s4 : Z := 0x23.
Definition s5 : Z := 0x34.
Definition s6 : Z := 0x04.
Definition s7 : Z := 0x44.

(** [first[b]]: information about the first byte of a UTF-8 sequence. *)
Definition first (b : Z) : Z :=
  if b <? 0x80 then as_
  else if b <? 0xC2 then xx
  else if b <? 0xE0 then s1
  else if b =? 0xE0 then s2
  else if b <? 0xED then s3
  else if b =? 0xED then s4
  else if b <? 0xF0 then s3
  else if b =? 0xF0 then s5
  else if b <? 0xF4 then s6
  else if b =? 0xF4 then s7
  else xx.

(** [acceptRanges[i]]: the range [(lo, hi)] allowed for the second byte. *)
Definition acceptRanges (i : Z) : Z * Z :=
  if i =? 0 then (locb, hicb)
  else if i =? 1 then (0xA0, hicb)
  else if i =? 2 then (locb, 0x9F)
  else if i =? 3 then (0x90, hicb)
  else if i =? 4 then (locb, 0x8F)
  else (0, 0).

(** [utf8.RuneStart]. *)
Definition RuneStart (b : Z) : bool := negb (Z.land b 0xC0 =? 0x80).

(** [utf8.DecodeRuneInString]: the first rune of [s] and its width in bytes;
    [(RuneError, 0)] on the empty string and [(RuneError, 1)] on an invalid
    encoding. *)
Definition DecodeRuneInString (s : list ascii) : Z * nat :=
  match s with
  | [] => (RuneError, 0%nat)
  | c0 :: _ =>
    let n := length s in
    let b0 := byteval c0 in
    let x := first b0 in
    if as_ <=? x then
      (if x =? xx then RuneError else b0, 1%nat)
    else
      let sz := Z.to_nat (Z.land x 7) in
      let accept := acceptRanges (Z.shiftr x 4) in
      if (n <? sz)%nat then (RuneError, 1%nat)
      else
        let b1 := byteval (nth 1 s zero) in
        if (b1 <? fst accept) || (snd accept <? b1) then (RuneError, 1%nat)
        else if (sz <=? 2)%nat then
          (Z.lor (Z.shiftl (Z.land b0 mask2) 6) (Z.land b1 maskx), 2%nat)
        else
          let b2 := byteval (nth 2 s zero) in
          if (b2 <? locb) || (hicb <? b2) then (RuneError, 1%nat)
          else if (sz <=? 3)%nat then
            (Z.lor (Z.lor (Z.shiftl (Z.land b0 mask3) 12)
                          (Z.shiftl (Z.land b1 maskx) 6))
                   (Z.land b2 maskx), 3%nat)
          else
            let b3 := byteval (nth 3 s zero) in
            if (b3 <? locb) || (hicb <? b3) then (RuneError, 1%nat)
            else
              (Z.lor (Z.lor (Z.lor (Z.shiftl (Z.land b0 mask4) 18)
                                   (Z.shiftl (Z.land b1 maskx) 12))
                            (Z.shiftl (Z.land b2 maskx) 6))
                     (Z.land b3 maskx), 4%nat)
  end.

(** The loop [for start--; start >= lim; start--] of
    [utf8.DecodeLastRuneInString], which steps [start] back to the nearest
    rune-start byte and gives up below [lim].  At most [UTFMax] tests of the
    loop condition are made, since [lim >= end - UTFMax]. *)
Fixpoint rune_start_loop (fuel : nat) (s : list ascii) (lim start : Z) : Z :=
  match fuel with
  | O => start
  | S fuel' =>
    if lim <=? start then
      if RuneStart (byteval (nth (Z.to_nat start) s zero)) then start
      else rune_start_loop fuel' s lim (start - 1)
    else start
  end.

(** [utf8.DecodeLastRuneInString]: the last rune of [s] and its width. *)
Definition DecodeLastRuneInString (s : list ascii) : Z * nat :=
  let end_ := Z.of_nat (length s) in
  if end_ =? 0 then (RuneError, 0%nat)
  else
    let start := end_ - 1 in
    let r := byteval (nth (Z.to_nat start) s zero) in
    if r <? RuneSelf then (r, 1%nat)
    else
      let lim := Z.max 0 (end_ - Z.of_nat UTFMax) in
      let start := rune_start_loop UTFMax s lim (start - 1) in
      let start := if start <? 0 then 0 else start in
      let '(r, size) := DecodeRuneInString (drop (Z.to_nat start) s) in
      if start + Z.of_nat size =? end_ then (r, size) else (RuneError, 1%nat).

(** *** unicode *)

(** [unicode.IsSpace]: the Latin-1 white space is listed by the function
    itself, the rest is the [White_Space] range table above Latin-1. *)
Definition IsSpace (r : Z) : bool :=
  if (0 <=? r) && (r <=? 0xFF) then
    (r =? 0x09) || (r =? 0x0A) || (r =? 0x0B) || (r =? 0x0C) || (r =? 0x0D)
    || (r =? 0x20) || (r =? 0x85) || (r =? 0xA0)
  else
    (r =? 0x1680) || ((0x2000 <=? r) && (r <=? 0x200A))
    || (r =? 0x2028) || (r =? 0x2029) || (r =? 0x202F) || (r =? 0x205F)
    || (r =? 0x3000).

(** *** strings *)

(** The table [asciiSpace] of package strings: tab, newline, vertical tab,
    form feed, carriage return and space. *)
Definition asciiSpace (c : ascii) : bool :=
  let b := byteval c in
  (b =? 0x09) || (b =? 0x0A) || (b =? 0x0B) || (b =? 0x0C) || (b =? 0x0D)
  || (b =? 0x20).

(** [strings.indexFunc]: the byte index of the first rune [r] of [s] with
    [f r = truth], or [-1].  The Go loop is [for i, r := range s], which
    decodes like [DecodeRuneInString] and advances by the width of the rune;
    [fuel] bounds the number of runes and is set to [length s]. *)
Fixpoint indexFunc_loop (fuel : nat) (s : list ascii) (i : nat)
    (f : Z → bool) (truth : bool) : Z :=
  match fuel with
  | O => -1
  | S fuel' =>
    if (i <? length s)%nat then
      let '(r, size) := DecodeRuneInString (drop i s) in
      if Bool.eqb (f r) truth then Z.of_nat i
      else indexFunc_loop fuel' s (i + size) f truth
    else -1
  end.

Definition indexFunc (s : list ascii) (f : Z → bool) (truth : bool) : Z :=
  indexFunc_loop (length s) s 0 f truth.

(** [strings.lastIndexFunc]:
    [for i := len(s); i > 0; { r, size := DecodeLastRuneInString(s[0:i]);
    i -= size; if f(r) == truth { return i } }; return -1]. *)
Fixpoint lastIndexFunc_loop (fuel : nat) (s : list ascii) (i : nat)
    (f : Z → bool) (truth : bool) : Z :=
  match fuel with
  | O => -1
  | S fuel' =>
    if (0 <? i)%nat then
      let '(r, size) := DecodeLastRuneInString (take i s) in
      let i := (i - size)%nat in
      if Bool.eqb (f r) truth then Z.of_nat i
      else lastIndexFunc_loop fuel' s i f truth
    else -1
  end.

Definition lastIndexFunc (s : list ascii) (f : Z → bool) (truth : bool) : Z :=
  lastIndexFunc_loop (S (length s)) s (length s) f truth.

(** [strings.TrimLeftFunc]. *)
Definition TrimLeftFunc (s : list ascii) (f : Z → bool) : list ascii :=
  let i := indexFunc s f false in
  if i =? -1 then [] else drop (Z.to_nat i) s.

(** [strings.TrimRightFunc]. *)
Definition TrimRightFunc (s : list ascii) (f : Z → bool) : list ascii :=
  let i := lastIndexFunc s f false in
  let i :=
    if (0 <=? i) && (RuneSelf <=? byteval (nth (Z.to_nat i) s zero)) then
      let '(_, wid) := DecodeRuneInString (drop (Z.to_nat i) s) in
      i + Z.of_nat wid
    else i + 1 in
  take (Z.to_nat i) s.

(** [strings.TrimFunc]. *)
Definition TrimFunc (s : list ascii) (f : Z → bool) : list ascii :=
  TrimRightFunc (TrimLeftFunc s f) f.

(** The second loop of [strings.TrimSpace], on [u = s[start:]]: it looks for
    the first ASCII non-space byte from the end, [stop] running down to the
    beginning of [u]. *)
Fixpoint TrimSpace_stop (u : list ascii) (stop : nat) : list ascii :=
  match stop with
  | O => take stop u
  | S stop' =>
    let c := nth stop' u zero in
    if RuneSelf <=? byteval c then TrimRightFunc (take stop u) IsSpace
    else if asciiSpace c then TrimSpace_stop u stop'
    else take stop u
  end.

(** The first loop of [strings.TrimSpace], on the rest [s[start:]] of the
    string: the fast path for ASCII, which falls back to the Unicode-aware
    [TrimFunc] at the first non-ASCII byte. *)
Fixpoint TrimSpace_start (u : list ascii) : list ascii :=
  match u with
  | [] => TrimSpace_stop u (length u)
  | c :: u' =>
    if RuneSelf <=? byteval c then TrimFunc u IsSpace
    else if asciiSpace c then TrimSpace_start u'
    else TrimSpace_stop u (length u)
  end.

(** [strings.TrimSpace]. *)
Definition TrimSpace (s : string) : string := str (TrimSpace_start (bytes s)).

(** [strings.HasPrefix] on bytes. *)
Fixpoint HasPrefix (s prefix : list ascii) : bool :=
  match prefix, s with
  | [], _ => true
  | _ :: _, [] => false
  | p :: prefix', c :: s' => Ascii.eqb c p && HasPrefix s' prefix'
  end.

(** [strings.Index]: the index of the first instance of [substr] in [s], or
    [-1].  Go picks among several search algorithms by length; they all return
    this index, which is computed here by trying the offsets in order. *)
Fixpoint Index_from (s substr : list ascii) (i : nat) : Z :=
  if HasPrefix s substr then Z.of_nat i
  else match s with
       | [] => -1
       | _ :: s' => Index_from s' substr (S i)
       end.

Definition Index (s substr : list ascii) : Z := Index_from s substr 0.

(** [utf8.RuneCountInString]. *)
Fixpoint RuneCount_loop (fuel : nat) (s : list ascii) (n : Z) : Z :=
  match fuel with
  | O => n
  | S fuel' =>
    match s with
    | [] => n
    | _ :: _ =>
      let '(_, size) := DecodeRuneInString s in
      RuneCount_loop fuel' (drop size s) (n + 1)
    end
  end.

Definition RuneCountInString (s : list ascii) : Z :=
  RuneCount_loop (length s) s 0.

(** The loop of [strings.Count] for a non-empty [substr]:
    [for { i := Index(s, substr); if i == -1 { return n }; n++;
    s = s[i+len(substr):] }]. *)
Fixpoint Count_loop (fuel : nat) (s substr : list ascii) (n : Z) : Z :=
  match fuel with
  | O => n
  | S fuel' =>
    let i := Index s substr in
    if i =? -1 then n
    else Count_loop fuel' (drop (Z.to_nat i + length substr) s) substr (n + 1)
  end.

(** [strings.Count]: the number of non-overlapping instances of [substr].
    (For a [substr] of one byte Go counts the bytes directly, which is the
    same number.) *)
Definition Count (s substr : list ascii) : Z :=
  if (length substr =? 0)%nat then RuneCountInString s + 1
  else Count_loop (S (length s)) s substr 0.

(** The loop [for i := 0; i < n; i++] of [strings.Replace]; [k] is the number
    of iterations left, [b] the builder, [start] the read position. *)
Fixpoint Replace_loop (k : nat) (i : Z) (s old new : list ascii)
    (start : Z) (b : list ascii) : list ascii * Z :=
  match k with
  | O => (b, start)
  | S k' =>
    let j :=
      if (length old =? 0)%nat then
        if 0 <? i then
          let '(_, wid) := DecodeRuneInString (drop (Z.to_nat start) s) in
          start + Z.of_nat wid
        else start
      else start + Index (drop (Z.to_nat start) s) old in
    let b := b ++ take (Z.to_nat (j - start)) (drop (Z.to_nat start) s) in
    let b := b ++ new in
    Replace_loop k' (i + 1) s old new (j + Z.of_nat (length old)) b
  end.

(** [strings.Replace]: the first [n] non-overlapping instances of [old]
    replaced by [new]; all of them if [n < 0]. *)
Definition Replace (s old new : list ascii) (n : Z) : list ascii :=
  if bool_decide (old = new) || (n =? 0) then s
  else
    let m := Count s old in
    if m =? 0 then s
    else
      let n := if (n <? 0) || (m <? n) then m else n in
      let '(b, start) := Replace_loop (Z.to_nat n) 0 s old new 0 [] in
      b ++ drop (Z.to_nat start) s.

(** [strings.ReplaceAll]. *)
Definition ReplaceAll (s old new : string) : string :=
  str (Replace (bytes s) (bytes old) (bytes new) (-1)).

(** [fmt.Sprintf] for a format with one [%s] verb and one string operand; the
    text around the verb is copied. *)
Fixpoint Sprintf (format : string) (a : string) : string :=
  match format with
  | EmptyString => EmptyString
  | String "%" (String "s" rest) => a +:+ rest
  | String c rest => String c (Sprintf rest a)
  end.

(** *** path/filepath, on a system whose separator is the slash *)

Definition Separator : ascii := "/"%char.
Definition IsPathSeparator (c : ascii) : bool := Ascii.eqb c Separator.
Definition dot : ascii := "."%char.

(** [lazybuf]: the output of [Clean]; the bytes written are [take w buf]. *)
Record lazybuf := mkLazybuf { buf : list ascii; w : nat }.

Definition lazybuf_index (b : lazybuf) (i : nat) : ascii := nth i (buf b) zero.

Definition lazybuf_append (b : lazybuf) (c : ascii) : lazybuf :=
  mkLazybuf (take (w b) (buf b) ++ [c]) (S (w b)).

Definition lazybuf_string (b : lazybuf) : list ascii := take (w b) (buf b).

(** [for out.w > dotdot && !IsPathSeparator(out.index(out.w)) { out.w-- }] *)
Fixpoint backtrack (fuel : nat) (out : lazybuf) (dotdot : nat) : lazybuf :=
  match fuel with
  | O => out
  | S fuel' =>
    if (dotdot <? w out)%nat && negb (IsPathSeparator (lazybuf_index out (w out)))
    then backtrack fuel' (mkLazybuf (buf out) (w out - 1)) dotdot
    else out
  end.

(** [for ; r < n && !IsPathSeparator(path[r]); r++ { out.append(path[r]) }],
    on the rest [path[r:]] of the path; returns the buffer and the new [r]. *)
Fixpoint copy_element (rest : list ascii) (out : lazybuf) (r : nat)
    : lazybuf * nat :=
  match rest with
  | [] => (out, r)
  | c :: rest' =>
    if IsPathSeparator c then (out, r)
    else copy_element rest' (lazybuf_append out c) (S r)
  end.

(** The main loop [for r < n] of [filepath.Clean]. *)
Fixpoint Clean_loop (fuel : nat) (path : list ascii) (rooted : bool)
    (out : lazybuf) (r dotdot : nat) : lazybuf :=
  match fuel with
  | O => out
  | S fuel' =>
    let n := length path in
    if (r <? n)%nat then
      let at_ (i : nat) := nth i path zero in
      if IsPathSeparator (at_ r) then
        (* empty path element *)
        Clean_loop fuel' path rooted out (r + 1) dotdot
      else if Ascii.eqb (at_ r) dot
              && ((r + 1 =? n)%nat || IsPathSeparator (at_ (r + 1)%nat)) then
        (* . element *)
        Clean_loop fuel' path rooted out (r + 1) dotdot
      else if Ascii.eqb (at_ r) dot && Ascii.eqb (at_ (r + 1)%nat) dot
              && ((r + 2 =? n)%nat || IsPathSeparator (at_ (r + 2)%nat)) then
        (* .. element: remove to last separator *)
        if (dotdot <? w out)%nat then
          let out := mkLazybuf (buf out) (w out - 1) in
          let out := backtrack (w out) out dotdot in
          Clean_loop fuel' path rooted out (r + 2) dotdot
        else if negb rooted then
          let out := if (0 <? w out)%nat then lazybuf_append out Separator
                     else out in
          let out := lazybuf_append out dot in
          let out := lazybuf_append out dot in
          Clean_loop fuel' path rooted out (r + 2) (w out)
        else Clean_loop fuel' path rooted out (r + 2) dotdot
      else
        (* real path element: add slash if needed, copy element *)
        let out :=
          if rooted && negb (w out =? 1)%nat || negb rooted && negb (w out =? 0)%nat
          then lazybuf_append out Separator else out in
        let '(out, r) := copy_element (drop r path) out r in
        Clean_loop fuel' path rooted out r dotdot
    else out
  end.

(** [filepath.Clean] without a volume name. *)
Definition Clean (path : list ascii) : list ascii :=
  match path with
  | [] => [dot]
  | c :: _ =>
    let rooted := IsPathSeparator c in
    let out := mkLazybuf [] 0 in
    let '(out, r, dotdot) :=
      if rooted then (lazybuf_append out Separator, 1%nat, 1%nat)
      else (out, 0%nat, 0%nat) in
    let out := Clean_loop (length path) path rooted out r dotdot in
    (* Turn empty string into "." *)
    let out := if (w out =? 0)%nat then lazybuf_append out dot else out in
    lazybuf_string out
  end.

(** [for i >= len(vol) && !os.IsPathSeparator(path[i]) { i-- }] of
    [filepath.Dir]; the argument is [i + 1] and so is the result. *)
Fixpoint Dir_scan (path : list ascii) (i1 : nat) : nat :=
  match i1 with
  | O => O
  | S i => if IsPathSeparator (nth i path zero) then i1 else Dir_scan path i
  end.

(** [filepath.Dir]: all but the last element of [path], cleaned; the volume
    name is empty. *)
Definition Dir (path : string) : string :=
  let p := bytes path in
  str (Clean (take (Dir_scan p (length p)) p)).

(** What [lastIndexFunc] has found when it returns [k]: the rune that ends
    at [k + size] is the last one that is not white space. *)
Definition last_nonspace (u : list ascii) (k : nat) (r : Z) (size : nat) : Prop :=
  DecodeLastRuneInString (take (k + size) u) = (r, size) ∧
  IsSpace r = false ∧ (1 ≤ size)%nat ∧ (k + size ≤ length u)%nat ∧
  ((k + size)%nat = length u ∨
   RuneStart (byteval (nth (k + size) u zero)) = true).

End GoStrings.
Import GoStrings.

Local Close Scope Z_scope.

(** ** The data of tsconfig.go *)

(** [type EnvironmentType string] and its three constants. *)
Definition EnvironmentType : Type := string.
Definition EnvironmentNode : EnvironmentType := "node".
Definition EnvironmentBrowser : EnvironmentType := "browser".
Definition EnvironmentOther : EnvironmentType := "other".

Definition packageNameNamingConventionSubstitution : string := "$package_name$".

(** A Go pointer is an address into one of the stores below; the nil pointer
    is [None]. *)
Abbreviation loc := nat.

(** [type Config struct].  The three reference fields hold addresses: [parent]
    into the store of configs, [excludedPatterns] into the store of linked
    lists, [ignoreDependencies] into the store of maps (a Go map value is a
    reference to the map; the nil map is [None]). *)
Record Config : Type := mkConfig {
  parent : option loc;
  generationEnabled : bool;
  repoRoot : string;
  environmentType : EnvironmentType;
  excludedPatterns : option loc;
  ignoreDependencies : option loc;
  validateImportStatements : bool;
  libraryNamingConvention : string;
  testNamingConvention : string
}.

(** The Go heap, as far as this package allocates in it: the [Config] structs,
    the [singlylinkedlist.List] objects (the values added by this package are
    strings, kept in list order) and the [map[string]struct{}] objects (sets of
    keys).  An address is an index; allocation appends. *)
Record Heap : Type := mkHeap {
  configs : list Config;
  lists : list (list string);
  maps : list (gset string)
}.

Definition empty_heap : Heap := mkHeap [] [] [].

(** [type Configs map[string]*Config]; a value may be the nil pointer. *)
Abbreviation Configs := (gmap string (option loc)).

(** ** Go statements as state transformers

    [M A] is a computation on the heap that returns an [A] or panics ([None]):
    a nil or dangling pointer is dereferenced, or a nil map is written. *)
Definition M (A : Type) : Type := Heap → option (A * Heap).

Definition ret {A} (a : A) : M A := λ h, Some (a, h).
Definition bind {A B} (m : M A) (f : A → M B) : M B :=
  λ h, match m h with
       | Some (a, h') => f a h'
       | None => None
       end.
Definition panic {A} : M A := λ _, None.

Notation "'do' x <- m ; f" := (bind m (λ x, f))
  (at level 10, x name, m at level 100, f at level 200,
   format "'[v' 'do'  x  <-  m ; '/' f ']'").

(** [&Config{...}]: a new struct, at a fresh address. *)
Definition new_Config (cfg : Config) : M loc := λ h,
  Some (length (configs h), mkHeap (configs h ++ [cfg]) (lists h) (maps h)).

(** [*c], for a read. *)
Definition load (c : loc) : M Config := λ h,
  match configs h !! c with
  | Some cfg => Some (cfg, h)
  | None => None
  end.

(** [*c = cfg], used for the assignment to one field. *)
Definition store (c : loc) (cfg : Config) : M unit := λ h,
  match configs h !! c with
  | Some _ => Some (tt, mkHeap (<[c := cfg]> (configs h)) (lists h) (maps h))
  | None => None
  end.

(** [singlylinkedlist.New()] without values: a new, empty list. *)
Definition singlylinkedlist_New : M (option loc) := λ h,
  Some (Some (length (lists h)), mkHeap (configs h) (lists h ++ [[]]) (maps h)).

(** [list.Add(value)]: appends the value at the end of the list. *)
Definition singlylinkedlist_Add (l : option loc) (value : string) : M unit := λ h,
  match l with
  | None => None
  | Some a =>
    match lists h !! a with
    | Some vs => Some (tt, mkHeap (configs h) (<[a := vs ++ [value]]> (lists h)) (maps h))
    | None => None
    end
  end.

(** [list.Values()]: the elements of the list, in order. *)
Definition singlylinkedlist_Values (l : option loc) : M (list string) := λ h,
  match l with
  | None => None
  | Some a =>
    match lists h !! a with
    | Some vs => Some (vs, h)
    | None => None
    end
  end.

(** [make(map[string]struct{})]. *)
Definition make_map : M (option loc) := λ h,
  Some (Some (length (maps h)), mkHeap (configs h) (lists h) (maps h ++ [∅])).

(** [m[key] = struct{}{}]; an assignment to an entry of the nil map panics. *)
Definition map_assign (m : option loc) (key : string) : M unit := λ h,
  match m with
  | None => None
  | Some a =>
    match maps h !! a with
    | Some ks => Some (tt, mkHeap (configs h) (lists h) (<[a := {[key]} ∪ ks]> (maps h)))
    | None => None
    end
  end.

(** [_, ok := m[key]]; a read of the nil map finds nothing. *)
Definition map_lookup (m : option loc) (key : string) : M bool := λ h,
  match m with
  | None => Some (false, h)
  | Some a =>
    match maps h !! a with
    | Some ks => Some (bool_decide (key ∈ ks), h)
    | None => None
    end
  end.

(** ** The functions of tsconfig.go *)

(** [func (c *Configs) ParentForPackage(pkg string) *Config].  The receiver
    map is only read, so it is passed by value. *)
Definition ParentForPackage (c : Configs) (pkg : string) : M (option loc) :=
  let dir := Dir pkg in
  let dir := if bool_decide (dir = ".") then "" else dir in
  let parent := default None (c !! dir) in
  ret parent.

(** [func New(repoRoot string) *Config]. *)
Definition New (repoRoot : string) : M loc :=
  do l <- singlylinkedlist_New;
  do m <- make_map;
  new_Config {|
    parent := None;
    generationEnabled := true;
    repoRoot := repoRoot;
    environmentType := EnvironmentOther;
    excludedPatterns := l;
    ignoreDependencies := m;
    validateImportStatements := true;
    libraryNamingConvention := packageNameNamingConventionSubstitution;
    testNamingConvention :=
      Sprintf "%s_test" packageNameNamingConventionSubstitution
  |}.

(** [func (c *Config) Parent() *Config]. *)
Definition Parent (c : loc) : M (option loc) :=
  do cfg <- load c;
  ret (parent cfg).

(** [func (c *Config) NewChild() *Config]. *)
Definition NewChild (c : loc) : M loc :=
  do cfg <- load c;
  do m <- make_map;
  new_Config {|
    parent := Some c;
    generationEnabled := generationEnabled cfg;
    repoRoot := repoRoot cfg;
    environmentType := environmentType cfg;
    excludedPatterns := excludedPatterns cfg;
    ignoreDependencies := m;
    validateImportStatements := validateImportStatements cfg;
    libraryNamingConvention := libraryNamingConvention cfg;
    testNamingConvention := testNamingConvention cfg
  |}.

(** [func (c *Config) AddExcludedPattern(pattern string)]. *)
Definition AddExcludedPattern (c : loc) (pattern : string) : M unit :=
  do cfg <- load c;
  singlylinkedlist_Add (excludedPatterns cfg) pattern.

(** [func (c *Config) ExcludedPatterns() *singlylinkedlist.List]. *)
Definition ExcludedPatterns (c : loc) : M (option loc) :=
  do cfg <- load c;
  ret (excludedPatterns cfg).

(** [func (c *Config) SetGenerationEnabled(enabled bool)]. *)
Definition SetGenerationEnabled (c : loc) (enabled : bool) : M unit :=
  do cfg <- load c;
  store c (mkConfig (parent cfg) enabled (repoRoot cfg) (environmentType cfg)
             (excludedPatterns cfg) (ignoreDependencies cfg)
             (validateImportStatements cfg) (libraryNamingConvention cfg)
             (testNamingConvention cfg)).

(** [func (c *Config) GenerationEnabled() bool]. *)
Definition GenerationEnabled (c : loc) : M bool :=
  do cfg <- load c;
  ret (generationEnabled cfg).

(** [func (c *Config) FindThirdPartyDependency(modName string) (string, bool)].
    The body does not touch the receiver, so a nil receiver is accepted. *)
Definition FindThirdPartyDependency (c : option loc) (modName : string)
    : M (string * bool) :=
  ret ("", false).

(** [func (c *Config) AddIgnoreDependency(dep string)]. *)
Definition AddIgnoreDependency (c : loc) (dep : string) : M unit :=
  do cfg <- load c;
  map_assign (ignoreDependencies cfg) (TrimSpace dep).

(** The loop [for parent != nil] of [IgnoresDependency].  The Go loop has no
    bound; [fuel] is the number of iterations allowed here, and the result is
    [None] when it runs out before the nil parent is reached, as it is when a
    dangling pointer is met.  Neither happens on a heap the package builds
    ([IgnoresDependency_iff_ancestor]). *)
Fixpoint IgnoresDependency_loop (fuel : nat) (parent_ : option loc)
    (trimmedDep : string) : M bool :=
  match parent_ with
  | None => ret false
  | Some p =>
    match fuel with
    | O => panic
    | S fuel' =>
      do pcfg <- load p;
      do ignores <- map_lookup (ignoreDependencies pcfg) trimmedDep;
      if ignores : bool then ret true
      else IgnoresDependency_loop fuel' (parent pcfg) trimmedDep
    end
  end.

(** [func (c *Config) IgnoresDependency(dep string) bool], the loop run with
    [fuel] iterations at most. *)
Definition IgnoresDependency_fuel (fuel : nat) (c : loc) (dep : string) : M bool :=
  let trimmedDep := TrimSpace dep in
  do cfg <- load c;
  do ignores <- map_lookup (ignoreDependencies cfg) trimmedDep;
  if ignores : bool then ret true
  else IgnoresDependency_loop fuel (parent cfg) trimmedDep.

(** [IgnoresDependency] with one iteration for each config of the heap, which
    is enough on every heap this package builds ([IgnoresDependency_enough]). *)
Definition IgnoresDependency (c : loc) (dep : string) : M bool :=
  λ h, IgnoresDependency_fuel (length (configs h)) c dep h.

(** [func (c *Config) SetValidateImportStatements(validate bool)]. *)
Definition SetValidateImportStatements (c : loc) (validate : bool) : M unit :=
  do cfg <- load c;
  store c (mkConfig (parent cfg) (generationEnabled cfg) (repoRoot cfg)
             (environmentType cfg) (excludedPatterns cfg)
             (ignoreDependencies cfg) validate (libraryNamingConvention cfg)
             (testNamingConvention cfg)).

(** [func (c *Config) ValidateImportStatements() bool]. *)
Definition ValidateImportStatements (c : loc) : M bool :=
  do cfg <- load c;
  ret (validateImportStatements cfg).

(** [func (c *Config) SetEnvironmentType(envType EnvironmentType)]. *)
Definition SetEnvironmentType (c : loc) (envType : EnvironmentType) : M unit :=
  do cfg <- load c;
  store c (mkConfig (parent cfg) (generationEnabled cfg) (repoRoot cfg)
             envType (excludedPatterns cfg) (ignoreDependencies cfg)
             (validateImportStatements cfg) (libraryNamingConvention cfg)
             (testNamingConvention cfg)).

(** [func (c *Config) SetLibraryNamingConvention(libraryNamingConvention string)]. *)
Definition SetLibraryNamingConvention (c : loc) (libraryNamingConvention_ : string)
    : M unit :=
  do cfg <- load c;
  store c (mkConfig (parent cfg) (generationEnabled cfg) (repoRoot cfg)
             (environmentType cfg) (excludedPatterns cfg)
             (ignoreDependencies cfg) (validateImportStatements cfg)
             libraryNamingConvention_ (testNamingConvention cfg)).

(** [func (c *Config) RenderLibraryName(packageName string) string]. *)
Definition RenderLibraryName (c : loc) (packageName : string) : M string :=
  do cfg <- load c;
  ret (ReplaceAll (libraryNamingConvention cfg)
         packageNameNamingConventionSubstitution packageName).

(** [func (c *Config) SetTestNamingConvention(testNamingConvention string)]. *)
Definition SetTestNamingConvention (c : loc) (testNamingConvention_ : string)
    : M unit :=
  do cfg <- load c;
  store c (mkConfig (parent cfg) (generationEnabled cfg) (repoRoot cfg)
             (environmentType cfg) (excludedPatterns cfg)
             (ignoreDependencies cfg) (validateImportStatements cfg)
             (libraryNamingConvention cfg) testNamingConvention_).

(** [func (c *Config) RenderTestName(packageName string) string]. *)
Definition RenderTestName (c : loc) (packageName : string) : M string :=
  do cfg <- load c;
  ret (ReplaceAll (testNamingConvention cfg)
         packageNameNamingConventionSubstitution packageName).

(** ** Runs of the package and the heaps they reach *)

(** One call of a constructor or of a mutating method of the package, as made
    by the directive layer or the tree walker.  These are the only writes to
    the heap: the fields of [Config] are unexported, and the list returned by
    [ExcludedPatterns] is read by its callers, not written. *)
Inductive call : Type :=
  | CallNew (repoRoot : string)
  | CallNewChild (c : loc)
  | CallAddExcludedPattern (c : loc) (pattern : string)
  | CallSetGenerationEnabled (c : loc) (enabled : bool)
  | CallAddIgnoreDependency (c : loc) (dep : string)
  | CallSetValidateImportStatements (c : loc) (validate : bool)
  | CallSetEnvironmentType (c : loc) (envType : EnvironmentType)
  | CallSetLibraryNamingConvention (c : loc) (convention : string)
  | CallSetTestNamingConvention (c : loc) (convention : string).

Definition run_call (k : call) : M unit :=
  match k with
  | CallNew repoRoot => do _ <- New repoRoot; ret tt
  | CallNewChild c => do _ <- NewChild c; ret tt
  | CallAddExcludedPattern c pattern => AddExcludedPattern c pattern
  | CallSetGenerationEnabled c enabled => SetGenerationEnabled c enabled
  | CallAddIgnoreDependency c dep => AddIgnoreDependency c dep
  | CallSetValidateImportStatements c validate =>
      SetValidateImportStatements c validate
  | CallSetEnvironmentType c envType => SetEnvironmentType c envType
  | CallSetLibraryNamingConvention c convention =>
      SetLibraryNamingConvention c convention
  | CallSetTestNamingConvention c convention =>
      SetTestNamingConvention c convention
  end.

Fixpoint run_calls (ks : list call) : M unit :=
  match ks with
  | [] => ret tt
  | k :: ks' => do _ <- run_call k; run_calls ks'
  end.

(** The heaps of the program: those a run of calls builds from nothing. *)
Definition reachable (h : Heap) : Prop :=
  ∃ ks, run_calls ks empty_heap = Some (tt, h).

(** [c] is the address of a config of [h]: a node of the tree. *)
Definition node (h : Heap) (c : loc) : Prop := is_Some (configs h !! c).

(** The invariant of reachable heaps: a parent was allocated before its
    child; every config has an exclusion list; the config at address [c] owns
    the map at address [c], because [New] and [NewChild] make one of each. *)
Record wf (h : Heap) : Prop := mkWf {
  wf_maps : length (maps h) = length (configs h);
  wf_parent : ∀ c cfg p,
    configs h !! c = Some cfg → parent cfg = Some p → p < c;
  wf_excluded : ∀ c cfg,
    configs h !! c = Some cfg →
    ∃ l, excludedPatterns cfg = Some l ∧ l < length (lists h);
  wf_ignore : ∀ c cfg,
    configs h !! c = Some cfg → ignoreDependencies cfg = Some c
}.

(** [ancestor_or_self h c a]: following [parent] from [c] zero or more times
    leads to [a]. *)
Inductive ancestor_or_self (h : Heap) : loc → loc → Prop :=
  | aos_self c : node h c → ancestor_or_self h c c
  | aos_step c cfg p a :
      configs h !! c = Some cfg → parent cfg = Some p →
      ancestor_or_self h p a → ancestor_or_self h c a.

(** [descendant h b a]: [b] is below [a], one or more [parent] steps away. *)
Definition descendant (h : Heap) (b a : loc) : Prop :=
  ∃ cfg p, configs h !! b = Some cfg ∧ parent cfg = Some p ∧
           ancestor_or_self h p a.

(** [key] is in the map that [c.ignoreDependencies] refers to. *)
Definition locally_ignored (h : Heap) (c : loc) (key : string) : Prop :=
  ∃ cfg m ks, configs h !! c = Some cfg ∧ ignoreDependencies cfg = Some m ∧
              maps h !! m = Some ks ∧ key ∈ ks.

(** [key] is in the map of [c] or in the map of one of its ancestors. *)
Definition ignored (h : Heap) (c : loc) (key : string) : Prop :=
  ∃ a, ancestor_or_self h c a ∧ locally_ignored h a key.

(** The keys of the map that [c.ignoreDependencies] refers to. *)
Definition ignore_set (h : Heap) (c : loc) : option (gset string) :=
  match configs h !! c with
  | Some cfg =>
    match ignoreDependencies cfg with
    | Some m => maps h !! m
    | None => None
    end
  | None => None
  end.

(** [h'] is a later heap than [h]: the configs of [h] are still there with
    the same three references, maps have only gained keys and lists have only
    been extended at the end. *)
Record heap_le (h h' : Heap) : Prop := mkHeapLe {
  le_configs : ∀ c cfg,
    configs h !! c = Some cfg →
    ∃ cfg', configs h' !! c = Some cfg' ∧ parent cfg' = parent cfg ∧
            excludedPatterns cfg' = excludedPatterns cfg ∧
            ignoreDependencies cfg' = ignoreDependencies cfg;
  le_maps : ∀ m ks,
    maps h !! m = Some ks → ∃ ks', maps h' !! m = Some ks' ∧ ks ⊆ ks';
  le_lists : ∀ l vs,
    lists h !! l = Some vs → ∃ vs', lists h' !! l = Some vs' ∧ vs `prefix_of` vs'
}.

(** The scalar settings of a config, the fields [NewChild] copies by value. *)
Definition scalars (cfg : Config)
    : bool * string * EnvironmentType * bool * string * string :=
  (generationEnabled cfg, repoRoot cfg, environmentType cfg,
   validateImportStatements cfg, libraryNamingConvention cfg,
   testNamingConvention cfg).

(** The setters of the scalar settings. *)
Inductive setter : Type :=
  | SetGen (enabled : bool)
  | SetValidate (validate : bool)
  | SetEnv (envType : EnvironmentType)
  | SetLibrary (convention : string)
  | SetTest (convention : string).

Definition run_setter (s : setter) (c : loc) : M unit :=
  match s with
  | SetGen enabled => SetGenerationEnabled c enabled
  | SetValidate validate => SetValidateImportStatements c validate
  | SetEnv envType => SetEnvironmentType c envType
  | SetLibrary convention => SetLibraryNamingConvention c convention
  | SetTest convention => SetTestNamingConvention c convention
  end.

(** The read-side operations of a node, and the values they return. *)
Inductive query : Type :=
  | QParent
  | QExcludedPatterns
  | QExcludedValues
  | QGenerationEnabled
  | QFindThirdPartyDependency (modName : string)
  | QIgnoresDependency (dep : string)
  | QValidateImportStatements
  | QRenderLibraryName (packageName : string)
  | QRenderTestName (packageName : string).

Inductive answer : Type :=
  | APointer (p : option loc)
  | AValues (vs : list string)
  | ABool (b : bool)
  | AString (s : string)
  | AFound (path : string) (found : bool).

Definition run_query (q : query) (c : loc) : M answer :=
  match q with
  | QParent => do p <- Parent c; ret (APointer p)
  | QExcludedPatterns => do l <- ExcludedPatterns c; ret (APointer l)
  | QExcludedValues =>
      do l <- ExcludedPatterns c;
      do vs <- singlylinkedlist_Values l;
      ret (AValues vs)
  | QGenerationEnabled => do b <- GenerationEnabled c; ret (ABool b)
  | QFindThirdPartyDependency modName =>
      do r <- FindThirdPartyDependency (Some c) modName;
      ret (AFound (fst r) (snd r))
  | QIgnoresDependency dep => do b <- IgnoresDependency c dep; ret (ABool b)
  | QValidateImportStatements =>
      do b <- ValidateImportStatements c; ret (ABool b)
  | QRenderLibraryName packageName =>
      do s <- RenderLibraryName c packageName; ret (AString s)
  | QRenderTestName packageName =>
      do s <- RenderTestName c packageName; ret (AString s)
  end.

(** ** The reading of "every occurrence replaced"

    [replace_every old new skip s] scans [s] from the left; where [old] starts
    it emits [new] and passes over the bytes of [old] ([skip] counts the bytes
    of a matched [old] still to pass), elsewhere it copies the byte.  It is
    written from the words of the specification, for a non-empty [old], and is
    compared with [strings.Replace] in [ReplaceAll_replace_every]. *)
Fixpoint replace_every (old new : list ascii) (skip : nat) (s : list ascii)
    : list ascii :=
  match s with
  | [] => []
  | c :: s' =>
    match skip with
    | S skip' => replace_every old new skip' s'
    | O =>
      if HasPrefix s old then new ++ replace_every old new (length old - 1) s'
      else c :: replace_every old new 0 s'
    end
  end.

(** [old] occurs in [s] at byte offset [i]. *)
Definition occurs_at (old s : list ascii) (i : nat) : Prop :=
  take (length old) (drop i s) = old.

(** A small tree used to instantiate the theorems: the root, the package [a]
    below it, the package [a/b] below [a], and [left-pad] ignored at [a]. *)
Definition demo_calls : list call :=
  [CallNew "/repo"; CallNewChild 0; CallNewChild 1;
   CallAddIgnoreDependency 1 " left-pad "; CallAddExcludedPattern 2 "*.gen.ts"].

Definition demo_heap : Heap :=
  match run_calls demo_calls empty_heap with
  | Some (_, h) => h
  | None => empty_heap
  end.

(** The [Configs] map the walker has built for that tree: each package path
    is registered with the address of its config. *)
Definition demo_configs : Configs :=
  {[ "" := Some 0; "a" := Some 1; "a/b" := Some 2 ]}.

(** The config of the package [a/b] in [demo_heap]. *)
Definition demo_leaf : Config :=
  mkConfig (Some 1) true "/repo" "other" (Some 0) (Some 2) true
    "$package_name$" "$package_name$_test".

(** The placeholder of the naming templates, as bytes. *)
Definition placeholder : list ascii :=
  bytes packageNameNamingConventionSubstitution.

(** The key [ParentForPackage] looks up: the directory of the package, with
    ["."] replaced by the empty string. *)
Definition parent_key (pkg : string) : string :=
  if bool_decide (Dir pkg = ".") then "" else Dir pkg.


(** ** What the queries read, and further sample heaps *)

(** What the answer to a query on [n] in [h] is read from, compared with the
    same for [n'] in [h']. *)
Definition reads_same (q : query) (h : Heap) (n : loc) (cfg : Config)
    (h' : Heap) (n' : loc) (cfg' : Config) : Prop :=
  match q with
  | QParent => parent cfg = parent cfg'
  | QExcludedPatterns => excludedPatterns cfg = excludedPatterns cfg'
  | QExcludedValues =>
      ∃ l l', excludedPatterns cfg = Some l ∧ excludedPatterns cfg' = Some l' ∧
              lists h !! l = lists h' !! l'
  | QGenerationEnabled => generationEnabled cfg = generationEnabled cfg'
  | QFindThirdPartyDependency _ => True
  | QIgnoresDependency dep =>
      ignored h n (TrimSpace dep) ↔ ignored h' n' (TrimSpace dep)
  | QValidateImportStatements =>
      validateImportStatements cfg = validateImportStatements cfg'
  | QRenderLibraryName _ =>
      libraryNamingConvention cfg = libraryNamingConvention cfg'
  | QRenderTestName _ => testNamingConvention cfg = testNamingConvention cfg'
  end.

(** The query that reads the field a setter writes; [SetEnvironmentType] has
    none. *)
Definition observes (s : setter) (q : query) : bool :=
  match s, q with
  | SetGen _, QGenerationEnabled => true
  | SetValidate _, QValidateImportStatements => true
  | SetLibrary _, QRenderLibraryName _ => true
  | SetTest _, QRenderTestName _ => true
  | _, _ => false
  end.

(** Two setters of the same field. *)
Definition same_field (s s' : setter) : bool :=
  match s, s' with
  | SetGen _, SetGen _ => true
  | SetValidate _, SetValidate _ => true
  | SetEnv _, SetEnv _ => true
  | SetLibrary _, SetLibrary _ => true
  | SetTest _, SetTest _ => true
  | _, _ => false
  end.

(** A child refers to the exclusion list of its parent. *)
Definition shares (h : Heap) : Prop :=
  ∀ c cfg p pcfg,
    configs h !! c = Some cfg → parent cfg = Some p →
    configs h !! p = Some pcfg →
    excludedPatterns cfg = excludedPatterns pcfg.

(** The node a call acts on; [New] acts on none. *)
Definition receiver (k : call) : option loc :=
  match k with
  | CallNew _ => None
  | CallNewChild c | CallAddExcludedPattern c _ | CallSetGenerationEnabled c _
  | CallAddIgnoreDependency c _ | CallSetValidateImportStatements c _
  | CallSetEnvironmentType c _ | CallSetLibraryNamingConvention c _
  | CallSetTestNamingConvention c _ => Some c
  end.

(** Two packages side by side under a root. *)
Definition sibling_calls : list call :=
  [CallNew "/repo"; CallNewChild 0; CallNewChild 0].

(** The heap after [sibling_calls]. *)
Definition sibling_heap : Heap :=
  match run_calls sibling_calls empty_heap with
  | Some (_, h) => h
  | None => empty_heap
  end.

(** Two roots have two exclusion lists. *)
Definition separate (h : Heap) : Prop :=
  ∀ r r' cfg cfg',
    configs h !! r = Some cfg → configs h !! r' = Some cfg' →
    parent cfg = None → parent cfg' = None →
    excludedPatterns cfg = excludedPatterns cfg' → r = r'.

(** Two trees under two roots. *)
Definition forest_calls : list call :=
  [CallNew "/one"; CallNew "/two"; CallNewChild 0; CallNewChild 1].

(** The heap after [forest_calls]. *)
Definition forest_heap : Heap :=
  match run_calls forest_calls empty_heap with
  | Some (_, h) => h
  | None => empty_heap
  end.

(** An element of a clean path: not empty, without a separator, neither [.]
    nor [..]. *)
Definition path_element (seg : list ascii) : Prop :=
  seg ≠ [] ∧ Forall (λ c, IsPathSeparator c = false) seg ∧
  seg ≠ [dot] ∧ seg ≠ [dot; dot].

(** The elements joined by separators, as [filepath.Join] writes a path. *)
Fixpoint join_path (segs : list (list ascii)) : list ascii :=
  match segs with
  | [] => []
  | seg :: rest =>
    match rest with
    | [] => seg
    | _ :: _ => seg ++ Separator :: join_path rest
    end
  end.

(** Each element followed by a separator. *)
Definition with_separators (segs : list (list ascii)) : list ascii :=
  concat (map (λ seg, seg ++ [Separator]) segs).


(** ** Proof tools *)

(** Unfolds the monad and the heap primitives in the goal and hypotheses. *)
Ltac unfold_M :=
  unfold New, NewChild, Parent, AddExcludedPattern, ExcludedPatterns,
    SetGenerationEnabled, GenerationEnabled, FindThirdPartyDependency,
    AddIgnoreDependency, SetValidateImportStatements,
    ValidateImportStatements, SetEnvironmentType,
    SetLibraryNamingConvention, RenderLibraryName, SetTestNamingConvention,
    RenderTestName, ParentForPackage,
    singlylinkedlist_New, singlylinkedlist_Add, singlylinkedlist_Values,
    make_map, map_assign, map_lookup, new_Config, load, store,
    bind, ret, panic in *;
  simpl in *.

(** Splits on the heap lookups and pointer tests of an unfolded method. *)
Ltac run_M :=
  unfold_M; repeat (case_match; simplify_eq/=; try done).

(** ** Facts about the Go strings *)

Section GoStringsFacts.
Local Open Scope Z_scope.

(** *** Bytes and UTF-8 decoding *)

Lemma RuneStart_byte c :
  RuneStart (byteval c) = negb ((0x80 <=? byteval c) && (byteval c <=? 0xBF)).
Proof. destruct c as [[] [] [] [] [] [] [] []]; reflexivity. Qed.

Lemma asciiSpace_IsSpace c :
  byteval c < 0x80 → IsSpace (byteval c) = asciiSpace c.
Proof. destruct c as [[] [] [] [] [] [] [] []]; intros H; try reflexivity; vm_compute in H; discriminate. Qed.

Ltac zbool1 :=
  match goal with
  | |- context [ (?a <? ?c)%Z ] => destruct (Z.ltb_spec a c)
  | |- context [ (?a <=? ?c)%Z ] => destruct (Z.leb_spec a c)
  | |- context [ (?a =? ?c)%Z ] => destruct (Z.eqb_spec a c)
  | |- context [ (?a <? ?c)%nat ] => destruct (Nat.ltb_spec a c)
  | |- context [ (?a <=? ?c)%nat ] => destruct (Nat.leb_spec a c)
  | |- context [ (?a =? ?c)%nat ] => destruct (Nat.eqb_spec a c)
  end.

Ltac zbool := repeat (zbool1; cbn [orb andb negb fst snd] in *; try lia).

Lemma first_cases b :
  (b < 0x80 ∧ first b = as_) ∨ (0x80 <= b ∧ first b = xx) ∨
  (0xC2 <= b ∧ first b = s1) ∨ (0xC2 <= b ∧ first b = s2) ∨
  (0xC2 <= b ∧ first b = s3) ∨ (0xC2 <= b ∧ first b = s4) ∨
  (0xC2 <= b ∧ first b = s5) ∨ (0xC2 <= b ∧ first b = s6) ∨
  (0xC2 <= b ∧ first b = s7).
Proof. unfold first. zbool; intuition lia. Qed.

Ltac decode_norm :=
  repeat match goal with
  | |- context [Z.to_nat (Z.land ?x 7)] =>
      let v := eval vm_compute in (Z.to_nat (Z.land x 7)) in
      change (Z.to_nat (Z.land x 7)) with v
  | |- context [acceptRanges (Z.shiftr ?x 4)] =>
      let v := eval vm_compute in (acceptRanges (Z.shiftr x 4)) in
      change (acceptRanges (Z.shiftr x 4)) with v
  | |- context [(as_ <=? ?x)%Z] =>
      let v := eval vm_compute in (as_ <=? x)%Z in
      change (as_ <=? x)%Z with v
  | |- context [(?x =? xx)%Z] =>
      let v := eval vm_compute in (x =? xx)%Z in
      change (x =? xx)%Z with v
  end; cbn [fst snd]; cbv beta iota.

Ltac decode_class c0 E :=
  cbv zeta;
  destruct (first_cases (byteval c0))
    as [[? E] | [[? E] | [[? E] | [[? E] | [[? E] | [[? E] | [[? E] | [[? E] | [? E]]]]]]]]];
  rewrite !E; decode_norm.

Lemma Decode_ascii c s :
  byteval c < 0x80 → DecodeRuneInString (c :: s) = (byteval c, 1%nat).
Proof.
  intros H. unfold DecodeRuneInString. decode_class c E; try lia. reflexivity.
Qed.

Lemma Decode_single c :
  0x80 <= byteval c → DecodeRuneInString [c] = (RuneError, 1%nat).
Proof.
  intros H. unfold DecodeRuneInString. decode_class c E; try lia; reflexivity.
Qed.

Lemma Decode_size s :
  s ≠ [] → (1 ≤ snd (DecodeRuneInString s) ≤ length s)%nat.
Proof.
  destruct s as [| c0 rest]; [done |]. intros _.
  unfold DecodeRuneInString. decode_class c0 E; cbn [length];
    zbool; cbn [snd length] in *; try lia.
Qed.

Lemma Decode_space_start s r sz :
  DecodeRuneInString s = (r, sz) → IsSpace r = true →
  ∃ c s', s = c :: s' ∧ RuneStart (byteval c) = true.
Proof.
  destruct s as [| c0 rest]; [intros [= <- <-]; done |].
  intros H Hsp. exists c0, rest. split; [done |].
  rewrite RuneStart_byte.
  destruct (Z.leb_spec 0x80 (byteval c0)); [| done].
  destruct (Z.leb_spec (byteval c0) 0xBF); [| done]. exfalso.
  revert H. unfold DecodeRuneInString. decode_class c0 E; try lia.
  intros [= <- <-]. done.
Qed.

Lemma Decode_size1 c0 rest r :
  DecodeRuneInString (c0 :: rest) = (r, 1%nat) → 0x80 <= byteval c0 →
  r = RuneError.
Proof.
  unfold DecodeRuneInString. decode_class c0 E; try lia; zbool;
    intros [= <-]; reflexivity.
Qed.

Lemma Decode_broken c0 t :
  0x80 <= byteval c0 →
  (t = [] ∨ ∃ c t', t = c :: t' ∧ RuneStart (byteval c) = true) →
  DecodeRuneInString (c0 :: t) = (RuneError, 1%nat).
Proof.
  intros H0 Ht. unfold DecodeRuneInString. decode_class c0 E; try lia; try done;
    (destruct Ht as [-> | (c & t' & -> & Hc)]; [reflexivity |]);
    cbn [length nth]; rewrite RuneStart_byte in Hc;
    zbool; cbn in Hc; try done.
Qed.

Lemma Decode_multi c0 rest r sz :
  DecodeRuneInString (c0 :: rest) = (r, sz) → (2 ≤ sz)%nat →
  (sz ≤ length (c0 :: rest))%nat ∧
  ∀ t, DecodeRuneInString (take sz (c0 :: rest) ++ t) = (r, sz).
Proof.
  unfold DecodeRuneInString at 1. decode_class c0 E;
    try (intros [= <- <-]; lia).
  all: destruct rest as [| c1 [| c2 [| c3 rest]]]; cbn [length nth];
    zbool; try (intros [= <- <-]; lia);
    intros [= <- <-] _; (split; [cbn [length]; lia |]); intros t;
    cbn [take app]; unfold DecodeRuneInString; cbv zeta;
    rewrite !E; decode_norm; cbn [length nth]; zbool; reflexivity.
Qed.

(** A rune that fills [x] is decoded the same when [x] is followed by the
    start of another rune. *)
Lemma Decode_app x y r :
  x ≠ [] → DecodeRuneInString x = (r, length x) →
  (y = [] ∨ ∃ c y', y = c :: y' ∧ RuneStart (byteval c) = true) →
  DecodeRuneInString (x ++ y) = (r, length x).
Proof.
  destruct x as [| c0 rest]; [done |]. intros _ Hx Hy.
  destruct rest as [| c1 rest].
  - cbn [length app] in *.
    destruct (Z.ltb_spec (byteval c0) 0x80) as [Hlt | Hge].
    + rewrite Decode_ascii in Hx |- * by done. done.
    + rewrite (Decode_size1 _ _ _ Hx Hge). by apply Decode_broken.
  - destruct (Decode_multi _ _ _ _ Hx) as [_ Hm]; [cbn [length]; lia |].
    specialize (Hm y). by rewrite firstn_all in Hm.
Qed.

(** A prefix of a string that starts with a rune other than white space
    does not start with white space. *)
Lemma Decode_take_nonspace u k :
  IsSpace (DecodeRuneInString u).1 = false → (0 < k)%nat →
  IsSpace (DecodeRuneInString (take k u)).1 = false.
Proof.
  intros Hu Hk. destruct u as [| c0 rest]; [by rewrite take_nil |].
  destruct k as [| k]; [lia |]. cbn [take].
  destruct (DecodeRuneInString (c0 :: take k rest)) as [r' sz'] eqn:E.
  cbn [fst]. destruct (IsSpace r') eqn:Hsp; [exfalso | done].
  destruct (Z.ltb_spec (byteval c0) 0x80) as [Hlt | Hge].
  { rewrite Decode_ascii in E, Hu by done. cbn [fst] in Hu. congruence. }
  pose proof (Decode_size (c0 :: take k rest) ltac:(done)) as Hsz.
  rewrite E in Hsz. cbn [snd] in Hsz.
  destruct (decide (sz' = 1%nat)) as [-> | Hne].
  { rewrite (Decode_size1 _ _ _ E Hge) in Hsp. done. }
  destruct (Decode_multi _ _ _ _ E) as [Hlen Hm]; [lia |].
  specialize (Hm (drop sz' (c0 :: rest))).
  change (c0 :: take k rest) with (take (S k) (c0 :: rest)) in Hm, Hlen.
  rewrite take_take in Hm. rewrite length_take in Hlen.
  replace (sz' `min` S k)%nat with sz' in Hm by lia.
  rewrite take_drop in Hm. rewrite Hm in Hu. cbn [fst] in Hu. congruence.
Qed.

(** *** DecodeLastRuneInString *)

Lemma rune_start_loop_le fuel s lim start :
  rune_start_loop fuel s lim start <= start.
Proof.
  revert start. induction fuel as [| fuel IH]; intros start; cbn; [lia |].
  destruct (lim <=? start); [| lia].
  destruct (RuneStart _); [lia |]. specialize (IH (start - 1)). lia.
Qed.

Lemma nth_last_drop (s : list ascii) :
  s ≠ [] → drop (length s - 1) s = [nth (length s - 1) s zero].
Proof.
  intros Hs. destruct (exists_last Hs) as (v & c & ->).
  rewrite length_app. cbn [length].
  replace (length v + 1 - 1)%nat with (length v) by lia.
  rewrite drop_app_length.
  by rewrite app_nth2, Nat.sub_diag by lia.
Qed.

(** The three outcomes of [DecodeLastRuneInString] on a non-empty string. *)
Lemma DecodeLast_cases s :
  s ≠ [] →
  let last := nth (length s - 1) s zero in
  (byteval last < 0x80 ∧ DecodeLastRuneInString s = (byteval last, 1%nat)) ∨
  (0x80 <= byteval last ∧ DecodeLastRuneInString s = (RuneError, 1%nat)) ∨
  (0x80 <= byteval last ∧
   ∃ start, (start < length s)%nat ∧
     DecodeLastRuneInString s = DecodeRuneInString (drop start s) ∧
     (start + snd (DecodeRuneInString (drop start s)) = length s)%nat).
Proof.
  intros Hs last. unfold DecodeLastRuneInString.
  assert (Hlen : (0 < length s)%nat) by (destruct s; [done | cbn; lia]).
  destruct (Z.eqb_spec (Z.of_nat (length s)) 0) as [? | _]; [lia |].
  cbv zeta.
  replace (Z.to_nat (Z.of_nat (length s) - 1)) with (length s - 1)%nat by lia.
  fold last. unfold RuneSelf.
  destruct (Z.ltb_spec (byteval last) 0x80) as [Hlt | Hge]; [by left |].
  right.
  set (st0 := rune_start_loop UTFMax s _ _).
  pose proof (rune_start_loop_le UTFMax s
    (Z.max 0 (Z.of_nat (length s) - Z.of_nat UTFMax))
    (Z.of_nat (length s) - 1 - 1)) as Hle. fold st0 in Hle.
  set (st := if st0 <? 0 then 0 else st0).
  assert (Hst : 0 <= st < Z.of_nat (length s)).
  { unfold st. destruct (Z.ltb_spec st0 0); lia. }
  destruct (DecodeRuneInString (drop (Z.to_nat st) s)) as [r size] eqn:E.
  destruct (Z.eqb_spec (st + Z.of_nat size) (Z.of_nat (length s))) as [Heq | Hne].
  - right. split; [done |]. exists (Z.to_nat st). rewrite E. cbn [snd].
    split; [lia |]. split; [done | lia].
  - left. done.
Qed.

Lemma DecodeLast_size s r size :
  s ≠ [] → DecodeLastRuneInString s = (r, size) →
  (1 ≤ size ≤ length s)%nat.
Proof.
  intros Hs H. assert (0 < length s)%nat by (destruct s; [done | cbn; lia]).
  destruct (DecodeLast_cases s Hs) as [[_ E] | [[_ E] | [_ (st & Hst & E & Hsum)]]];
    rewrite E in H.
  - simplify_eq. lia.
  - simplify_eq. lia.
  - pose proof (Decode_size (drop st s)) as Hsz.
    rewrite H in Hsz, Hsum. cbn [snd] in *.
    assert (drop st s ≠ []).
    { intros Hnil. apply (f_equal length) in Hnil.
      rewrite length_drop in Hnil. cbn in Hnil. lia. }
    specialize (Hsz ltac:(done)). lia.
Qed.

Lemma nth_drop_head (s : list ascii) i c t :
  drop i s = c :: t → nth i s zero = c.
Proof.
  intros H. rewrite <- (take_drop i s) at 1. rewrite H.
  assert (Hlen : (i ≤ length s)%nat).
  { destruct (decide (i ≤ length s)%nat); [done |].
    rewrite drop_ge in H by lia. done. }
  rewrite app_nth2; rewrite length_take, Nat.min_l by lia; [| lia].
  by rewrite Nat.sub_diag.
Qed.

(** A white-space rune found at the end starts at a rune-start byte. *)
Lemma DecodeLast_space_start s r size :
  DecodeLastRuneInString s = (r, size) → IsSpace r = true →
  RuneStart (byteval (nth (length s - size) s zero)) = true.
Proof.
  intros H Hsp. destruct (decide (s = [])) as [-> | Hs].
  { cbn in H. simplify_eq. done. }
  destruct (DecodeLast_cases s Hs) as [[Hlt E] | [[_ E] | [_ (st & Hst & E & Hsum)]]];
    rewrite E in H.
  - simplify_eq. rewrite RuneStart_byte.
    destruct (Z.leb_spec 128 (byteval (nth (length s - 1) s zero))); [lia | done].
  - simplify_eq; done.
  - rewrite H in Hsum. cbn [snd] in Hsum.
    destruct (Decode_space_start _ _ _ H Hsp) as (c & t & Hd & Hc).
    replace (length s - size)%nat with st by lia.
    by rewrite (nth_drop_head _ _ _ _ Hd).
Qed.

(** The rune found at the end is the rune decoded forwards from where it
    starts. *)
Lemma DecodeLast_Decode s r size :
  s ≠ [] → DecodeLastRuneInString s = (r, size) →
  DecodeRuneInString (drop (length s - size) s) = (r, size).
Proof.
  intros Hs H.
  destruct (DecodeLast_cases s Hs) as [[Hlt E] | [[Hge E] | [_ (st & Hst & E & Hsum)]]];
    rewrite E in H.
  - simplify_eq. rewrite nth_last_drop by done. by apply Decode_ascii.
  - simplify_eq. rewrite nth_last_drop by done. by apply Decode_single.
  - rewrite H in Hsum. cbn [snd] in Hsum.
    by replace (length s - size)%nat with st by lia.
Qed.

Lemma DecodeLast_snoc_ascii v c :
  byteval c < 0x80 → DecodeLastRuneInString (v ++ [c]) = (byteval c, 1%nat).
Proof.
  intros Hc.
  destruct (DecodeLast_cases (v ++ [c])) as [[Hlt E] | [[Hge E] | [Hge _]]];
    [by destruct v | | |];
    rewrite length_app in *; cbn [length] in *;
    replace (length v + 1 - 1)%nat with (length v) in * by lia;
    rewrite app_nth2, Nat.sub_diag in * by lia; cbn [nth] in *; [done | lia..].
Qed.

(** *** lastIndexFunc and TrimRightFunc *)

Lemma lastIndexFunc_loop_take fuel s i j f truth :
  (i ≤ j)%nat →
  lastIndexFunc_loop fuel (take j s) i f truth = lastIndexFunc_loop fuel s i f truth.
Proof.
  revert i. induction fuel as [| fuel IH]; intros i Hij; [reflexivity |]. cbn [lastIndexFunc_loop].
  destruct (0 <? i)%nat; [| done].
  rewrite take_take, Nat.min_l by lia.
  destruct (DecodeLastRuneInString (take i s)) as [r size].
  destruct (Bool.eqb (f r) truth); [done |]. apply IH. lia.
Qed.

Lemma lastIndexFunc_loop_spec fuel u j :
  (j ≤ length u)%nat → (j < fuel)%nat →
  (j = length u ∨ RuneStart (byteval (nth j u zero)) = true) →
  lastIndexFunc_loop fuel u j IsSpace false = -1 ∨
  ∃ k r size,
    lastIndexFunc_loop fuel u j IsSpace false = Z.of_nat k ∧
    last_nonspace u k r size ∧ (k + size ≤ j)%nat.
Proof.
  revert j. induction fuel as [| fuel IH]; intros j Hj Hfuel Hstart; [lia |].
  cbn [lastIndexFunc_loop]. destruct (Nat.ltb_spec 0 j) as [Hpos | _]; [| by left].
  destruct (DecodeLastRuneInString (take j u)) as [r size] eqn:E.
  assert (Hne : take j u ≠ []).
  { intros Hnil. apply (f_equal length) in Hnil.
    rewrite length_take in Hnil. cbn in Hnil. lia. }
  pose proof (DecodeLast_size _ _ _ Hne E) as Hsize.
  rewrite length_take, Nat.min_l in Hsize by lia.
  destruct (IsSpace r) eqn:Hsp; cbn [Bool.eqb].
  - pose proof (DecodeLast_space_start _ _ _ E Hsp) as Hrs.
    rewrite length_take, Nat.min_l in Hrs by lia.
    destruct (IH (j - size)%nat) as [Hm | (k & r' & size' & Hk & Hl & Hle)];
      [lia | lia | | by left |].
    + right. rewrite nth_firstn in Hrs.
      destruct (Nat.ltb_spec (j - size) j); [done | lia].
    + right. exists k, r', size'. split; [done |]. split; [done | lia].
  - right. exists (j - size)%nat, r, size. unfold last_nonspace.
    replace (j - size + size)%nat with j by lia.
    split; [done |]. split; [| lia]. repeat split; try done; lia.
Qed.

(** The rune [lastIndexFunc] stops at, decoded forwards, whatever follows it
    as long as that starts a rune. *)
Lemma last_nonspace_Decode u k r size y :
  last_nonspace u k r size →
  (y = [] ∨ ∃ c y', y = c :: y' ∧ RuneStart (byteval c) = true) →
  DecodeRuneInString (drop k (take (k + size) u) ++ y) = (r, size).
Proof.
  intros (E & Hsp & Hsize & Hlen & Hnext) Hy.
  assert (Hne : take (k + size) u ≠ []).
  { intros Hnil. apply (f_equal length) in Hnil.
    rewrite length_take in Hnil. cbn in Hnil. lia. }
  pose proof (DecodeLast_Decode _ _ _ Hne E) as Hd.
  rewrite length_take, Nat.min_l in Hd by lia.
  replace (k + size - size)%nat with k in Hd by lia.
  assert (Hlx : length (drop k (take (k + size) u)) = size).
  { rewrite length_drop, length_take. lia. }
  rewrite <- Hlx at 2. apply Decode_app; [| by rewrite Hlx | done].
  intros Hnil. rewrite Hnil in Hlx. cbn in Hlx. lia.
Qed.

Lemma drop_head_nth (u : list ascii) j :
  (j < length u)%nat → ∃ t, drop j u = nth j u zero :: t.
Proof.
  intros Hj. destruct (drop j u) as [| c t] eqn:E.
  - apply (f_equal length) in E. rewrite length_drop in E. cbn in E. lia.
  - exists t. f_equal. symmetry. by eapply nth_drop_head.
Qed.

Lemma last_nonspace_Decode_drop u k r size :
  last_nonspace u k r size → DecodeRuneInString (drop k u) = (r, size).
Proof.
  intros Hl. pose proof Hl as (E & Hsp & Hsize & Hlen & Hnext).
  rewrite <- (take_drop (k + size) u) at 1.
  rewrite drop_app_le by (rewrite length_take; lia).
  apply last_nonspace_Decode; [done |].
  destruct (decide (k + size < length u)%nat) as [Hlt | Hge].
  - right. destruct Hnext as [Heq | Hrs]; [lia |].
    destruct (drop_head_nth u (k + size) Hlt) as [t Ht]. eauto.
  - left. apply drop_ge. lia.
Qed.

Abbreviation R u := (TrimRightFunc u IsSpace).
Abbreviation L u := (TrimLeftFunc u IsSpace).

Lemma TrimRightFunc_spec u :
  (lastIndexFunc u IsSpace false = -1 ∧ R u = []) ∨
  ∃ k r size,
    lastIndexFunc u IsSpace false = Z.of_nat k ∧ last_nonspace u k r size ∧
    R u = take (k + size) u.
Proof.
  unfold TrimRightFunc.
  destruct (lastIndexFunc_loop_spec (S (length u)) u (length u))
    as [Hm | (k & r & size & Hk & Hl & _)]; [lia | lia | by left | |].
  - left. unfold lastIndexFunc. rewrite Hm. split; [done |]. cbn. by rewrite take_0.
  - right. exists k, r, size. unfold lastIndexFunc. rewrite Hk.
    split; [done |]. split; [done |].
    pose proof (last_nonspace_Decode_drop _ _ _ _ Hl) as Hd.
    destruct Hl as (E & Hsp & Hsize & Hlen & Hnext).
    rewrite Nat2Z.id.
    destruct (Z.leb_spec 0 (Z.of_nat k)) as [_ | ?]; [| lia]. cbn [andb].
    unfold RuneSelf.
    destruct (Z.leb_spec 128 (byteval (nth k u zero))) as [Hge | Hlt].
    + rewrite Hd. f_equal. lia.
    + destruct (drop_head_nth u k ltac:(lia)) as [t Ht].
      rewrite Ht, Decode_ascii in Hd by done. simplify_eq. f_equal. lia.
Qed.

Lemma TrimRightFunc_idem u : R (R u) = R u.
Proof.
  destruct (TrimRightFunc_spec u) as [[_ ->] | (k & r & size & _ & Hl & ->)];
    [done |].
  destruct Hl as (E & Hsp & Hsize & Hlen & Hnext).
  set (v := take (k + size) u).
  assert (Hlv : length v = (k + size)%nat).
  { unfold v. rewrite length_take. lia. }
  assert (Hne : v ≠ []).
  { intros Hnil. rewrite Hnil in Hlv. cbn in Hlv. lia. }
  assert (Hi : lastIndexFunc v IsSpace false = Z.of_nat k).
  { unfold lastIndexFunc. rewrite Hlv. cbn [lastIndexFunc_loop].
    destruct (Nat.ltb_spec 0 (k + size)) as [_ | ?]; [| lia].
    rewrite (take_ge v) by lia. fold v in E. rewrite E, Hsp.
    cbn [Bool.eqb]. f_equal. lia. }
  pose proof (DecodeLast_Decode _ _ _ Hne E) as Hd.
  rewrite Hlv in Hd. replace (k + size - size)%nat with k in Hd by lia.
  unfold TrimRightFunc. rewrite Hi, Nat2Z.id.
  destruct (Z.leb_spec 0 (Z.of_nat k)) as [_ | ?]; [| lia]. cbn [andb].
  unfold RuneSelf.
  destruct (Z.leb_spec 128 (byteval (nth k v zero))) as [Hge | Hlt].
  - rewrite Hd. apply take_ge. lia.
  - destruct (drop_head_nth v k ltac:(lia)) as [t Ht].
    rewrite Ht, Decode_ascii in Hd by done. simplify_eq.
    apply take_ge. lia.
Qed.

Lemma TrimRightFunc_of_index u k r size :
  lastIndexFunc u IsSpace false = Z.of_nat k → last_nonspace u k r size →
  R u = take (k + size) u.
Proof.
  intros Hk Hl. unfold TrimRightFunc. rewrite Hk.
  pose proof (last_nonspace_Decode_drop _ _ _ _ Hl) as Hd.
  destruct Hl as (E & Hsp & Hsize & Hlen & Hnext).
  rewrite Nat2Z.id.
  destruct (Z.leb_spec 0 (Z.of_nat k)) as [_ | ?]; [| lia]. cbn [andb].
  unfold RuneSelf.
  destruct (Z.leb_spec 128 (byteval (nth k u zero))) as [Hge | Hlt].
  - rewrite Hd. f_equal. lia.
  - destruct (drop_head_nth u k ltac:(lia)) as [t Ht].
    rewrite Ht, Decode_ascii in Hd by done. simplify_eq. f_equal. lia.
Qed.

Lemma TrimRightFunc_none u :
  lastIndexFunc u IsSpace false = -1 → R u = [].
Proof. intros H. unfold TrimRightFunc. rewrite H. cbn. by rewrite take_0. Qed.

Lemma lastIndexFunc_spec u :
  lastIndexFunc u IsSpace false = -1 ∨
  ∃ k r size,
    lastIndexFunc u IsSpace false = Z.of_nat k ∧ last_nonspace u k r size.
Proof.
  destruct (lastIndexFunc_loop_spec (S (length u)) u (length u))
    as [Hm | (k & r & size & Hk & Hl & _)]; [lia | lia | by left | |].
  - by left.
  - right. by exists k, r, size.
Qed.

Lemma ascii_RuneStart c : byteval c < 0x80 → RuneStart (byteval c) = true.
Proof.
  intros H. rewrite RuneStart_byte.
  destruct (Z.leb_spec 128 (byteval c)); [lia | done].
Qed.

Lemma lastIndexFunc_loop_S fuel s i f truth :
  lastIndexFunc_loop (S fuel) s i f truth =
  if (0 <? i)%nat then
    let '(r, size) := DecodeLastRuneInString (take i s) in
    if Bool.eqb (f r) truth then Z.of_nat (i - size)
    else lastIndexFunc_loop fuel s (i - size) f truth
  else -1.
Proof. reflexivity. Qed.

Lemma lastIndexFunc_snoc_space v c :
  byteval c < 0x80 → IsSpace (byteval c) = true →
  lastIndexFunc (v ++ [c]) IsSpace false = lastIndexFunc v IsSpace false.
Proof.
  intros Hc Hsp. unfold lastIndexFunc. rewrite length_app. cbn [length].
  replace (length v + 1)%nat with (S (length v)) by lia.
  rewrite (lastIndexFunc_loop_S (S (length v))).
  change (0 <? S (length v))%nat with true. cbv iota.
  rewrite (take_ge (v ++ [c])) by (rewrite length_app; cbn; lia).
  rewrite DecodeLast_snoc_ascii, Hsp by done. cbn [Bool.eqb].
  replace (S (length v) - 1)%nat with (length v) by lia.
  rewrite <- (lastIndexFunc_loop_take _ (v ++ [c]) _ (length v)) by lia.
  by rewrite take_app_length.
Qed.

Lemma TrimRightFunc_snoc_space v c :
  byteval c < 0x80 → IsSpace (byteval c) = true → R (v ++ [c]) = R v.
Proof.
  intros Hc Hsp. pose proof (lastIndexFunc_snoc_space v c Hc Hsp) as Hi.
  destruct (lastIndexFunc_spec v) as [Hm | (k & r & size & Hk & Hl)].
  - rewrite !TrimRightFunc_none; [done.. |]. by rewrite Hi.
  - rewrite (TrimRightFunc_of_index v k r size Hk Hl).
    destruct Hl as (E & Hsp' & Hsize & Hlen & Hnext).
    rewrite (TrimRightFunc_of_index (v ++ [c]) k r size).
    + by rewrite take_app_le.
    + by rewrite Hi.
    + split; [by rewrite take_app_le |]. split; [done |]. split; [done |].
      rewrite length_app. cbn [length]. split; [lia |]. right.
      destruct (decide (k + size < length v)%nat) as [Hlt | Hge].
      * destruct Hnext as [? | Hrs]; [lia |]. by rewrite app_nth1.
      * rewrite app_nth2 by lia.
        replace (k + size - length v)%nat with 0%nat by lia.
        by apply ascii_RuneStart.
Qed.

Lemma TrimRightFunc_snoc_nonspace v c :
  byteval c < 0x80 → IsSpace (byteval c) = false → R (v ++ [c]) = v ++ [c].
Proof.
  intros Hc Hsp.
  assert (Hlen : length (v ++ [c]) = S (length v)).
  { rewrite length_app. cbn. lia. }
  rewrite (TrimRightFunc_of_index (v ++ [c]) (length v) (byteval c) 1).
  - apply take_ge. lia.
  - unfold lastIndexFunc. rewrite Hlen.
    rewrite (lastIndexFunc_loop_S (S (length v))).
    change (0 <? S (length v))%nat with true. cbv iota.
    rewrite (take_ge (v ++ [c])) by lia.
    rewrite DecodeLast_snoc_ascii, Hsp by done. cbn [Bool.eqb]. f_equal. lia.
  - split; [| split; [done | split; [done | split; [lia | left; lia]]]].
    rewrite (take_ge (v ++ [c])) by lia. by apply DecodeLast_snoc_ascii.
Qed.

(** The fast path from the end agrees with [TrimRightFunc]. *)
Lemma TrimSpace_stop_eq u stop :
  (stop ≤ length u)%nat → TrimSpace_stop u stop = R (take stop u).
Proof.
  induction stop as [| stop IH]; intros Hstop.
  - cbn [TrimSpace_stop]. rewrite take_0. reflexivity.
  - cbn [TrimSpace_stop]. unfold RuneSelf.
    destruct (Z.leb_spec 128 (byteval (nth stop u zero))) as [Hge | Hlt]; [done |].
    assert (Htake : take (S stop) u = take stop u ++ [nth stop u zero]).
    { destruct (drop_head_nth u stop ltac:(lia)) as [t Ht].
      rewrite <- (take_drop stop u) at 1. rewrite Ht.
      rewrite take_app_ge; rewrite length_take, Nat.min_l by lia; [| lia].
      by replace (S stop - stop)%nat with 1%nat by lia. }
    rewrite Htake, <- (asciiSpace_IsSpace _ Hlt).
    destruct (IsSpace (byteval (nth stop u zero))) eqn:Hsp.
    + rewrite TrimRightFunc_snoc_space by done. apply IH. lia.
    + by rewrite TrimRightFunc_snoc_nonspace.
Qed.

(** *** indexFunc and TrimLeftFunc *)

Lemma indexFunc_loop_S fuel s i f truth :
  indexFunc_loop (S fuel) s i f truth =
  if (i <? length s)%nat then
    let '(r, size) := DecodeRuneInString (drop i s) in
    if Bool.eqb (f r) truth then Z.of_nat i
    else indexFunc_loop fuel s (i + size) f truth
  else -1.
Proof. reflexivity. Qed.

Lemma indexFunc_loop_cons fuel c u i f truth :
  indexFunc_loop fuel (c :: u) (S i) f truth =
  let x := indexFunc_loop fuel u i f truth in
  if x =? -1 then -1 else x + 1.
Proof.
  revert i. induction fuel as [| fuel IH]; intros i; [reflexivity |].
  rewrite !indexFunc_loop_S. cbn [length drop].
  change (S i <? S (length u))%nat with (i <? length u)%nat.
  destruct (i <? length u)%nat; [| reflexivity].
  destruct (DecodeRuneInString (drop i u)) as [r size].
  destruct (Bool.eqb (f r) truth).
  - cbv zeta. destruct (Z.eqb_spec (Z.of_nat i) (-1)); lia.
  - change (S i + size)%nat with (S (i + size)). apply IH.
Qed.

Lemma indexFunc_loop_nonneg fuel u i f truth :
  indexFunc_loop fuel u i f truth = -1 ∨ 0 <= indexFunc_loop fuel u i f truth.
Proof.
  revert i. induction fuel as [| fuel IH]; intros i; [by left |].
  rewrite indexFunc_loop_S.
  destruct (i <? length u)%nat; [| by left].
  destruct (DecodeRuneInString (drop i u)) as [r size].
  destruct (Bool.eqb (f r) truth); [right; lia | apply IH].
Qed.

Lemma TrimLeftFunc_cons_space c u :
  byteval c < 0x80 → IsSpace (byteval c) = true → L (c :: u) = L u.
Proof.
  intros Hc Hsp. unfold TrimLeftFunc, indexFunc.
  change (length (c :: u)) with (S (length u)).
  rewrite indexFunc_loop_S. cbn [length].
  change (0 <? S (length u))%nat with true. cbv iota.
  rewrite drop_0, Decode_ascii, Hsp by done. cbn [Bool.eqb].
  change (0 + 1)%nat with 1%nat. rewrite indexFunc_loop_cons. cbv zeta.
  destruct (indexFunc_loop_nonneg (length u) u 0 IsSpace false) as [-> | Hnn];
    [reflexivity |].
  set (x := indexFunc_loop (length u) u 0 IsSpace false) in *.
  destruct (Z.eqb_spec x (-1)); [lia |].
  destruct (Z.eqb_spec (x + 1) (-1)); [lia |].
  replace (Z.to_nat (x + 1)) with (S (Z.to_nat x)) by lia.
  reflexivity.
Qed.

Lemma TrimLeftFunc_nonspace u :
  u ≠ [] → IsSpace (DecodeRuneInString u).1 = false → L u = u.
Proof.
  intros Hu Hsp. unfold TrimLeftFunc, indexFunc.
  destruct u as [| c u]; [done |].
  change (length (c :: u)) with (S (length u)).
  rewrite indexFunc_loop_S. cbn [length].
  change (0 <? S (length u))%nat with true. cbv iota. rewrite drop_0.
  destruct (DecodeRuneInString (c :: u)) as [r size]. cbn [fst] in Hsp.
  rewrite Hsp. reflexivity.
Qed.

Lemma indexFunc_loop_spec fuel u i :
  indexFunc_loop fuel u i IsSpace false = -1 ∨
  ∃ k, indexFunc_loop fuel u i IsSpace false = Z.of_nat k ∧
       (k < length u)%nat ∧ IsSpace (DecodeRuneInString (drop k u)).1 = false.
Proof.
  revert i. induction fuel as [| fuel IH]; intros i; [by left |].
  rewrite indexFunc_loop_S.
  destruct (Nat.ltb_spec i (length u)) as [Hlt | _]; [| by left].
  destruct (DecodeRuneInString (drop i u)) as [r size] eqn:E.
  destruct (IsSpace r) eqn:Hsp; cbn [Bool.eqb]; [apply IH |].
  right. exists i. rewrite E. done.
Qed.

(** The result of [TrimLeftFunc] is empty or starts with a rune that is not
    white space. *)
Lemma TrimLeftFunc_spec u :
  L u = [] ∨ (L u ≠ [] ∧ IsSpace (DecodeRuneInString (L u)).1 = false).
Proof.
  unfold TrimLeftFunc, indexFunc.
  destruct (indexFunc_loop_spec (length u) u 0) as [-> | (k & -> & Hk & Hsp)];
    [by left |].
  right. destruct (Z.eqb_spec (Z.of_nat k) (-1)); [lia |]. rewrite Nat2Z.id.
  split; [| done]. intros Hnil. apply (f_equal length) in Hnil.
  rewrite length_drop in Hnil. cbn in Hnil. lia.
Qed.

(** *** TrimSpace *)

Lemma TrimSpace_start_eq u : TrimSpace_start u = R (L u).
Proof.
  induction u as [| c u IH]; [reflexivity |].
  cbn [TrimSpace_start]. unfold RuneSelf.
  destruct (Z.leb_spec 128 (byteval c)) as [Hge | Hlt]; [reflexivity |].
  rewrite <- (asciiSpace_IsSpace _ Hlt).
  destruct (IsSpace (byteval c)) eqn:Hsp.
  - by rewrite TrimLeftFunc_cons_space.
  - rewrite TrimLeftFunc_nonspace; [| done | by rewrite Decode_ascii].
    rewrite TrimSpace_stop_eq by done. by rewrite firstn_all.
Qed.

Lemma TrimRightFunc_prefix u : ∃ j, R u = take j u ∧ (R u = [] ∨ 0 < j)%nat.
Proof.
  destruct (lastIndexFunc_spec u) as [Hm | (k & r & size & Hk & Hl)].
  - exists 0%nat. rewrite TrimRightFunc_none by done. by rewrite take_0; auto.
  - exists (k + size)%nat. split; [by eapply TrimRightFunc_of_index |].
    right. destruct Hl as (_ & _ & ? & _). lia.
Qed.

Lemma TrimSpace_start_idem u :
  TrimSpace_start (TrimSpace_start u) = TrimSpace_start u.
Proof.
  rewrite !TrimSpace_start_eq.
  assert (HL : L (R (L u)) = R (L u)).
  { destruct (TrimRightFunc_prefix (L u)) as (j & Hj & [Hnil | Hpos]).
    - rewrite Hnil. reflexivity.
    - destruct (TrimLeftFunc_spec u) as [Hnil | [Hne Hsp]].
      + rewrite Hnil. reflexivity.
      + destruct (decide (R (L u) = [])) as [-> | Hne']; [reflexivity |].
        apply TrimLeftFunc_nonspace; [done |]. rewrite Hj.
        by apply Decode_take_nonspace. }
  rewrite HL. apply TrimRightFunc_idem.
Qed.

Lemma TrimSpace_idem s : TrimSpace (TrimSpace s) = TrimSpace s.
Proof.
  unfold TrimSpace, bytes, str.
  rewrite list_ascii_of_string_of_list_ascii. by rewrite TrimSpace_start_idem.
Qed.

(** *** HasPrefix and Index *)

Lemma HasPrefix_spec s p : HasPrefix s p = true ↔ take (length p) s = p.
Proof.
  revert s. induction p as [| a p IH]; intros s; cbn [HasPrefix length].
  - rewrite take_0. by destruct s.
  - destruct s as [| c s]; cbn [take HasPrefix]; [by split |].
    rewrite andb_true_iff, IH, Ascii.eqb_eq. split.
    + by intros [-> ->].
    + intros [= -> Hp]. rewrite Hp. done.
Qed.

Lemma HasPrefix_length s p : HasPrefix s p = true → (length p ≤ length s)%nat.
Proof.
  rewrite HasPrefix_spec. intros H. apply (f_equal length) in H.
  rewrite length_take in H. lia.
Qed.

Lemma HasPrefix_app s p : HasPrefix s p = true → s = p ++ drop (length p) s.
Proof.
  rewrite HasPrefix_spec. intros H. by rewrite <- H at 1; rewrite take_drop.
Qed.

(** [Index_from] finds the first offset at which [substr] starts. *)
Lemma Index_from_spec s substr i :
  (Index_from s substr i = -1 ∧ ∀ j, HasPrefix (drop j s) substr = false) ∨
  ∃ k, Index_from s substr i = Z.of_nat (i + k) ∧
       HasPrefix (drop k s) substr = true ∧
       ∀ j, (j < k)%nat → HasPrefix (drop j s) substr = false.
Proof.
  revert i. induction s as [| c s IH]; intros i; cbn [Index_from].
  - destruct (HasPrefix [] substr) eqn:E.
    + right. exists 0%nat. rewrite Nat.add_0_r.
      split; [done |]. split; [done |]. intros j Hj. lia.
    + left. split; [done |]. intros j. by rewrite drop_nil.
  - destruct (HasPrefix (c :: s) substr) eqn:E.
    + right. exists 0%nat. rewrite Nat.add_0_r.
      split; [done |]. split; [done |]. intros j Hj. lia.
    + destruct (IH (S i)) as [[Hm Hno] | (k & Hk & Hp & Hno)].
      * left. split; [done |]. intros [| j]; [done | apply Hno].
      * right. exists (S k). split; [rewrite Hk; f_equal; lia |].
        split; [done |]. intros [| j] Hj; [done |]. apply Hno. lia.
Qed.

Lemma Index_spec s substr :
  (Index s substr = -1 ∧ ∀ j, HasPrefix (drop j s) substr = false) ∨
  ∃ k, Index s substr = Z.of_nat k ∧
       HasPrefix (drop k s) substr = true ∧
       ∀ j, (j < k)%nat → HasPrefix (drop j s) substr = false.
Proof. apply (Index_from_spec s substr 0). Qed.

(** *** replace_every *)

Section Replace.
Variables old new : list ascii.
Hypothesis old_nonempty : old ≠ [].

Lemma replace_every_skip k s :
  replace_every old new k s = replace_every old new 0 (drop k s).
Proof.
  revert k. induction s as [| c s IH]; intros k.
  - by rewrite drop_nil.
  - destruct k as [| k]; [done |]. cbn [replace_every drop]. apply IH.
Qed.

Lemma replace_every_match s :
  HasPrefix s old = true →
  replace_every old new 0 s =
  new ++ replace_every old new 0 (drop (length old) s).
Proof.
  intros H. destruct s as [| c s].
  - destruct old; [done | discriminate].
  - cbn [replace_every]. rewrite H. rewrite replace_every_skip.
    assert (Hl : length old = S (length old - 1)).
    { destruct old; [done | cbn; lia]. }
    rewrite Hl at 2. done.
Qed.

Lemma replace_every_copy k s :
  (∀ j, (j < k)%nat → HasPrefix (drop j s) old = false) →
  replace_every old new 0 s =
  take k s ++ replace_every old new 0 (drop k s).
Proof.
  revert s. induction k as [| k IH]; intros s Hno; [done |].
  destruct s as [| c s]; [done |].
  cbn [replace_every take drop app].
  pose proof (Hno 0%nat ltac:(lia)) as H0. cbn [drop] in H0.
  rewrite H0. f_equal. apply IH.
  intros j Hj. apply (Hno (S j)). lia.
Qed.

Lemma replace_every_none s :
  (∀ j, HasPrefix (drop j s) old = false) → replace_every old new 0 s = s.
Proof.
  intros Hno. rewrite (replace_every_copy (length s)) by auto.
  by rewrite firstn_all, drop_all, app_nil_r.
Qed.

Lemma replace_every_Index k s :
  Index s old = Z.of_nat k → Index s old ≠ -1 →
  replace_every old new 0 s =
  take k s ++ new ++ replace_every old new 0 (drop (k + length old) s).
Proof.
  intros Hk Hne. destruct (Index_spec s old) as [[Hm _] | (k' & Hk' & Hp & Hno)];
    [done |].
  assert (k' = k) as -> by lia.
  rewrite (replace_every_copy k) by done. f_equal.
  rewrite replace_every_match by done. by rewrite drop_drop.
Qed.

(** *** Count and Replace *)

Lemma Count_loop_acc fuel s n :
  Count_loop fuel s old n = n + Count_loop fuel s old 0.
Proof.
  revert s n. induction fuel as [| fuel IH]; intros s n; cbn [Count_loop]; [lia |].
  destruct (Index s old =? -1); [lia |].
  rewrite (IH _ (n + 1)), (IH _ (0 + 1)). lia.
Qed.

Lemma Count_loop_nonneg fuel s : 0 <= Count_loop fuel s old 0.
Proof.
  revert s. induction fuel as [| fuel IH]; intros s; cbn [Count_loop]; [lia |].
  destruct (Index s old =? -1); [lia |].
  rewrite Count_loop_acc. specialize (IH (drop (Z.to_nat (Index s old) + length old) s)).
  lia.
Qed.

Lemma Replace_loop_spec fuel s start b i :
  0 <= start →
  (length (drop (Z.to_nat start) s) < fuel)%nat →
  ∃ b' start',
    Replace_loop
      (Z.to_nat (Count_loop fuel (drop (Z.to_nat start) s) old 0))
      i s old new start b = (b', start') ∧
    b' ++ drop (Z.to_nat start') s =
    b ++ replace_every old new 0 (drop (Z.to_nat start) s).
Proof.
  revert start b i. induction fuel as [| fuel IH]; intros start b i Hstart Hfuel;
    [lia |].
  set (t := drop (Z.to_nat start) s) in *.
  cbn [Count_loop].
  destruct (Index_spec t old) as [[Hm Hno] | (k & Hk & Hp & Hno)].
  - rewrite Hm. cbn. exists b, start. split; [done |].
    by rewrite replace_every_none.
  - rewrite Hk. destruct (Z.eqb_spec (Z.of_nat k) (-1)); [lia |].
    rewrite Nat2Z.id, Count_loop_acc.
    pose proof (Count_loop_nonneg fuel (drop (k + length old) t)) as Hnn.
    pose proof (HasPrefix_length _ _ Hp) as Hlen. rewrite length_drop in Hlen.
    assert (0 < length old)%nat by (destruct old; [done | cbn; lia]).
    replace (Z.to_nat (0 + 1 + Count_loop fuel (drop (k + length old) t) old 0))
      with (S (Z.to_nat (Count_loop fuel (drop (k + length old) t) old 0))) by lia.
    cbn [Replace_loop].
    destruct (Nat.eqb_spec (length old) 0) as [? | _]; [lia |].
    fold t. rewrite Hk.
    replace (Z.to_nat (start + Z.of_nat k - start)) with k by lia.
    assert (Ht' : drop (Z.to_nat (start + Z.of_nat k + Z.of_nat (length old))) s
                  = drop (k + length old) t).
    { unfold t. rewrite drop_drop. f_equal. lia. }
    destruct (IH (start + Z.of_nat k + Z.of_nat (length old))
                ((b ++ take k t) ++ new) (i + 1))
      as (b' & start' & Hloop & Heq).
    { lia. }
    { rewrite Ht', length_drop. lia. }
    rewrite Ht' in Hloop, Heq.
    exists b', start'. split; [exact Hloop |]. rewrite Heq.
    rewrite (replace_every_Index k t) by (rewrite ?Hk; lia).
    by rewrite <- !app_assoc.
Qed.

End Replace.

Lemma replace_every_same old s :
  old ≠ [] → replace_every old old 0 s = s.
Proof.
  intros Hold. remember (length s) as n eqn:Hn. revert s Hn.
  induction n as [n IH] using lt_wf_ind. intros s ->.
  destruct (Index_spec s old) as [[Hm Hno] | (k & Hk & Hp & Hno)].
  - by apply replace_every_none.
  - rewrite (replace_every_Index old old Hold k s) by (rewrite ?Hk; lia).
    pose proof (HasPrefix_length _ _ Hp) as Hlen. rewrite length_drop in Hlen.
    assert (0 < length old)%nat by (destruct old; [done | cbn; lia]).
    rewrite (IH (length (drop (k + length old) s))); [| | done].
    + rewrite <- (take_drop k s) at 3. f_equal.
      rewrite (HasPrefix_app _ _ Hp) at 1. by rewrite drop_drop.
    + rewrite length_drop. lia.
Qed.

Lemma Replace_replace_every s old new :
  old ≠ [] → Replace s old new (-1) = replace_every old new 0 s.
Proof.
  intros Hold. unfold Replace. case_bool_decide as Heq.
  - subst new. cbn [orb]. by rewrite replace_every_same.
  - cbn [orb]. change (-1 =? 0) with false. cbv iota.
    unfold Count.
    destruct (Nat.eqb_spec (length old) 0) as [Hl | _].
    { destruct old; [done | discriminate]. }
    destruct (Replace_loop_spec old new Hold (S (length s)) s 0 [] 0)
      as (b' & start' & Hloop & Heqn); [lia | rewrite length_drop; lia |].
    change (drop (Z.to_nat 0) s) with s in Hloop, Heqn.
    cbn [app] in Heqn.
    destruct (Z.eqb_spec (Count_loop (S (length s)) s old 0) 0) as [Hz | Hnz].
    + rewrite Hz in Hloop. change (Z.to_nat 0) with 0%nat in Hloop.
      cbn [Replace_loop] in Hloop. injection Hloop as <- <-.
      exact Heqn.
    + change (-1 <? 0) with true. cbn [orb]. cbv iota.
      rewrite Hloop. exact Heqn.
Qed.

Lemma str_bytes s : str (bytes s) = s.
Proof. apply string_of_list_ascii_of_string. Qed.

Lemma ReplaceAll_replace_every s old new :
  old ≠ "" →
  ReplaceAll s old new = str (replace_every (bytes old) (bytes new) 0 (bytes s)).
Proof.
  intros Hold. unfold ReplaceAll. rewrite Replace_replace_every; [done |].
  intros Hnil. apply Hold. rewrite <- (str_bytes old), Hnil. done.
Qed.

Lemma ReplaceAll_no_occurrence s old new :
  old ≠ "" → (∀ i, ¬ occurs_at (bytes old) (bytes s) i) →
  ReplaceAll s old new = s.
Proof.
  intros Hold Hno. rewrite ReplaceAll_replace_every by done.
  rewrite replace_every_none; [apply str_bytes |].
  intros j. destruct (HasPrefix (drop j (bytes s)) (bytes old)) eqn:E; [| done].
    apply HasPrefix_spec in E. by destruct (Hno j).
Qed.

End GoStringsFacts.

(** *** filepath.Dir *)

Lemma Dir_scan_no_separator p n :
  (∀ c, c ∈ p → IsPathSeparator c = false) → Dir_scan p n = 0.
Proof.
  intros Hno. induction n as [| n IH]; [done |]. cbn [Dir_scan].
  destruct (decide (n < length p)) as [Hlt | Hge].
  - rewrite Hno; [done |]. apply list_elem_of_In, nth_In. lia.
  - rewrite nth_overflow by lia. done.
Qed.

(** A path without a separator has the directory ["."]. *)
Lemma Dir_no_separator pkg :
  (∀ c, c ∈ bytes pkg → IsPathSeparator c = false) → Dir pkg = ".".
Proof.
  intros Hno. unfold Dir. by rewrite Dir_scan_no_separator.
Qed.

(** *** The library functions on sample inputs *)

Example TrimSpace_samples :
  TrimSpace "  x  " = "x" ∧ TrimSpace " x " = "x" ∧ TrimSpace "" = "" ∧
  TrimSpace "left pad" = "left pad" ∧
  TrimSpace (str [ascii_of_nat 0xC2; ascii_of_nat 0xA0; "x"%char;
                  ascii_of_nat 0xE3; ascii_of_nat 0x80; ascii_of_nat 0x80])
  = "x".
Proof. repeat split; reflexivity. Qed.

Example ReplaceAll_samples :
  ReplaceAll "$package_name$_lib" "$package_name$" "foo" = "foo_lib" ∧
  ReplaceAll "a_$package_name$_$package_name$" "$package_name$" "x" = "a_x_x" ∧
  ReplaceAll "$package_name$package_name$" "$package_name$" "x"
  = "xpackage_name$" ∧
  ReplaceAll "lib" "$package_name$" "x" = "lib".
Proof. repeat split; reflexivity. Qed.

Example Dir_samples :
  Dir "" = "." ∧ Dir "a" = "." ∧ Dir "a/b" = "a" ∧ Dir "a/b/c" = "a/b" ∧
  Dir "/a" = "/" ∧ Dir "a/../b" = "." ∧ Dir "a//b/c" = "a/b".
Proof. repeat split; reflexivity. Qed.

(** ** The heap order *)

Lemma heap_le_refl h : heap_le h h.
Proof. split; eauto 10. Qed.

Lemma heap_le_trans h1 h2 h3 : heap_le h1 h2 → heap_le h2 h3 → heap_le h1 h3.
Proof.
  intros [C1 M1 L1] [C2 M2 L2]. split.
  - intros c cfg Hc. destruct (C1 _ _ Hc) as (cfg' & Hc' & ? & ? & ?).
    destruct (C2 _ _ Hc') as (cfg'' & Hc'' & ? & ? & ?).
    exists cfg''. repeat split; congruence.
  - intros m ks Hm. destruct (M1 _ _ Hm) as (ks' & Hm' & ?).
    destruct (M2 _ _ Hm') as (ks'' & Hm'' & ?).
    exists ks''. split; [done | set_solver].
  - intros l vs Hl. destruct (L1 _ _ Hl) as (vs' & Hl' & ?).
    destruct (L2 _ _ Hl') as (vs'' & Hl'' & ?).
    exists vs''. split; [done | by etrans].
Qed.

(** Storing a config with the same references keeps the heap order. *)
Lemma heap_le_store h c cfg cfg' :
  configs h !! c = Some cfg →
  parent cfg' = parent cfg →
  excludedPatterns cfg' = excludedPatterns cfg →
  ignoreDependencies cfg' = ignoreDependencies cfg →
  heap_le h (mkHeap (<[c := cfg']> (configs h)) (lists h) (maps h)).
Proof.
  intros Hc Hp He Hi. split; simpl; eauto.
  intros c0 cfg0 Hc0. destruct (decide (c0 = c)) as [-> | Hne].
  - exists cfg'. rewrite list_lookup_insert_eq by (by eapply lookup_lt_Some).
    split; [done |]. simplify_eq. done.
  - exists cfg0. rewrite list_lookup_insert_ne by done. done.
Qed.

Lemma wf_store h c cfg cfg' :
  wf h →
  configs h !! c = Some cfg →
  parent cfg' = parent cfg →
  excludedPatterns cfg' = excludedPatterns cfg →
  ignoreDependencies cfg' = ignoreDependencies cfg →
  wf (mkHeap (<[c := cfg']> (configs h)) (lists h) (maps h)).
Proof.
  intros [Hm Hp He Hi] Hc Ep Ee Ei.
  assert (Hlook : ∀ c0 cfg0,
    <[c := cfg']> (configs h) !! c0 = Some cfg0 →
    ∃ cfg1, configs h !! c0 = Some cfg1 ∧ parent cfg0 = parent cfg1 ∧
            excludedPatterns cfg0 = excludedPatterns cfg1 ∧
            ignoreDependencies cfg0 = ignoreDependencies cfg1).
  { intros c0 cfg0 H0. destruct (decide (c0 = c)) as [-> | Hne].
    - rewrite list_lookup_insert_eq in H0 by (by eapply lookup_lt_Some).
      simplify_eq. eauto.
    - rewrite list_lookup_insert_ne in H0 by done. eauto. }
  split; simpl.
  - by rewrite length_insert.
  - intros c0 cfg0 p H0 Hpar. destruct (Hlook _ _ H0) as (cfg1 & H1 & E1 & _).
    eapply Hp; [done | congruence].
  - intros c0 cfg0 H0. destruct (Hlook _ _ H0) as (cfg1 & H1 & _ & E1 & _).
    rewrite E1. eauto.
  - intros c0 cfg0 H0. destruct (Hlook _ _ H0) as (cfg1 & H1 & _ & _ & E1).
    rewrite E1. eauto.
Qed.

(** ** Each method keeps the invariant and only moves the heap forward *)

Lemma New_spec repoRoot h :
  ∃ cfg,
    New repoRoot h =
      Some (length (configs h),
            mkHeap (configs h ++ [cfg]) (lists h ++ [[]]) (maps h ++ [∅])) ∧
    cfg = mkConfig None true repoRoot EnvironmentOther
            (Some (length (lists h))) (Some (length (maps h))) true
            packageNameNamingConventionSubstitution
            (Sprintf "%s_test" packageNameNamingConventionSubstitution).
Proof. eexists. split; reflexivity. Qed.

Lemma NewChild_spec c cfg h :
  configs h !! c = Some cfg →
  NewChild c h =
    Some (length (configs h),
          mkHeap (configs h ++
                    [mkConfig (Some c) (generationEnabled cfg) (repoRoot cfg)
                       (environmentType cfg) (excludedPatterns cfg)
                       (Some (length (maps h))) (validateImportStatements cfg)
                       (libraryNamingConvention cfg) (testNamingConvention cfg)])
                 (lists h) (maps h ++ [∅])).
Proof. intros Hc. unfold_M. by rewrite Hc. Qed.

Lemma NewChild_node c h r : NewChild c h = Some r → node h c.
Proof. unfold node. run_M. Qed.

(** Allocation of a config, with or without a list, and of its map. *)
Lemma wf_alloc h cfg ls :
  wf h →
  (∀ p, parent cfg = Some p → p < length (configs h)) →
  (∃ l, excludedPatterns cfg = Some l ∧ l < length (lists h ++ ls)) →
  ignoreDependencies cfg = Some (length (maps h)) →
  wf (mkHeap (configs h ++ [cfg]) (lists h ++ ls) (maps h ++ [∅])).
Proof.
  intros [Hm Hp He Hi] Hpar Hex Hig. split; simpl.
  - rewrite !length_app. simpl. lia.
  - intros c0 cfg0 p H0 Hp0. apply lookup_app_Some in H0 as [H0 | [Hlen H0]].
    + eauto.
    + apply list_lookup_singleton_Some in H0 as [? ->].
      apply Hpar in Hp0. lia.
  - intros c0 cfg0 H0. apply lookup_app_Some in H0 as [H0 | [Hlen H0]].
    + destruct (He _ _ H0) as (l & ? & ?). exists l. split; [done |].
      rewrite length_app. lia.
    + apply list_lookup_singleton_Some in H0 as [? ->]. done.
  - intros c0 cfg0 H0. apply lookup_app_Some in H0 as [H0 | [Hlen H0]].
    + eauto.
    + apply list_lookup_singleton_Some in H0 as [? ->].
      rewrite Hig. f_equal. lia.
Qed.

Lemma heap_le_alloc h cfgs ls ms :
  heap_le h (mkHeap (configs h ++ cfgs) (lists h ++ ls) (maps h ++ ms)).
Proof.
  split; simpl.
  - intros c cfg Hc. exists cfg. split; [by apply lookup_app_l_Some | done].
  - intros m ks Hm. exists ks. split; [by apply lookup_app_l_Some | done].
  - intros l vs Hl. exists vs. split; [by apply lookup_app_l_Some | done].
Qed.

Lemma New_wf repoRoot h c h' :
  wf h → New repoRoot h = Some (c, h') → wf h' ∧ heap_le h h'.
Proof.
  intros Hwf H. destruct (New_spec repoRoot h) as (cfg & E & ->).
  rewrite E in H. simplify_eq. split; [| apply heap_le_alloc].
  apply wf_alloc; simpl; try done.
  eexists. split; [done |]. rewrite length_app. simpl. lia.
Qed.

Lemma NewChild_wf c0 h c h' :
  wf h → NewChild c0 h = Some (c, h') → wf h' ∧ heap_le h h'.
Proof.
  intros Hwf H. destruct (NewChild_node _ _ _ H) as [cfg Hc].
  rewrite (NewChild_spec _ _ _ Hc) in H. simplify_eq. split.
  - rewrite <- (app_nil_r (lists h)). apply wf_alloc; simpl; try done.
    + intros p [= <-]. by eapply lookup_lt_Some.
    + rewrite app_nil_r. by eapply wf_excluded.
  - rewrite <- (app_nil_r (lists h)). apply heap_le_alloc.
Qed.

Lemma AddExcludedPattern_inv c pattern h u h' :
  AddExcludedPattern c pattern h = Some (u, h') →
  ∃ cfg l vs,
    configs h !! c = Some cfg ∧ excludedPatterns cfg = Some l ∧
    lists h !! l = Some vs ∧
    h' = mkHeap (configs h) (<[l := vs ++ [pattern]]> (lists h)) (maps h).
Proof. intros H. run_M. eauto 10. Qed.

Lemma AddIgnoreDependency_inv c dep h u h' :
  AddIgnoreDependency c dep h = Some (u, h') →
  ∃ cfg m ks,
    configs h !! c = Some cfg ∧ ignoreDependencies cfg = Some m ∧
    maps h !! m = Some ks ∧
    h' = mkHeap (configs h) (lists h) (<[m := {[TrimSpace dep]} ∪ ks]> (maps h)).
Proof. intros H. run_M. eauto 10. Qed.

Lemma AddExcludedPattern_wf c pattern h u h' :
  wf h → AddExcludedPattern c pattern h = Some (u, h') → wf h' ∧ heap_le h h'.
Proof.
  intros [Hm Hp He Hi] H.
  apply AddExcludedPattern_inv in H as (cfg & l & vs & Hc & Hl & Hvs & ->).
  split.
  - split; cbn [configs lists maps]; eauto. intros c0 cfg0 H0. rewrite length_insert. eauto.
  - split; cbn [configs lists maps]; eauto.
    intros l0 vs0 Hl0. destruct (decide (l0 = l)) as [-> | Hne].
    + rewrite list_lookup_insert_eq by (by eapply lookup_lt_Some).
      assert (vs0 = vs) as -> by congruence.
      eexists. split; [done |]. by exists [pattern].
    + rewrite list_lookup_insert_ne by done. eauto.
Qed.

Lemma AddIgnoreDependency_wf c dep h u h' :
  wf h → AddIgnoreDependency c dep h = Some (u, h') → wf h' ∧ heap_le h h'.
Proof.
  intros [Hm Hp He Hi] H.
  apply AddIgnoreDependency_inv in H as (cfg & m & ks & Hc & Hig & Hks & ->).
  split.
  - split; cbn [configs lists maps]; eauto. by rewrite length_insert.
  - split; cbn [configs lists maps]; eauto.
    intros m0 ks0 Hk. destruct (decide (m0 = m)) as [-> | Hne].
    + rewrite list_lookup_insert_eq by (by eapply lookup_lt_Some).
      assert (ks0 = ks) as -> by congruence.
      eexists. split; [done |]. set_solver.
    + rewrite list_lookup_insert_ne by done. eauto.
Qed.

Lemma run_setter_spec s c cfg h :
  configs h !! c = Some cfg →
  ∃ cfg', run_setter s c h =
            Some (tt, mkHeap (<[c := cfg']> (configs h)) (lists h) (maps h)) ∧
          parent cfg' = parent cfg ∧
          excludedPatterns cfg' = excludedPatterns cfg ∧
          ignoreDependencies cfg' = ignoreDependencies cfg.
Proof.
  intros Hc.
  destruct s; cbn [run_setter];
    unfold SetGenerationEnabled, SetValidateImportStatements,
      SetEnvironmentType, SetLibraryNamingConvention,
      SetTestNamingConvention, bind, load, store;
    rewrite Hc; cbn beta iota; rewrite Hc; eexists;
    (split; [reflexivity | done]).
Qed.

Lemma run_setter_wf s c h u h' :
  wf h → run_setter s c h = Some (u, h') → wf h' ∧ heap_le h h'.
Proof.
  intros Hwf H. destruct s; simpl in H; run_M;
    (split; [eapply wf_store | eapply heap_le_store]; eauto).
Qed.

Lemma run_call_wf k h u h' :
  wf h → run_call k h = Some (u, h') → wf h' ∧ heap_le h h'.
Proof.
  intros Hwf H.
  destruct k as [rr | c | c pat | c en | c dep | c v | c e | c s | c s];
    simpl in H.
  - unfold bind in H. destruct (New rr h) as [[c h1] |] eqn:E; [| done].
    unfold ret in H. simplify_eq. by eapply New_wf.
  - unfold bind in H. destruct (NewChild c h) as [[c1 h1] |] eqn:E; [| done].
    unfold ret in H. simplify_eq. by eapply NewChild_wf.
  - by eapply AddExcludedPattern_wf.
  - by eapply (run_setter_wf (SetGen en)).
  - by eapply AddIgnoreDependency_wf.
  - by eapply (run_setter_wf (SetValidate v)).
  - by eapply (run_setter_wf (SetEnv e)).
  - by eapply (run_setter_wf (SetLibrary s)).
  - by eapply (run_setter_wf (SetTest s)).
Qed.

Lemma run_calls_wf ks h u h' :
  wf h → run_calls ks h = Some (u, h') → wf h' ∧ heap_le h h'.
Proof.
  revert h. induction ks as [| k ks IH]; intros h Hwf H; simpl in H.
  - unfold ret in H. simplify_eq. split; [done | apply heap_le_refl].
  - unfold bind in H. destruct (run_call k h) as [[[] h1] |] eqn:E; [| done].
    destruct (run_call_wf _ _ _ _ Hwf E) as [Hwf1 Hle1].
    destruct (IH _ Hwf1 H) as [Hwf' Hle']. split; [done |].
    by eapply heap_le_trans.
Qed.

Lemma wf_empty : wf empty_heap.
Proof. split; simpl; try done; intros c cfg; by rewrite lookup_nil. Qed.

Lemma reachable_wf h : reachable h → wf h.
Proof. intros [ks H]. by eapply run_calls_wf, H; apply wf_empty. Qed.

Lemma reachable_run_calls ks h u h' :
  reachable h → run_calls ks h = Some (u, h') → reachable h'.
Proof.
  intros [ks0 H0] H. exists (ks0 ++ ks). destruct u.
  revert H0. generalize empty_heap. induction ks0 as [| k ks0 IH]; intros h0 H0; simpl in *.
  - unfold ret in H0. by simplify_eq.
  - unfold bind in *. destruct (run_call k h0) as [[[] h1] |]; [| done]. eauto.
Qed.

(** ** The ancestor walk of [IgnoresDependency] *)

Lemma ancestor_or_self_le h c a : wf h → ancestor_or_self h c a → a ≤ c.
Proof.
  intros Hwf. induction 1 as [c Hn | c cfg p a Hc Hp _ IH]; [done |].
  pose proof (wf_parent h Hwf _ _ _ Hc Hp). lia.
Qed.

Lemma ancestor_or_self_node h c a : ancestor_or_self h c a → node h c ∧ node h a.
Proof.
  induction 1 as [c Hn | c cfg p a Hc Hp _ [_ IH]]; [done |].
  split; [by exists cfg | done].
Qed.

Lemma descendant_lt h b a : wf h → descendant h b a → a < b.
Proof.
  intros Hwf (cfg & p & Hc & Hp & Haos).
  pose proof (wf_parent h Hwf _ _ _ Hc Hp).
  pose proof (ancestor_or_self_le _ _ _ Hwf Haos). lia.
Qed.

Lemma wf_map_lookup h c cfg :
  wf h → configs h !! c = Some cfg →
  ignoreDependencies cfg = Some c ∧ ∃ ks, maps h !! c = Some ks.
Proof.
  intros Hwf Hc. split; [by eapply wf_ignore |].
  apply lookup_lt_is_Some. rewrite (wf_maps h Hwf). by eapply lookup_lt_Some.
Qed.

Lemma locally_ignored_wf h c cfg ks key :
  wf h → configs h !! c = Some cfg → maps h !! c = Some ks →
  locally_ignored h c key ↔ key ∈ ks.
Proof.
  intros Hwf Hc Hks. split.
  - intros (cfg' & m & ks' & Hc' & Hm & Hks' & Hin).
    pose proof (wf_ignore h Hwf _ _ Hc'). by simplify_eq.
  - intros Hin. exists cfg, c, ks. repeat split; try done. by eapply wf_ignore.
Qed.

(** The loop, started at a pointer below [fuel], returns whether the key is
    ignored at the config pointed to or above it. *)
Lemma IgnoresDependency_loop_spec h key fuel p :
  wf h →
  (∀ q, p = Some q → q < fuel ∧ node h q) →
  ∃ b, IgnoresDependency_loop fuel p key h = Some (b, h) ∧
       (b = true ↔ ∃ q, p = Some q ∧ ignored h q key).
Proof.
  intros Hwf. revert p. induction fuel as [| fuel IH]; intros p Hp.
  - destruct p as [q |]; [destruct (Hp q eq_refl); lia |].
    exists false. split; [done |]. split; [done | by intros (? & ? & _)].
  - destruct p as [q |]; simpl.
    2: { exists false. split; [done |]. split; [done | by intros (? & ? & _)]. }
    destruct (Hp q eq_refl) as [Hlt [cfg Hc]].
    destruct (wf_map_lookup _ _ _ Hwf Hc) as [Hig [ks Hks]].
    unfold bind, load, map_lookup. rewrite Hc, Hig, Hks.
    destruct (bool_decide (key ∈ ks)) eqn:Hin.
    + apply bool_decide_eq_true in Hin. exists true. split; [done |].
      split; [intros _ | done]. exists q. split; [done |]. exists q.
      split; [apply aos_self; by exists cfg |].
      by apply (locally_ignored_wf _ _ _ _ _ Hwf Hc Hks).
    + apply bool_decide_eq_false in Hin.
      destruct (IH (parent cfg)) as (b & Hb & Hiff).
      { intros q' Hq'. pose proof (wf_parent h Hwf _ _ _ Hc Hq').
        split; [lia |]. apply lookup_lt_is_Some.
        apply lookup_lt_Some in Hc. lia. }
      exists b. split; [done |]. rewrite Hiff. split.
      * intros (q' & Hq' & a & Haos & Hli). exists q. split; [done |].
        exists a. split; [| done]. by eapply aos_step.
      * intros (q0 & [= <-] & a & Haos & Hli).
        inversion Haos as [c0 Hn | c0 cfg0 p0 a0 Hc0 Hp0 Haos0]; subst.
        -- by apply (locally_ignored_wf _ _ _ _ _ Hwf Hc Hks) in Hli.
        -- assert (cfg0 = cfg) as -> by congruence.
           exists p0. split; [done |]. by exists a.
Qed.

Lemma IgnoresDependency_fuel_spec h fuel c dep :
  wf h → node h c → c ≤ fuel →
  ∃ b, IgnoresDependency_fuel fuel c dep h = Some (b, h) ∧
       (b = true ↔ ignored h c (TrimSpace dep)).
Proof.
  intros Hwf [cfg Hc] Hfuel.
  destruct (wf_map_lookup _ _ _ Hwf Hc) as [Hig [ks Hks]].
  unfold IgnoresDependency_fuel, bind, load, map_lookup.
  rewrite Hc, Hig, Hks.
  destruct (bool_decide (TrimSpace dep ∈ ks)) eqn:Hin.
  - apply bool_decide_eq_true in Hin. exists true. split; [done |].
    split; [intros _ | done]. exists c.
    split; [apply aos_self; by exists cfg |].
    by apply (locally_ignored_wf _ _ _ _ _ Hwf Hc Hks).
  - apply bool_decide_eq_false in Hin.
    destruct (IgnoresDependency_loop_spec h (TrimSpace dep) fuel (parent cfg) Hwf)
      as (b & Hb & Hiff).
    { intros q' Hq'. pose proof (wf_parent h Hwf _ _ _ Hc Hq').
      split; [lia |]. apply lookup_lt_is_Some.
      apply lookup_lt_Some in Hc. lia. }
    exists b. split; [done |]. rewrite Hiff. split.
    + intros (q' & Hq' & a & Haos & Hli).
      exists a. split; [| done]. by eapply aos_step.
    + intros (a & Haos & Hli).
      inversion Haos as [c0 Hn | c0 cfg0 p0 a0 Hc0 Hp0 Haos0]; subst.
      * by apply (locally_ignored_wf _ _ _ _ _ Hwf Hc Hks) in Hli.
      * assert (cfg0 = cfg) as -> by congruence.
        exists p0. split; [done |]. by exists a.
Qed.

(** One iteration for each config of the heap is enough: more fuel gives the
    same answer. *)
Lemma IgnoresDependency_enough h fuel c dep :
  wf h → node h c → length (configs h) ≤ fuel →
  IgnoresDependency_fuel fuel c dep h = IgnoresDependency c dep h.
Proof.
  intros Hwf Hn Hfuel.
  assert (c < length (configs h)) by (by apply lookup_lt_is_Some).
  destruct (IgnoresDependency_fuel_spec h fuel c dep Hwf Hn) as (b & Hb & Hiff);
    [lia |].
  destruct (IgnoresDependency_fuel_spec h (length (configs h)) c dep Hwf Hn)
    as (b' & Hb' & Hiff'); [lia |].
  unfold IgnoresDependency. rewrite Hb, Hb'. do 2 f_equal.
  destruct b, b'; try done.
  - symmetry. apply Hiff'. by apply Hiff.
  - apply Hiff. by apply Hiff'.
Qed.

Lemma IgnoresDependency_spec h c dep :
  wf h → node h c →
  ∃ b, IgnoresDependency c dep h = Some (b, h) ∧
       (b = true ↔ ignored h c (TrimSpace dep)).
Proof.
  intros Hwf Hn. apply IgnoresDependency_fuel_spec; [done.. |].
  apply lookup_lt_is_Some in Hn. lia.
Qed.

Lemma ancestor_or_self_mono h h' c a :
  heap_le h h' → ancestor_or_self h c a → ancestor_or_self h' c a.
Proof.
  intros Hle. induction 1 as [c [cfg Hc] | c cfg p a Hc Hp _ IH].
  - destruct (le_configs _ _ Hle _ _ Hc) as (cfg' & Hc' & _).
    apply aos_self. by exists cfg'.
  - destruct (le_configs _ _ Hle _ _ Hc) as (cfg' & Hc' & Hp' & _).
    apply (aos_step h' c cfg' p a); [done | congruence | done].
Qed.

Lemma locally_ignored_mono h h' c key :
  heap_le h h' → locally_ignored h c key → locally_ignored h' c key.
Proof.
  intros Hle (cfg & m & ks & Hc & Hm & Hks & Hin).
  destruct (le_configs _ _ Hle _ _ Hc) as (cfg' & Hc' & _ & _ & Hm').
  destruct (le_maps _ _ Hle _ _ Hks) as (ks' & Hks' & Hsub).
  exists cfg', m, ks'. repeat split; [done | congruence | done | set_solver].
Qed.

Lemma ignored_mono h h' c key :
  heap_le h h' → ignored h c key → ignored h' c key.
Proof.
  intros Hle (a & Haos & Hli). exists a.
  split; [by eapply ancestor_or_self_mono | by eapply locally_ignored_mono].
Qed.

(** ** Theorems about the ignore sets *)

(** C3. On every heap the package builds and for every node [n] and name [d],
    [IgnoresDependency] returns, without changing the heap and whatever the
    bound on the walk beyond the number of configs, [true] exactly when the
    trimmed name is a key of the map of [n] or of the map of a config reached
    from [n] by following [parent]. *)
Theorem IgnoresDependency_iff_ancestor (h : Heap) (n : loc) (d : string) :
  reachable h → node h n →
  ∃ b : bool,
    IgnoresDependency n d h = Some (b, h) ∧
    (∀ fuel, length (configs h) ≤ fuel →
             IgnoresDependency_fuel fuel n d h = Some (b, h)) ∧
    (b = true ↔
     ∃ a, ancestor_or_self h n a ∧ locally_ignored h a (TrimSpace d)).
Proof.
  intros Hr Hn. pose proof (reachable_wf _ Hr) as Hwf.
  destruct (IgnoresDependency_spec h n d Hwf Hn) as (b & Hb & Hiff).
  exists b. split; [done |]. split; [| done].
  intros fuel Hfuel. by rewrite IgnoresDependency_enough.
Qed.

Lemma IgnoresDependency_iff_ancestor_witness :
  ∃ b : bool,
    IgnoresDependency 2 "left-pad" demo_heap = Some (b, demo_heap) ∧
    (∀ fuel, length (configs demo_heap) ≤ fuel →
             IgnoresDependency_fuel fuel 2 "left-pad" demo_heap
             = Some (b, demo_heap)) ∧
    (b = true ↔
     ∃ a, ancestor_or_self demo_heap 2 a ∧
          locally_ignored demo_heap a (TrimSpace "left-pad")).
Proof.
  apply (IgnoresDependency_iff_ancestor demo_heap 2 "left-pad").
  - exists demo_calls. vm_compute. reflexivity.
  - vm_compute. eexists. reflexivity.
Defined.

(** C2. Ignoring is inherited downwards and never upwards.  On a heap the
    package builds: (1) after [AddIgnoreDependency] of [x] at a node [A], and
    after any further calls of the package, [IgnoresDependency] of [x] is
    [true] at every descendant [B] of [A] in the heap reached, so no call can
    undo it; (2) adding a name at a descendant [B] of [A] leaves every answer
    of [IgnoresDependency] at [A] as it was. *)
Theorem ignore_propagation (h : Heap) (A : loc) :
  reachable h → node h A →
  (∀ x, ∃ h1,
     AddIgnoreDependency A x h = Some (tt, h1) ∧
     ∀ ks h2 B,
       run_calls ks h1 = Some (tt, h2) → descendant h2 B A →
       IgnoresDependency B x h2 = Some (true, h2)) ∧
  (∀ B y, descendant h B A →
     ∃ h', AddIgnoreDependency B y h = Some (tt, h') ∧
           ∀ d b, IgnoresDependency A d h' = Some (b, h') ↔
                  IgnoresDependency A d h = Some (b, h)).
Proof.
  intros Hr [cfgA HA]. pose proof (reachable_wf _ Hr) as Hwf. split.
  - intros x.
    destruct (wf_map_lookup _ _ _ Hwf HA) as [Hig [ks0 Hks0]].
    exists (mkHeap (configs h) (lists h) (<[A := {[TrimSpace x]} ∪ ks0]> (maps h))).
    assert (Hadd : AddIgnoreDependency A x h =
      Some (tt, mkHeap (configs h) (lists h)
                  (<[A := {[TrimSpace x]} ∪ ks0]> (maps h)))).
    { unfold AddIgnoreDependency, bind, load, map_assign.
      by rewrite HA, Hig, Hks0. }
    split; [done |]. intros ks h2 B Hrun Hdesc.
    destruct (AddIgnoreDependency_wf _ _ _ _ _ Hwf Hadd) as [Hwf1 Hle1].
    destruct (run_calls_wf _ _ _ _ Hwf1 Hrun) as [Hwf2 Hle2].
    assert (HnB : node h2 B).
    { destruct Hdesc as (cfg & p & Hc & _). by exists cfg. }
    destruct (IgnoresDependency_spec h2 B x Hwf2 HnB) as (b & Hb & Hiff).
    enough (Htrue : b = true) by (by rewrite <- Htrue).
    apply Hiff. exists A. split.
    + destruct Hdesc as (cfg & p & Hc & Hp & Haos). by eapply aos_step.
    + eapply locally_ignored_mono; [exact Hle2 |].
      exists cfgA, A, ({[TrimSpace x]} ∪ ks0). cbn [configs maps].
      split; [done |]. split; [done |]. split.
      * apply list_lookup_insert_eq. by eapply lookup_lt_Some.
      * apply elem_of_union. left. by apply elem_of_singleton.
  - intros B y Hdesc.
    pose proof (descendant_lt _ _ _ Hwf Hdesc) as Hlt.
    destruct Hdesc as (cfgB & p & HB & _).
    destruct (wf_map_lookup _ _ _ Hwf HB) as [Hig [ks0 Hks0]].
    set (h' := mkHeap (configs h) (lists h) (<[B := {[TrimSpace y]} ∪ ks0]> (maps h))).
    assert (Hadd : AddIgnoreDependency B y h = Some (tt, h')).
    { unfold AddIgnoreDependency, bind, load, map_assign.
      by rewrite HB, Hig, Hks0. }
    exists h'. split; [done |].
    destruct (AddIgnoreDependency_wf _ _ _ _ _ Hwf Hadd) as [Hwf' Hle].
    assert (HnA : node h A) by (by exists cfgA).
    assert (HnA' : node h' A) by (by exists cfgA).
    assert (Haos : ∀ c a, ancestor_or_self h' c a → ancestor_or_self h c a).
    { induction 1 as [c Hn | c cfg q a Hc Hq _ IH].
      - apply aos_self. exact Hn.
      - eapply aos_step; [exact Hc | exact Hq | exact IH]. }
    assert (Hign : ∀ key, ignored h' A key ↔ ignored h A key).
    { intros key. split; [| by apply ignored_mono].
      intros (a & Ha & Hli). exists a. apply Haos in Ha. split; [done |].
      pose proof (ancestor_or_self_le _ _ _ Hwf Ha) as Hle_a.
      destruct Hli as (cfg & m & ks & Hc & Hm & Hks & Hin).
      exists cfg, m, ks. repeat split; try done.
      assert (m = a) as -> by (pose proof (wf_ignore h Hwf _ _ Hc); congruence).
      cbn [maps h'] in Hks. rewrite list_lookup_insert_ne in Hks by lia. done. }
    intros d b.
    destruct (IgnoresDependency_spec h A d Hwf HnA) as (b1 & Hb1 & Hiff1).
    destruct (IgnoresDependency_spec h' A d Hwf' HnA') as (b2 & Hb2 & Hiff2).
    rewrite Hb1, Hb2. rewrite Hign in Hiff2.
    assert (b1 = b2) as ->.
    { destruct b1, b2; try done; [symmetry |]; tauto. }
    split; intros ?; by simplify_eq.
Qed.

Lemma ignore_propagation_witness :
  (∀ x, ∃ h1,
     AddIgnoreDependency 0 x demo_heap = Some (tt, h1) ∧
     ∀ ks h2 B,
       run_calls ks h1 = Some (tt, h2) → descendant h2 B 0 →
       IgnoresDependency B x h2 = Some (true, h2)) ∧
  (∀ B y, descendant demo_heap B 0 →
     ∃ h', AddIgnoreDependency B y demo_heap = Some (tt, h') ∧
           ∀ d b, IgnoresDependency 0 d h' = Some (b, h') ↔
                  IgnoresDependency 0 d demo_heap = Some (b, demo_heap)).
Proof.
  apply (ignore_propagation demo_heap 0).
  - exists demo_calls. vm_compute. reflexivity.
  - vm_compute. eexists. reflexivity.
Defined.

(** ** Theorems about construction and derivation *)

(** C7. [New] returns, on any heap, a fresh root config: generation enabled,
    environment ["other"], a new empty exclusion list, a new empty ignore map,
    validation of import statements enabled, the library template the bare
    placeholder, the test template the placeholder followed by [_test], the
    repository root as given, and no parent. *)
Theorem New_defaults (repoRoot_ : string) (h : Heap) :
  ∃ c h1 cfg l,
    New repoRoot_ h = Some (c, h1) ∧
    configs h !! c = None ∧
    configs h1 !! c = Some cfg ∧
    generationEnabled cfg = true ∧
    environmentType cfg = EnvironmentOther ∧ EnvironmentOther = "other" ∧
    excludedPatterns cfg = Some l ∧ lists h !! l = None ∧
    lists h1 !! l = Some [] ∧
    ignore_set h1 c = Some ∅ ∧
    validateImportStatements cfg = true ∧
    libraryNamingConvention cfg = "$package_name$" ∧
    testNamingConvention cfg = "$package_name$_test" ∧
    repoRoot cfg = repoRoot_ ∧
    parent cfg = None ∧ Parent c h1 = Some (None, h1).
Proof.
  destruct (New_spec repoRoot_ h) as (cfg & E & Hcfg).
  exists (length (configs h)). eexists. exists cfg, (length (lists h)).
  split; [exact E |]. subst cfg.
  unfold ignore_set, Parent, bind, load, ret. cbn [configs lists maps].
  rewrite !lookup_app_r, !Nat.sub_diag by done. cbn.
  rewrite !lookup_ge_None_2 by done.
  rewrite lookup_app_r, Nat.sub_diag by done. done.
Qed.

(** C4. On any heap, for a node [n], [NewChild] returns a fresh address [c]
    whose parent is [n], whose ignore map is new and empty, and whose scalar
    settings equal those of [n]; the copy is by value: a setter run on [n]
    afterwards leaves the config of [c] as it is, and a setter run on [c]
    leaves the config of [n] as it is. *)
Theorem NewChild_postcondition (h : Heap) (n : loc) (cfgn : Config) :
  configs h !! n = Some cfgn →
  ∃ c h1 cfgc m,
    NewChild n h = Some (c, h1) ∧
    c ≠ n ∧ configs h !! c = None ∧
    configs h1 !! n = Some cfgn ∧ configs h1 !! c = Some cfgc ∧
    Parent c h1 = Some (Some n, h1) ∧
    ignoreDependencies cfgc = Some m ∧ maps h !! m = None ∧
    ignore_set h1 c = Some ∅ ∧
    scalars cfgc = scalars cfgn ∧
    (∀ s, ∃ h2, run_setter s n h1 = Some (tt, h2) ∧
                configs h2 !! c = Some cfgc) ∧
    (∀ s, ∃ h2, run_setter s c h1 = Some (tt, h2) ∧
                configs h2 !! n = Some cfgn).
Proof.
  intros Hn. pose proof (lookup_lt_Some _ _ _ Hn) as Hlt.
  set (cfgc := mkConfig (Some n) (generationEnabled cfgn) (repoRoot cfgn)
         (environmentType cfgn) (excludedPatterns cfgn)
         (Some (length (maps h))) (validateImportStatements cfgn)
         (libraryNamingConvention cfgn) (testNamingConvention cfgn)).
  set (h1 := mkHeap (configs h ++ [cfgc]) (lists h) (maps h ++ [∅])).
  exists (length (configs h)), h1, cfgc, (length (maps h)).
  assert (Hc : configs h1 !! length (configs h) = Some cfgc).
  { cbn [h1 configs]. by rewrite lookup_app_r, Nat.sub_diag. }
  assert (Hn1 : configs h1 !! n = Some cfgn).
  { cbn [h1 configs]. by apply lookup_app_l_Some. }
  split; [by apply NewChild_spec |].
  split; [lia |]. split; [by apply lookup_ge_None_2 |].
  split; [done |]. split; [done |].
  split; [unfold Parent, bind, load, ret; by rewrite Hc |].
  split; [done |]. split; [by apply lookup_ge_None_2 |].
  split.
  { unfold ignore_set. rewrite Hc. cbn.
    by rewrite lookup_app_r, Nat.sub_diag. }
  split; [done |]. split.
  - intros s. destruct (run_setter_spec s n cfgn h1 Hn1) as (cfg' & E & _).
    eexists. split; [exact E |]. cbn [configs].
    rewrite list_lookup_insert_ne by lia. exact Hc.
  - intros s.
    destruct (run_setter_spec s (length (configs h)) cfgc h1 Hc) as (cfg' & E & _).
    eexists. split; [exact E |]. cbn [configs].
    rewrite list_lookup_insert_ne by lia. exact Hn1.
Qed.

Lemma NewChild_postcondition_witness :
  ∃ c h1 cfgc m,
    NewChild 1 demo_heap = Some (c, h1) ∧
    c ≠ 1 ∧ configs demo_heap !! c = None ∧
    configs h1 !! 1 =
      Some (mkConfig (Some 0) true "/repo" "other" (Some 0) (Some 1) true
              "$package_name$" "$package_name$_test") ∧
    configs h1 !! c = Some cfgc ∧
    Parent c h1 = Some (Some 1, h1) ∧
    ignoreDependencies cfgc = Some m ∧ maps demo_heap !! m = None ∧
    ignore_set h1 c = Some ∅ ∧
    scalars cfgc =
      scalars (mkConfig (Some 0) true "/repo" "other" (Some 0) (Some 1) true
                 "$package_name$" "$package_name$_test") ∧
    (∀ s, ∃ h2, run_setter s 1 h1 = Some (tt, h2) ∧
                configs h2 !! c = Some cfgc) ∧
    (∀ s, ∃ h2, run_setter s c h1 = Some (tt, h2) ∧
                configs h2 !! 1 =
                  Some (mkConfig (Some 0) true "/repo" "other" (Some 0)
                          (Some 1) true "$package_name$"
                          "$package_name$_test")).
Proof.
  apply (NewChild_postcondition demo_heap 1). vm_compute. reflexivity.
Defined.

(** C9. [FindThirdPartyDependency] returns the empty path and [false] for
    every receiver (nil included) and every module name, as an ordinary
    result, and the heap is the one it was given. *)
Theorem FindThirdPartyDependency_not_found
    (c : option loc) (modName : string) (h : Heap) :
  FindThirdPartyDependency c modName h = Some (("", false), h).
Proof. reflexivity. Qed.

(** ** Theorems about the exclusion list *)

Lemma AddExcludedPattern_spec c cfg l vs pattern h :
  configs h !! c = Some cfg → excludedPatterns cfg = Some l →
  lists h !! l = Some vs →
  AddExcludedPattern c pattern h =
    Some (tt, mkHeap (configs h) (<[l := vs ++ [pattern]]> (lists h)) (maps h)).
Proof.
  intros Hc Hl Hvs. unfold AddExcludedPattern, bind, load, singlylinkedlist_Add.
  by rewrite Hc, Hl, Hvs.
Qed.

Lemma ExcludedPatterns_Values_spec c cfg l vs h :
  configs h !! c = Some cfg → excludedPatterns cfg = Some l →
  lists h !! l = Some vs →
  (do l' <- ExcludedPatterns c; singlylinkedlist_Values l') h = Some (vs, h).
Proof.
  intros Hc Hl Hvs.
  unfold ExcludedPatterns, bind, load, ret, singlylinkedlist_Values.
  by rewrite Hc, Hl, Hvs.
Qed.

(** C1. On a heap the package builds, let [c] be the child [NewChild] returns
    for a node [p].  Then, after any further calls of the package,
    [ExcludedPatterns] returns the same list pointer for [c] and for [p], and
    a pattern added through either of them is the last element of the values
    read through the other. *)
Theorem excluded_patterns_shared (h : Heap) (p : loc) :
  reachable h → node h p →
  ∃ c h1,
    NewChild p h = Some (c, h1) ∧
    ∀ ks h2, run_calls ks h1 = Some (tt, h2) →
      ∃ l vs,
        ExcludedPatterns c h2 = Some (Some l, h2) ∧
        ExcludedPatterns p h2 = Some (Some l, h2) ∧
        lists h2 !! l = Some vs ∧
        ∀ g,
          (∃ h3, AddExcludedPattern c g h2 = Some (tt, h3) ∧
                 (do l' <- ExcludedPatterns p; singlylinkedlist_Values l') h3
                 = Some (vs ++ [g], h3)) ∧
          (∃ h3, AddExcludedPattern p g h2 = Some (tt, h3) ∧
                 (do l' <- ExcludedPatterns c; singlylinkedlist_Values l') h3
                 = Some (vs ++ [g], h3)).
Proof.
  intros Hr [cfgp Hp]. pose proof (reachable_wf _ Hr) as Hwf.
  pose proof (NewChild_spec _ _ _ Hp) as E.
  destruct (NewChild_wf _ _ _ _ Hwf E) as [Hwf1 Hle1].
  eexists. eexists. split; [exact E |].
  intros ks h2 Hrun.
  destruct (run_calls_wf _ _ _ _ Hwf1 Hrun) as [Hwf2 Hle2].
  destruct (wf_excluded h Hwf _ _ Hp) as (l & Hl & _).
  (* the two configs in the heap reached *)
  destruct (le_configs _ _ Hle2 p cfgp) as (cfgp2 & Hp2 & _ & Hlp2 & _).
  { cbn [configs]. by apply lookup_app_l_Some. }
  edestruct (le_configs _ _ Hle2 (length (configs h)))
    as (cfgc2 & Hc2 & _ & Hlc2 & _).
  { cbn [configs]. by rewrite lookup_app_r, Nat.sub_diag. }
  cbn [excludedPatterns] in Hlc2. rewrite Hl in Hlp2, Hlc2.
  destruct (wf_excluded h2 Hwf2 _ _ Hp2) as (l' & Hl' & Hlt).
  assert (l' = l) as -> by congruence.
  apply lookup_lt_is_Some in Hlt as [vs Hvs].
  exists l, vs.
  split; [unfold ExcludedPatterns, bind, load, ret; by rewrite Hc2, Hlc2 |].
  split; [unfold ExcludedPatterns, bind, load, ret; by rewrite Hp2, Hlp2 |].
  split; [done |]. intros g.
  assert (Hnew : <[l := vs ++ [g]]> (lists h2) !! l = Some (vs ++ [g])).
  { apply list_lookup_insert_eq. by eapply lookup_lt_Some. }
  split; eexists.
  - split; [by eapply AddExcludedPattern_spec |].
    by eapply ExcludedPatterns_Values_spec.
  - split; [by eapply AddExcludedPattern_spec |].
    by eapply ExcludedPatterns_Values_spec.
Qed.

Lemma excluded_patterns_shared_witness :
  ∃ c h1,
    NewChild 0 demo_heap = Some (c, h1) ∧
    ∀ ks h2, run_calls ks h1 = Some (tt, h2) →
      ∃ l vs,
        ExcludedPatterns c h2 = Some (Some l, h2) ∧
        ExcludedPatterns 0 h2 = Some (Some l, h2) ∧
        lists h2 !! l = Some vs ∧
        ∀ g,
          (∃ h3, AddExcludedPattern c g h2 = Some (tt, h3) ∧
                 (do l' <- ExcludedPatterns 0; singlylinkedlist_Values l') h3
                 = Some (vs ++ [g], h3)) ∧
          (∃ h3, AddExcludedPattern 0 g h2 = Some (tt, h3) ∧
                 (do l' <- ExcludedPatterns c; singlylinkedlist_Values l') h3
                 = Some (vs ++ [g], h3)).
Proof.
  apply (excluded_patterns_shared demo_heap 0).
  - exists demo_calls. vm_compute. reflexivity.
  - vm_compute. eexists. reflexivity.
Defined.

(** ** Derivation leaves the existing tree as it is *)

Section Alloc.
Variables (h : Heap) (cfgs : list Config) (ms : list (gset string)).
Hypothesis Hwf : wf h.

Lemma alloc_configs_lookup c :
  node h c →
  configs (mkHeap (configs h ++ cfgs) (lists h) (maps h ++ ms)) !! c
  = configs h !! c.
Proof. intros Hn. cbn [configs]. by apply lookup_app_l, lookup_lt_is_Some. Qed.

Lemma alloc_maps_lookup c :
  node h c →
  maps (mkHeap (configs h ++ cfgs) (lists h) (maps h ++ ms)) !! c
  = maps h !! c.
Proof.
  intros Hn. cbn [maps]. apply lookup_app_l.
  rewrite (wf_maps h Hwf). by apply lookup_lt_is_Some.
Qed.

Lemma alloc_ignore_set c :
  node h c →
  ignore_set (mkHeap (configs h ++ cfgs) (lists h) (maps h ++ ms)) c
  = ignore_set h c.
Proof.
  intros Hn. unfold ignore_set. rewrite alloc_configs_lookup by done.
  destruct Hn as [cfg Hc]. rewrite Hc, (wf_ignore h Hwf _ _ Hc).
  apply alloc_maps_lookup. by exists cfg.
Qed.

Lemma alloc_ancestor_or_self c a :
  node h c →
  ancestor_or_self (mkHeap (configs h ++ cfgs) (lists h) (maps h ++ ms)) c a →
  ancestor_or_self h c a.
Proof.
  intros Hn Haos. induction Haos as [c _ | c cfg p a Hc Hp _ IH].
  - by apply aos_self.
  - rewrite alloc_configs_lookup in Hc by done.
    pose proof (wf_parent h Hwf _ _ _ Hc Hp) as Hlt.
    eapply aos_step; [done.. |]. apply IH.
    apply lookup_lt_is_Some. apply lookup_lt_Some in Hc. lia.
Qed.

Lemma alloc_ignored c key :
  node h c →
  ignored (mkHeap (configs h ++ cfgs) (lists h) (maps h ++ ms)) c key
  ↔ ignored h c key.
Proof.
  intros Hn. split.
  - intros (a & Haos & Hli).
    apply alloc_ancestor_or_self in Haos; [| done].
    exists a. split; [done |].
    destruct (ancestor_or_self_node _ _ _ Haos) as [_ Hna].
    destruct Hli as (cfg & m & ks & Hc & Hm & Hks & Hin).
    rewrite alloc_configs_lookup in Hc by done.
    pose proof (wf_ignore h Hwf _ _ Hc) as Hm'.
    assert (m = a) as -> by congruence.
    rewrite alloc_maps_lookup in Hks by done.
    by exists cfg, a, ks.
  - apply ignored_mono. rewrite <- (app_nil_r (lists h)).
    apply heap_le_alloc.
Qed.
End Alloc.

(** C10. On a heap the package builds, [NewChild] on a node [n] changes
    nothing that exists: the lists are the same, and every node [n'] of the
    heap ([n] itself among them) has the same config and the same ignore map,
    and every query on it succeeds with the same answer before and after. *)
Theorem NewChild_frame (h : Heap) (n : loc) :
  reachable h → node h n →
  ∃ c h1,
    NewChild n h = Some (c, h1) ∧
    lists h1 = lists h ∧
    ∀ n', node h n' →
      configs h1 !! n' = configs h !! n' ∧
      ignore_set h1 n' = ignore_set h n' ∧
      ∀ q, ∃ a, run_query q n' h = Some (a, h) ∧
                run_query q n' h1 = Some (a, h1).
Proof.
  intros Hr [cfgn Hn]. pose proof (reachable_wf _ Hr) as Hwf.
  pose proof (NewChild_spec _ _ _ Hn) as E.
  destruct (NewChild_wf _ _ _ _ Hwf E) as [Hwf1 _].
  set (cfgc := mkConfig (Some n) (generationEnabled cfgn) (repoRoot cfgn)
         (environmentType cfgn) (excludedPatterns cfgn)
         (Some (length (maps h))) (validateImportStatements cfgn)
         (libraryNamingConvention cfgn) (testNamingConvention cfgn)) in *.
  set (h1 := mkHeap (configs h ++ [cfgc]) (lists h) (maps h ++ [∅])) in *.
  exists (length (configs h)), h1. split; [exact E |]. split; [done |].
  intros n' Hn'.
  pose proof (alloc_configs_lookup h [cfgc] [∅] n' Hn') as Hcfg.
  fold h1 in Hcfg.
  split; [exact Hcfg |].
  split; [exact (alloc_ignore_set h [cfgc] [∅] Hwf n' Hn') |].
  assert (Hnode1 : node h1 n').
  { unfold node. by rewrite Hcfg. }
  destruct Hn' as [cfg Hc]. rewrite Hc in Hcfg.
  destruct (wf_excluded h Hwf _ _ Hc) as (l & Hl & Hlt).
  apply lookup_lt_is_Some in Hlt as [vs Hvs].
  assert (Hvs1 : lists h1 !! l = Some vs) by exact Hvs.
  intros q.
  destruct q as [| | | | modName | dep | | packageName | packageName];
    cbn [run_query];
    try (unfold Parent, ExcludedPatterns, GenerationEnabled,
           ValidateImportStatements, RenderLibraryName, RenderTestName,
           FindThirdPartyDependency, singlylinkedlist_Values, bind, load, ret;
         rewrite ?Hc, ?Hcfg; cbn beta iota;
         rewrite ?Hl; cbn beta iota; rewrite ?Hvs, ?Hvs1;
         eexists; split; reflexivity).
  assert (Hnode : node h n') by (by exists cfg).
  destruct (IgnoresDependency_spec _ n' dep Hwf Hnode) as (b & Hb & Hiff).
  destruct (IgnoresDependency_spec _ n' dep Hwf1 Hnode1) as (b1 & Hb1 & Hiff1).
  unfold h1 in Hiff1.
  rewrite (alloc_ignored h [cfgc] [∅] Hwf n' _ Hnode) in Hiff1.
  assert (b1 = b) as ->.
  { destruct b, b1; try done; [| symmetry]; tauto. }
  exists (ABool b). unfold bind, ret. by rewrite Hb, Hb1.
Qed.

Lemma NewChild_frame_witness :
  ∃ c h1,
    NewChild 1 demo_heap = Some (c, h1) ∧
    lists h1 = lists demo_heap ∧
    ∀ n', node demo_heap n' →
      configs h1 !! n' = configs demo_heap !! n' ∧
      ignore_set h1 n' = ignore_set demo_heap n' ∧
      ∀ q, ∃ a, run_query q n' demo_heap = Some (a, demo_heap) ∧
                run_query q n' h1 = Some (a, h1).
Proof.
  apply (NewChild_frame demo_heap 1).
  - exists demo_calls. vm_compute. reflexivity.
  - vm_compute. eexists. reflexivity.
Defined.

(** ** Theorems about white space, templates and the parent lookup *)

Lemma AddIgnoreDependency_spec c cfg ks dep h :
  wf h → configs h !! c = Some cfg → maps h !! c = Some ks →
  AddIgnoreDependency c dep h =
    Some (tt, mkHeap (configs h) (lists h)
                (<[c := {[TrimSpace dep]} ∪ ks]> (maps h))).
Proof.
  intros Hwf Hc Hks. unfold AddIgnoreDependency, bind, load, map_assign.
  by rewrite Hc, (wf_ignore h Hwf _ _ Hc), Hks.
Qed.

(** A name that is a key of the map of [c] itself is found at once. *)
Lemma IgnoresDependency_local c cfg ks dep h :
  wf h → configs h !! c = Some cfg → maps h !! c = Some ks →
  TrimSpace dep ∈ ks → IgnoresDependency c dep h = Some (true, h).
Proof.
  intros Hwf Hc Hks Hin.
  unfold IgnoresDependency, IgnoresDependency_fuel, bind, load, map_lookup.
  rewrite Hc, (wf_ignore h Hwf _ _ Hc), Hks.
  by rewrite bool_decide_eq_true_2.
Qed.

(** C8. [AddIgnoreDependency] and [IgnoresDependency] called with [s] are the
    calls with [TrimSpace s], on every heap; and on a heap the package builds,
    for a node [c]: after adding ["  x  "], both ["x"] and [" x "] are
    ignored; adding a name a second time, trimmed or not, leaves the heap
    exactly as the first addition left it. *)
Theorem ignore_names_trimmed (h : Heap) (c : loc) :
  (∀ s, AddIgnoreDependency c s h = AddIgnoreDependency c (TrimSpace s) h ∧
        IgnoresDependency c s h = IgnoresDependency c (TrimSpace s) h) ∧
  (reachable h → node h c →
   (∃ h1, AddIgnoreDependency c "  x  " h = Some (tt, h1) ∧
          IgnoresDependency c "x" h1 = Some (true, h1) ∧
          IgnoresDependency c " x " h1 = Some (true, h1)) ∧
   (∀ s, ∃ h1, AddIgnoreDependency c s h = Some (tt, h1) ∧
               AddIgnoreDependency c s h1 = Some (tt, h1) ∧
               AddIgnoreDependency c (TrimSpace s) h1 = Some (tt, h1))).
Proof.
  split.
  - intros s. split.
    + unfold AddIgnoreDependency. by rewrite TrimSpace_idem.
    + unfold IgnoresDependency, IgnoresDependency_fuel.
      by rewrite TrimSpace_idem.
  - intros Hr [cfg Hc]. pose proof (reachable_wf _ Hr) as Hwf.
    destruct (wf_map_lookup _ _ _ Hwf Hc) as [_ [ks Hks]].
    assert (Hstep : ∀ s,
      ∃ h1, AddIgnoreDependency c s h = Some (tt, h1) ∧ wf h1 ∧
            configs h1 !! c = Some cfg ∧
            maps h1 !! c = Some ({[TrimSpace s]} ∪ ks) ∧
            h1 = mkHeap (configs h) (lists h)
                   (<[c := {[TrimSpace s]} ∪ ks]> (maps h))).
    { intros s. eexists.
      pose proof (AddIgnoreDependency_spec c cfg ks s h Hwf Hc Hks) as E.
      split; [exact E |].
      split; [by eapply AddIgnoreDependency_wf |].
      split; [done |]. split; [| done]. cbn [maps].
      apply list_lookup_insert_eq. by eapply lookup_lt_Some. }
    split.
    + destruct (Hstep "  x  ") as (h1 & E & Hwf1 & Hc1 & Hks1 & _).
      exists h1. split; [exact E |].
      change (TrimSpace "  x  ") with "x" in Hks1.
      split; eapply IgnoresDependency_local; try done;
        apply elem_of_union; left; by apply elem_of_singleton.
    + intros s. destruct (Hstep s) as (h1 & E & Hwf1 & Hc1 & Hks1 & Hh1).
      exists h1. split; [exact E |].
      assert (Hagain : AddIgnoreDependency c s h1 = Some (tt, h1)).
      { rewrite (AddIgnoreDependency_spec c cfg _ s h1 Hwf1 Hc1 Hks1).
        do 2 f_equal. rewrite Hh1 at 2. rewrite Hh1. cbn [configs lists maps].
        f_equal. rewrite list_insert_insert_eq. f_equal.
        apply set_eq. intros y. rewrite !elem_of_union. tauto. }
      split; [exact Hagain |].
      unfold AddIgnoreDependency in *. by rewrite TrimSpace_idem.
Qed.

Lemma ignore_names_trimmed_witness :
  (∀ s, AddIgnoreDependency 1 s demo_heap
        = AddIgnoreDependency 1 (TrimSpace s) demo_heap ∧
        IgnoresDependency 1 s demo_heap
        = IgnoresDependency 1 (TrimSpace s) demo_heap) ∧
  (∃ h1, AddIgnoreDependency 1 "  x  " demo_heap = Some (tt, h1) ∧
         IgnoresDependency 1 "x" h1 = Some (true, h1) ∧
         IgnoresDependency 1 " x " h1 = Some (true, h1)) ∧
  (∀ s, ∃ h1, AddIgnoreDependency 1 s demo_heap = Some (tt, h1) ∧
              AddIgnoreDependency 1 s h1 = Some (tt, h1) ∧
              AddIgnoreDependency 1 (TrimSpace s) h1 = Some (tt, h1)).
Proof.
  destruct (ignore_names_trimmed demo_heap 1) as [Heq Hrest].
  split; [exact Heq |]. apply Hrest.
  - exists demo_calls. vm_compute. reflexivity.
  - vm_compute. eexists. reflexivity.
Defined.


(** C6. For a node [c] with config [cfg] and every package name,
    [RenderLibraryName] and [RenderTestName] return the stored template with
    every occurrence of [$package_name$], taken from left to right without
    overlap, replaced by the package name, and leave the heap as it is; a
    template in which the placeholder does not occur is returned unchanged;
    the library template [$package_name$_lib] renders ["foo"] as [foo_lib] and
    the default test template renders ["bar"] as [bar_test]. *)
Theorem Render_replaces_placeholder
    (h : Heap) (c : loc) (cfg : Config) (packageName : string) :
  configs h !! c = Some cfg →
  RenderLibraryName c packageName h =
    Some (str (replace_every placeholder (bytes packageName) 0
                 (bytes (libraryNamingConvention cfg))), h) ∧
  RenderTestName c packageName h =
    Some (str (replace_every placeholder (bytes packageName) 0
                 (bytes (testNamingConvention cfg))), h) ∧
  ((∀ i, ¬ occurs_at placeholder (bytes (libraryNamingConvention cfg)) i) →
   RenderLibraryName c packageName h = Some (libraryNamingConvention cfg, h)) ∧
  ((∀ i, ¬ occurs_at placeholder (bytes (testNamingConvention cfg)) i) →
   RenderTestName c packageName h = Some (testNamingConvention cfg, h)) ∧
  (libraryNamingConvention cfg = "$package_name$_lib" →
   RenderLibraryName c "foo" h = Some ("foo_lib", h)) ∧
  (testNamingConvention cfg
   = Sprintf "%s_test" packageNameNamingConventionSubstitution →
   RenderTestName c "bar" h = Some ("bar_test", h)).
Proof.
  intros Hc.
  assert (Htok : packageNameNamingConventionSubstitution ≠ "") by done.
  unfold RenderLibraryName, RenderTestName, bind, load, ret, placeholder.
  rewrite Hc. repeat split.
  - by rewrite ReplaceAll_replace_every.
  - by rewrite ReplaceAll_replace_every.
  - intros Hno. by rewrite ReplaceAll_no_occurrence.
  - intros Hno. by rewrite ReplaceAll_no_occurrence.
  - intros ->. reflexivity.
  - intros ->. reflexivity.
Qed.

Lemma Render_replaces_placeholder_witness :
  RenderLibraryName 2 "b" demo_heap =
    Some (str (replace_every placeholder (bytes "b") 0
                 (bytes (libraryNamingConvention demo_leaf))), demo_heap) ∧
  RenderTestName 2 "b" demo_heap =
    Some (str (replace_every placeholder (bytes "b") 0
                 (bytes (testNamingConvention demo_leaf))), demo_heap) ∧
  ((∀ i, ¬ occurs_at placeholder (bytes (libraryNamingConvention demo_leaf)) i) →
   RenderLibraryName 2 "b" demo_heap
   = Some (libraryNamingConvention demo_leaf, demo_heap)) ∧
  ((∀ i, ¬ occurs_at placeholder (bytes (testNamingConvention demo_leaf)) i) →
   RenderTestName 2 "b" demo_heap
   = Some (testNamingConvention demo_leaf, demo_heap)) ∧
  (libraryNamingConvention demo_leaf = "$package_name$_lib" →
   RenderLibraryName 2 "foo" demo_heap = Some ("foo_lib", demo_heap)) ∧
  (testNamingConvention demo_leaf
   = Sprintf "%s_test" packageNameNamingConventionSubstitution →
   RenderTestName 2 "bar" demo_heap = Some ("bar_test", demo_heap)).
Proof.
  apply (Render_replaces_placeholder demo_heap 2 demo_leaf "b").
  vm_compute. reflexivity.
Defined.

(** C5, as amended.  [ParentForPackage] looks up the directory of the package
    path, with ["."] replaced by the empty string, returns the pointer
    registered there and leaves the heap as it is; it returns nil when no
    pointer is registered there.  A path without a separator, the empty path
    of the root package among them, has the empty string as its key: the
    answer for the root package is whatever is registered under the empty
    string, and nil only if nothing is. *)
Theorem ParentForPackage_lookup (c : Configs) (pkg : string) (h : Heap) :
  ParentForPackage c pkg h = Some (default None (c !! parent_key pkg), h) ∧
  (c !! parent_key pkg = None → ParentForPackage c pkg h = Some (None, h)) ∧
  ((∀ b, b ∈ bytes pkg → IsPathSeparator b = false) → parent_key pkg = "") ∧
  parent_key "" = "" ∧ parent_key "a" = "" ∧ parent_key "a/b" = "a" ∧
  parent_key "a/b/c" = "a/b" ∧
  ParentForPackage c "" h = Some (default None (c !! ""), h).
Proof.
  split; [reflexivity |]. split.
  { intros Hnone. unfold ParentForPackage, ret. fold (parent_key pkg).
    by rewrite Hnone. }
  split.
  { intros Hno. unfold parent_key. by rewrite Dir_no_separator. }
  repeat split; reflexivity.
Qed.

Lemma ParentForPackage_lookup_witness :
  ParentForPackage demo_configs "x/y" demo_heap
  = Some (default None (demo_configs !! parent_key "x/y"), demo_heap) ∧
  (demo_configs !! parent_key "x/y" = None →
   ParentForPackage demo_configs "x/y" demo_heap = Some (None, demo_heap)) ∧
  ((∀ b, b ∈ bytes "x/y" → IsPathSeparator b = false) → parent_key "x/y" = "") ∧
  parent_key "" = "" ∧ parent_key "a" = "" ∧ parent_key "a/b" = "a" ∧
  parent_key "a/b/c" = "a/b" ∧
  ParentForPackage demo_configs "" demo_heap
  = Some (default None (demo_configs !! ""), demo_heap).
Proof. apply (ParentForPackage_lookup demo_configs "x/y" demo_heap). Defined.

(** C5 as stated fails: with the root registered under the empty string, as
    the walker registers it, [ParentForPackage] of the root package path
    returns the root config itself, not nil. *)
Lemma ParentForPackage_root_not_absent :
  ParentForPackage demo_configs "" demo_heap = Some (Some 0, demo_heap) ∧
  ParentForPackage demo_configs "" demo_heap ≠ Some (None, demo_heap).
Proof.
  assert (E : ParentForPackage demo_configs "" demo_heap
              = Some (Some 0, demo_heap)).
  { unfold ParentForPackage, ret.
    change (Dir "") with ".". rewrite bool_decide_eq_true_2 by done.
    unfold demo_configs. rewrite lookup_insert_eq. reflexivity. }
  split; [exact E |]. rewrite E. intros [=].
Qed.

(** ** The scenario of the specification

    The root is created, the packages [a] and [a/b] are derived, [left-pad]
    is ignored at [a]: it is ignored at [a/b] and not at the root. *)
Example end_to_end :
  fst <$> (do root <- New "/repo";
           do a <- NewChild root;
           do b <- NewChild a;
           do _ <- AddIgnoreDependency a "left-pad";
           do at_b <- IgnoresDependency b "left-pad";
           do at_root <- IgnoresDependency root "left-pad";
           ret (at_b, at_root)) empty_heap
  = Some (true, false).
Proof. vm_compute. reflexivity. Qed.

(** ** Further properties of the package *)

Lemma run_query_reads_same q h n cfg h' n' cfg' :
  wf h → wf h' →
  configs h !! n = Some cfg → configs h' !! n' = Some cfg' →
  reads_same q h n cfg h' n' cfg' →
  ∃ a, run_query q n h = Some (a, h) ∧ run_query q n' h' = Some (a, h').
Proof.
  intros Hwf Hwf' Hc Hc' Hsame.
  destruct (wf_excluded h Hwf _ _ Hc) as (l & Hl & Hlt).
  destruct (wf_excluded h' Hwf' _ _ Hc') as (l' & Hl' & Hlt').
  apply lookup_lt_is_Some in Hlt as [vs Hvs].
  apply lookup_lt_is_Some in Hlt' as [vs' Hvs'].
  destruct q as [| | | | modName | dep | | packageName | packageName];
    cbn [run_query reads_same] in *.
  all: try (unfold Parent, ExcludedPatterns, GenerationEnabled,
           ValidateImportStatements, RenderLibraryName, RenderTestName,
           FindThirdPartyDependency, singlylinkedlist_Values, bind, load, ret;
         rewrite Hc, Hc'; cbn beta iota).
  - rewrite Hsame. eauto.
  - rewrite Hsame. eauto.
  - destruct Hsame as (l0 & l0' & E & E' & Hlists).
    rewrite E, E'. cbn beta iota.
    assert (l0 = l) as -> by congruence.
    assert (l0' = l') as -> by congruence.
    rewrite <- Hlists, Hvs. eauto.
  - rewrite Hsame. eauto.
  - eauto.
  - destruct (IgnoresDependency_spec h n dep Hwf) as (b & Hb & Hiff);
      [by exists cfg |].
    destruct (IgnoresDependency_spec h' n' dep Hwf') as (b' & Hb' & Hiff');
      [by exists cfg' |].
    assert (b' = b) as ->.
    { destruct b, b'; try done; [| symmetry]; tauto. }
    exists (ABool b). unfold bind, ret. by rewrite Hb, Hb'.
  - rewrite Hsame. eauto.
  - rewrite Hsame. eauto.
  - rewrite Hsame. eauto.
Qed.

(** The config a setter leaves at its receiver. *)
Lemma run_setter_fields s c cfg h :
  configs h !! c = Some cfg →
  ∃ cfg',
    run_setter s c h =
      Some (tt, mkHeap (<[c := cfg']> (configs h)) (lists h) (maps h)) ∧
    parent cfg' = parent cfg ∧
    excludedPatterns cfg' = excludedPatterns cfg ∧
    ignoreDependencies cfg' = ignoreDependencies cfg ∧
    repoRoot cfg' = repoRoot cfg ∧
    generationEnabled cfg' =
      match s with SetGen b => b | _ => generationEnabled cfg end ∧
    validateImportStatements cfg' =
      match s with SetValidate b => b | _ => validateImportStatements cfg end ∧
    environmentType cfg' =
      match s with SetEnv e => e | _ => environmentType cfg end ∧
    libraryNamingConvention cfg' =
      match s with SetLibrary t => t | _ => libraryNamingConvention cfg end ∧
    testNamingConvention cfg' =
      match s with SetTest t => t | _ => testNamingConvention cfg end.
Proof.
  intros Hc.
  destruct s; cbn [run_setter];
    unfold SetGenerationEnabled, SetValidateImportStatements,
      SetEnvironmentType, SetLibraryNamingConvention,
      SetTestNamingConvention, bind, load, store;
    rewrite Hc; cbn beta iota; rewrite Hc; eexists;
    (split; [reflexivity | done]).
Qed.

Lemma Config_eq (a b : Config) :
  parent a = parent b → generationEnabled a = generationEnabled b →
  repoRoot a = repoRoot b → environmentType a = environmentType b →
  excludedPatterns a = excludedPatterns b →
  ignoreDependencies a = ignoreDependencies b →
  validateImportStatements a = validateImportStatements b →
  libraryNamingConvention a = libraryNamingConvention b →
  testNamingConvention a = testNamingConvention b → a = b.
Proof. destruct a, b; cbn; intros; by subst. Qed.

(** X1. Set, then read.  For a node [c] of any heap: [GenerationEnabled]
    returns what [SetGenerationEnabled] stored, [ValidateImportStatements]
    what [SetValidateImportStatements] stored, and [RenderLibraryName] and
    [RenderTestName] render the template that [SetLibraryNamingConvention]
    and [SetTestNamingConvention] stored. *)
Theorem setters_round_trip (h : Heap) (c : loc) :
  node h c →
  (∀ b, ∃ h1, SetGenerationEnabled c b h = Some (tt, h1) ∧
              GenerationEnabled c h1 = Some (b, h1)) ∧
  (∀ v, ∃ h1, SetValidateImportStatements c v h = Some (tt, h1) ∧
              ValidateImportStatements c h1 = Some (v, h1)) ∧
  (∀ t, ∃ h1, SetLibraryNamingConvention c t h = Some (tt, h1) ∧
              ∀ p, RenderLibraryName c p h1 =
                   Some (ReplaceAll t packageNameNamingConventionSubstitution p, h1)) ∧
  (∀ t, ∃ h1, SetTestNamingConvention c t h = Some (tt, h1) ∧
              ∀ p, RenderTestName c p h1 =
                   Some (ReplaceAll t packageNameNamingConventionSubstitution p, h1)).
Proof.
  intros [cfg Hc]. pose proof (lookup_lt_Some _ _ _ Hc) as Hlt.
  repeat split.
  - intros b. destruct (run_setter_fields (SetGen b) c cfg h Hc)
      as (cfg' & E & _ & _ & _ & _ & Hg & _).
    eexists. split; [exact E |].
    unfold GenerationEnabled, bind, load, ret. cbn [configs].
    by rewrite list_lookup_insert_eq, Hg.
  - intros v. destruct (run_setter_fields (SetValidate v) c cfg h Hc)
      as (cfg' & E & _ & _ & _ & _ & _ & Hv & _).
    eexists. split; [exact E |].
    unfold ValidateImportStatements, bind, load, ret. cbn [configs].
    by rewrite list_lookup_insert_eq, Hv.
  - intros t. destruct (run_setter_fields (SetLibrary t) c cfg h Hc)
      as (cfg' & E & _ & _ & _ & _ & _ & _ & _ & Hl & _).
    eexists. split; [exact E |]. intros p.
    unfold RenderLibraryName, bind, load, ret. cbn [configs].
    by rewrite list_lookup_insert_eq, Hl.
  - intros t. destruct (run_setter_fields (SetTest t) c cfg h Hc)
      as (cfg' & E & _ & _ & _ & _ & _ & _ & _ & _ & Ht).
    eexists. split; [exact E |]. intros p.
    unfold RenderTestName, bind, load, ret. cbn [configs].
    by rewrite list_lookup_insert_eq, Ht.
Qed.

Lemma setters_round_trip_witness :
  (∀ b, ∃ h1, SetGenerationEnabled 1 b demo_heap = Some (tt, h1) ∧
              GenerationEnabled 1 h1 = Some (b, h1)) ∧
  (∀ v, ∃ h1, SetValidateImportStatements 1 v demo_heap = Some (tt, h1) ∧
              ValidateImportStatements 1 h1 = Some (v, h1)) ∧
  (∀ t, ∃ h1, SetLibraryNamingConvention 1 t demo_heap = Some (tt, h1) ∧
              ∀ p, RenderLibraryName 1 p h1 =
                   Some (ReplaceAll t packageNameNamingConventionSubstitution p, h1)) ∧
  (∀ t, ∃ h1, SetTestNamingConvention 1 t demo_heap = Some (tt, h1) ∧
              ∀ p, RenderTestName 1 p h1 =
                   Some (ReplaceAll t packageNameNamingConventionSubstitution p, h1)).
Proof.
  apply (setters_round_trip demo_heap 1).
  vm_compute. eexists. reflexivity.
Defined.

(** X2. A setter may be called any number of times: a second call on the
    same field of a node succeeds, and the heap is the one the second call
    alone would have produced.  No setter reports an error on a repeated
    call, [SetValidateImportStatements] included. *)
Theorem setter_overwrites (h : Heap) (c : loc) (s s' : setter) :
  node h c → same_field s s' = true →
  ∃ h1 h2, run_setter s c h = Some (tt, h1) ∧
           run_setter s' c h1 = Some (tt, h2) ∧
           run_setter s' c h = Some (tt, h2).
Proof.
  intros [cfg Hc] Hsame. pose proof (lookup_lt_Some _ _ _ Hc) as Hlt.
  destruct (run_setter_fields s c cfg h Hc)
    as (cfg1 & E1 & Hp1 & He1 & Hi1 & Hr1 & Hg1 & Hv1 & Hen1 & Hl1 & Ht1).
  assert (Hc1 : configs (mkHeap (<[c := cfg1]> (configs h)) (lists h) (maps h))
                !! c = Some cfg1).
  { cbn [configs]. by apply list_lookup_insert_eq. }
  destruct (run_setter_fields s' c cfg1 _ Hc1)
    as (cfg2 & E2 & Hp2 & He2 & Hi2 & Hr2 & Hg2 & Hv2 & Hen2 & Hl2 & Ht2).
  destruct (run_setter_fields s' c cfg h Hc)
    as (cfg3 & E3 & Hp3 & He3 & Hi3 & Hr3 & Hg3 & Hv3 & Hen3 & Hl3 & Ht3).
  eexists. eexists. split; [exact E1 |]. split; [exact E2 |].
  rewrite E3. cbn [configs lists maps]. rewrite list_insert_insert_eq.
  do 4 f_equal. apply Config_eq; destruct s, s'; try done; congruence.
Qed.

Lemma setter_overwrites_witness :
  ∃ h1 h2,
    run_setter (SetValidate false) 2 demo_heap = Some (tt, h1) ∧
    run_setter (SetValidate true) 2 h1 = Some (tt, h2) ∧
    run_setter (SetValidate true) 2 demo_heap = Some (tt, h2).
Proof.
  apply (setter_overwrites demo_heap 2 (SetValidate false) (SetValidate true)).
  - vm_compute. eexists. reflexivity.
  - reflexivity.
Defined.

(** [ignored] reads the parent and map references of the configs and the
    maps, nothing else. *)
Lemma ancestor_or_self_refs h h' c a :
  (∀ n cfg, configs h !! n = Some cfg →
     ∃ cfg', configs h' !! n = Some cfg' ∧ parent cfg' = parent cfg) →
  ancestor_or_self h c a → ancestor_or_self h' c a.
Proof.
  intros Hrefs. induction 1 as [c [cfg Hc] | c cfg p a Hc Hp _ IH].
  - destruct (Hrefs _ _ Hc) as (cfg' & Hc' & _). apply aos_self. by exists cfg'.
  - destruct (Hrefs _ _ Hc) as (cfg' & Hc' & Hp').
    apply (aos_step h' c cfg' p a); [done | congruence | done].
Qed.

Lemma ignored_refs h h' c key :
  (∀ n cfg, configs h !! n = Some cfg →
     ∃ cfg', configs h' !! n = Some cfg' ∧ parent cfg' = parent cfg ∧
             ignoreDependencies cfg' = ignoreDependencies cfg) →
  maps h = maps h' →
  ignored h c key → ignored h' c key.
Proof.
  intros Hrefs Hmaps (a & Haos & cfg & m & ks & Hc & Hm & Hks & Hin).
  exists a. split.
  - eapply ancestor_or_self_refs; [| done].
    intros n cfg0 H0. destruct (Hrefs _ _ H0) as (cfg' & ? & ? & _). eauto.
  - destruct (Hrefs _ _ Hc) as (cfg' & Hc' & _ & Hm').
    exists cfg', m, ks. rewrite <- Hmaps. repeat split; try done. congruence.
Qed.

Lemma store_refs h c cfg cfg' :
  configs h !! c = Some cfg →
  parent cfg' = parent cfg → ignoreDependencies cfg' = ignoreDependencies cfg →
  let h1 := mkHeap (<[c := cfg']> (configs h)) (lists h) (maps h) in
  (∀ n cfg0, configs h !! n = Some cfg0 →
     ∃ cfg1, configs h1 !! n = Some cfg1 ∧ parent cfg1 = parent cfg0 ∧
             ignoreDependencies cfg1 = ignoreDependencies cfg0) ∧
  (∀ n cfg1, configs h1 !! n = Some cfg1 →
     ∃ cfg0, configs h !! n = Some cfg0 ∧ parent cfg0 = parent cfg1 ∧
             ignoreDependencies cfg0 = ignoreDependencies cfg1).
Proof.
  intros Hc Hp Hi h1. pose proof (lookup_lt_Some _ _ _ Hc) as Hlt.
  split; intros n cfg0 H0; cbn [h1 configs] in *;
    destruct (decide (n = c)) as [-> | Hne].
  - exists cfg'. rewrite list_lookup_insert_eq by done.
    assert (cfg0 = cfg) as -> by congruence. done.
  - exists cfg0. by rewrite list_lookup_insert_ne.
  - rewrite list_lookup_insert_eq in H0 by done. simplify_eq. by exists cfg.
  - rewrite list_lookup_insert_ne in H0 by done. by exists cfg0.
Qed.

(** X3. On a heap the package builds, a scalar setter on a node [c] leaves
    the lists and the maps as they are, and changes no answer of any query
    but the one of its own field at [c] itself: not at the parent, not at
    the children.  [SetEnvironmentType] changes no answer at all: no method
    of the file reads that field. *)
Theorem setter_frame (h : Heap) (c : loc) (s : setter) :
  reachable h → node h c →
  ∃ h1, run_setter s c h = Some (tt, h1) ∧
        lists h1 = lists h ∧ maps h1 = maps h ∧
        ∀ n q, node h n → n ≠ c ∨ observes s q = false →
          ∃ a, run_query q n h = Some (a, h) ∧ run_query q n h1 = Some (a, h1).
Proof.
  intros Hr [cfg Hc]. pose proof (reachable_wf _ Hr) as Hwf.
  pose proof (lookup_lt_Some _ _ _ Hc) as Hlt.
  destruct (run_setter_fields s c cfg h Hc)
    as (cfg1 & E1 & Hp1 & He1 & Hi1 & Hr1 & Hg1 & Hv1 & Hen1 & Hl1 & Ht1).
  destruct (run_setter_wf _ _ _ _ _ Hwf E1) as [Hwf1 _].
  eexists. split; [exact E1 |]. split; [done |]. split; [done |].
  destruct (store_refs h c cfg cfg1 Hc Hp1 Hi1) as [Hfwd Hbwd].
  intros n q [cfgn Hn] Hcase.
  assert (Hign : ∀ key,
    ignored h n key ↔
    ignored (mkHeap (<[c := cfg1]> (configs h)) (lists h) (maps h)) n key).
  { intros key. split; apply ignored_refs; done. }
  destruct (decide (n = c)) as [-> | Hne].
  - destruct Hcase as [? | Hobs]; [done |].
    assert (cfgn = cfg) as -> by congruence.
    apply (run_query_reads_same q h c cfg _ c cfg1 Hwf Hwf1 Hc).
    { cbn [configs]. by apply list_lookup_insert_eq. }
    destruct q, s; cbn [reads_same observes] in *; try done;
      try congruence; try apply Hign.
    all: destruct (wf_excluded h Hwf _ _ Hc) as (l & Hl & _);
      exists l, l; cbn [lists]; split; [done |]; split; [congruence | done].
  - apply (run_query_reads_same q h n cfgn _ n cfgn Hwf Hwf1 Hn).
    { cbn [configs]. by rewrite list_lookup_insert_ne. }
    destruct q; cbn [reads_same]; try done; try apply Hign.
    destruct (wf_excluded h Hwf _ _ Hn) as (l & Hl & _). by exists l, l.
Qed.

Lemma setter_frame_witness :
  ∃ h1, run_setter (SetGen false) 1 demo_heap = Some (tt, h1) ∧
    lists h1 = lists demo_heap ∧ maps h1 = maps demo_heap ∧
    ∀ n q, node demo_heap n → n ≠ 1 ∨ observes (SetGen false) q = false →
      ∃ a, run_query q n demo_heap = Some (a, demo_heap) ∧
           run_query q n h1 = Some (a, h1).
Proof.
  apply (setter_frame demo_heap 1 (SetGen false)).
  - exists demo_calls. vm_compute. reflexivity.
  - vm_compute. eexists. reflexivity.
Defined.

(** X4. On a heap the package builds, [AddExcludedPattern] on a node leaves
    the configs and the maps as they are and changes no answer but the values
    of the exclusion list; [AddIgnoreDependency] leaves the configs and the
    lists as they are and changes no answer but those of
    [IgnoresDependency]. *)
Theorem adds_frame (h : Heap) (c : loc) :
  reachable h → node h c →
  (∀ g, ∃ h1,
     AddExcludedPattern c g h = Some (tt, h1) ∧
     configs h1 = configs h ∧ maps h1 = maps h ∧
     ∀ n q, node h n → q ≠ QExcludedValues →
       ∃ a, run_query q n h = Some (a, h) ∧ run_query q n h1 = Some (a, h1)) ∧
  (∀ d, ∃ h1,
     AddIgnoreDependency c d h = Some (tt, h1) ∧
     configs h1 = configs h ∧ lists h1 = lists h ∧
     ∀ n q, node h n → (∀ d', q ≠ QIgnoresDependency d') →
       ∃ a, run_query q n h = Some (a, h) ∧ run_query q n h1 = Some (a, h1)).
Proof.
  intros Hr [cfg Hc]. pose proof (reachable_wf _ Hr) as Hwf. split.
  - intros g. destruct (wf_excluded h Hwf _ _ Hc) as (l & Hl & Hlt).
    apply lookup_lt_is_Some in Hlt as [vs Hvs].
    pose proof (AddExcludedPattern_spec c cfg l vs g h Hc Hl Hvs) as E.
    destruct (AddExcludedPattern_wf _ _ _ _ _ Hwf E) as [Hwf1 _].
    eexists. split; [exact E |]. split; [done |]. split; [done |].
    intros n q [cfgn Hn] Hq.
    apply (run_query_reads_same q h n cfgn _ n cfgn Hwf Hwf1 Hn Hn).
    destruct q; cbn [reads_same]; try done.
    split; apply ignored_refs; cbn [configs maps]; eauto.
  - intros d. destruct (wf_map_lookup _ _ _ Hwf Hc) as [_ [ks Hks]].
    pose proof (AddIgnoreDependency_spec c cfg ks d h Hwf Hc Hks) as E.
    destruct (AddIgnoreDependency_wf _ _ _ _ _ Hwf E) as [Hwf1 _].
    eexists. split; [exact E |]. split; [done |]. split; [done |].
    intros n q [cfgn Hn] Hq.
    apply (run_query_reads_same q h n cfgn _ n cfgn Hwf Hwf1 Hn Hn).
    destruct q; cbn [reads_same]; try done.
    + destruct (wf_excluded h Hwf _ _ Hn) as (l & Hl & _). by exists l, l.
    + by destruct (Hq dep).
Qed.

Lemma adds_frame_witness :
  (∀ g, ∃ h1,
     AddExcludedPattern 1 g demo_heap = Some (tt, h1) ∧
     configs h1 = configs demo_heap ∧ maps h1 = maps demo_heap ∧
     ∀ n q, node demo_heap n → q ≠ QExcludedValues →
       ∃ a, run_query q n demo_heap = Some (a, demo_heap) ∧
            run_query q n h1 = Some (a, h1)) ∧
  (∀ d, ∃ h1,
     AddIgnoreDependency 1 d demo_heap = Some (tt, h1) ∧
     configs h1 = configs demo_heap ∧ lists h1 = lists demo_heap ∧
     ∀ n q, node demo_heap n → (∀ d', q ≠ QIgnoresDependency d') →
       ∃ a, run_query q n demo_heap = Some (a, demo_heap) ∧
            run_query q n h1 = Some (a, h1)).
Proof.
  apply (adds_frame demo_heap 1).
  - exists demo_calls. vm_compute. reflexivity.
  - vm_compute. eexists. reflexivity.
Defined.

(** X5. On a heap the package builds, adding an ignored name at a node [B]
    that is not [A] and not on the parent chain of [A] (a sibling, a
    descendant, a node of another tree) changes no answer of
    [IgnoresDependency] at [A]. *)
Theorem ignore_noninterference (h : Heap) (A B : loc) :
  reachable h → node h A → node h B → ¬ ancestor_or_self h A B →
  ∀ y, ∃ h1, AddIgnoreDependency B y h = Some (tt, h1) ∧
    ∀ d, ∃ b : bool, IgnoresDependency A d h = Some (b, h) ∧
                     IgnoresDependency A d h1 = Some (b, h1).
Proof.
  intros Hr HnA [cfgB HB] Hnot y. pose proof (reachable_wf _ Hr) as Hwf.
  destruct (wf_map_lookup _ _ _ Hwf HB) as [_ [ks Hks]].
  pose proof (AddIgnoreDependency_spec B cfgB ks y h Hwf HB Hks) as E.
  destruct (AddIgnoreDependency_wf _ _ _ _ _ Hwf E) as [Hwf1 Hle].
  eexists. split; [exact E |]. intros d.
  destruct (IgnoresDependency_spec h A d Hwf HnA) as (b & Hb & Hiff).
  destruct (IgnoresDependency_spec _ A d Hwf1 HnA) as (b1 & Hb1 & Hiff1).
  exists b. split; [done |]. rewrite Hb1. do 2 f_equal.
  assert (Hign : ignored (mkHeap (configs h) (lists h)
                    (<[B := {[TrimSpace y]} ∪ ks]> (maps h))) A (TrimSpace d)
                 → ignored h A (TrimSpace d)).
  { intros (a & Haos & cfg & m & ks' & Hc & Hm & Hks' & Hin).
    assert (Haos' : ancestor_or_self h A a).
    { eapply ancestor_or_self_refs; [| exact Haos]. cbn [configs]. eauto. }
    exists a. split; [done |]. exists cfg, m, ks'.
    cbn [configs maps] in *. repeat split; try done.
    assert (m = a) as -> by (pose proof (wf_ignore h Hwf _ _ Hc); congruence).
    rewrite list_lookup_insert_ne in Hks'; [done |]. by intros ->. }
  destruct b, b1; try done.
  - exfalso. assert (false = true); [| done].
    apply Hiff1. eapply ignored_mono; [exact Hle |]. by apply Hiff.
  - exfalso. assert (false = true); [| done]. apply Hiff, Hign. by apply Hiff1.
Qed.

Lemma ignore_noninterference_witness :
  ∃ h1, AddIgnoreDependency 2 "left-pad" sibling_heap = Some (tt, h1) ∧
    ∀ d, ∃ b : bool, IgnoresDependency 1 d sibling_heap = Some (b, sibling_heap) ∧
                     IgnoresDependency 1 d h1 = Some (b, h1).
Proof.
  assert (Hr : reachable sibling_heap).
  { exists sibling_calls. vm_compute. reflexivity. }
  refine (ignore_noninterference sibling_heap 1 2 Hr _ _ _ "left-pad").
  - vm_compute. eexists. reflexivity.
  - vm_compute. eexists. reflexivity.
  - intros H. apply (ancestor_or_self_le _ _ _ (reachable_wf _ Hr)) in H. lia.
Defined.

(** X6. On a heap the package builds, two calls of [AddIgnoreDependency], on
    the same node or on two nodes, reach the same heap in either order. *)
Theorem AddIgnoreDependency_commute (h : Heap) (a b : loc) (x y : string) :
  reachable h → node h a → node h b →
  ∃ h1 h2 h',
    AddIgnoreDependency a x h = Some (tt, h1) ∧
    AddIgnoreDependency b y h1 = Some (tt, h') ∧
    AddIgnoreDependency b y h = Some (tt, h2) ∧
    AddIgnoreDependency a x h2 = Some (tt, h').
Proof.
  intros Hr [cfga Ha] [cfgb Hb]. pose proof (reachable_wf _ Hr) as Hwf.
  destruct (wf_map_lookup _ _ _ Hwf Ha) as [_ [ksa Hksa]].
  destruct (wf_map_lookup _ _ _ Hwf Hb) as [_ [ksb Hksb]].
  pose proof (AddIgnoreDependency_spec a cfga ksa x h Hwf Ha Hksa) as E1.
  pose proof (AddIgnoreDependency_spec b cfgb ksb y h Hwf Hb Hksb) as E2.
  destruct (AddIgnoreDependency_wf _ _ _ _ _ Hwf E1) as [Hwf1 _].
  destruct (AddIgnoreDependency_wf _ _ _ _ _ Hwf E2) as [Hwf2 _].
  pose proof (lookup_lt_Some _ _ _ Hksa) as Hlta.
  pose proof (lookup_lt_Some _ _ _ Hksb) as Hltb.
  destruct (decide (a = b)) as [-> | Hne].
  - assert (ksb = ksa) as -> by congruence.
    assert (cfga = cfgb) as -> by congruence.
    eexists. eexists. eexists. split; [exact E1 |].
    split; [| split; [exact E2 |]].
    + rewrite (AddIgnoreDependency_spec b cfgb ({[TrimSpace x]} ∪ ksa) y _ Hwf1);
        [reflexivity | done |].
      cbn [maps]. by apply list_lookup_insert_eq.
    + rewrite (AddIgnoreDependency_spec b cfgb ({[TrimSpace y]} ∪ ksa) x _ Hwf2);
        [| done | cbn [maps]; by apply list_lookup_insert_eq].
      cbn [configs lists maps]. rewrite !list_insert_insert_eq.
      do 4 f_equal. apply set_eq. intros z. rewrite !elem_of_union. tauto.
  - eexists. eexists. eexists. split; [exact E1 |].
    split; [| split; [exact E2 |]].
    + rewrite (AddIgnoreDependency_spec b cfgb ksb y _ Hwf1);
        [reflexivity | done |].
      cbn [maps]. by rewrite list_lookup_insert_ne.
    + rewrite (AddIgnoreDependency_spec a cfga ksa x _ Hwf2);
        [| done | cbn [maps]; by rewrite list_lookup_insert_ne].
      cbn [configs lists maps]. do 3 f_equal.
      by apply list_insert_insert_ne.
Qed.

Lemma AddIgnoreDependency_commute_witness :
  ∃ h1 h2 h',
    AddIgnoreDependency 1 "x" demo_heap = Some (tt, h1) ∧
    AddIgnoreDependency 2 " y" h1 = Some (tt, h') ∧
    AddIgnoreDependency 2 " y" demo_heap = Some (tt, h2) ∧
    AddIgnoreDependency 1 "x" h2 = Some (tt, h').
Proof.
  apply (AddIgnoreDependency_commute demo_heap 1 2 "x" " y").
  - exists demo_calls. vm_compute. reflexivity.
  - vm_compute. eexists. reflexivity.
  - vm_compute. eexists. reflexivity.
Defined.

(** X7. On a heap the package builds, patterns added through a node are
    appended to the values of its exclusion list in the order of the calls,
    duplicates kept. *)
Theorem excluded_patterns_in_call_order (h : Heap) (c : loc) (gs : list string) :
  reachable h → node h c →
  ∃ vs h1,
    (do l <- ExcludedPatterns c; singlylinkedlist_Values l) h = Some (vs, h) ∧
    run_calls (map (CallAddExcludedPattern c) gs) h = Some (tt, h1) ∧
    (do l <- ExcludedPatterns c; singlylinkedlist_Values l) h1
    = Some (vs ++ gs, h1).
Proof.
  intros Hr [cfg Hc]. pose proof (reachable_wf _ Hr) as Hwf. clear Hr.
  destruct (wf_excluded h Hwf _ _ Hc) as (l & Hl & Hlt).
  apply lookup_lt_is_Some in Hlt as [vs Hvs].
  exists vs.
  enough (∃ h1, run_calls (map (CallAddExcludedPattern c) gs) h = Some (tt, h1) ∧
                (do l <- ExcludedPatterns c; singlylinkedlist_Values l) h1
                = Some (vs ++ gs, h1)) as (h1 & ? & ?).
  { exists h1. split; [by eapply ExcludedPatterns_Values_spec | done]. }
  revert h vs Hwf Hc Hvs. induction gs as [| g gs IH]; intros h vs Hwf Hc Hvs.
  - exists h. split; [done |]. rewrite app_nil_r.
    by eapply ExcludedPatterns_Values_spec.
  - pose proof (AddExcludedPattern_spec c cfg l vs g h Hc Hl Hvs) as E.
    destruct (AddExcludedPattern_wf _ _ _ _ _ Hwf E) as [Hwf1 _].
    destruct (IH _ (vs ++ [g]) Hwf1) as (h1 & Hrun & Hval); [done | |].
    { cbn [lists]. apply list_lookup_insert_eq. by eapply lookup_lt_Some. }
    exists h1. split.
    + cbn [map run_calls run_call]. unfold bind at 1. by rewrite E.
    + by rewrite <- app_assoc in Hval.
Qed.

Lemma excluded_patterns_in_call_order_witness :
  ∃ vs h1,
    (do l <- ExcludedPatterns 1; singlylinkedlist_Values l) demo_heap
    = Some (vs, demo_heap) ∧
    run_calls (map (CallAddExcludedPattern 1) ["a.ts"; "b.ts"]) demo_heap
    = Some (tt, h1) ∧
    (do l <- ExcludedPatterns 1; singlylinkedlist_Values l) h1
    = Some (vs ++ ["a.ts"; "b.ts"], h1).
Proof.
  apply (excluded_patterns_in_call_order demo_heap 1 ["a.ts"; "b.ts"]).
  - exists demo_calls. vm_compute. reflexivity.
  - vm_compute. eexists. reflexivity.
Defined.

Lemma shares_store h c cfg cfg' :
  shares h → configs h !! c = Some cfg →
  parent cfg' = parent cfg → excludedPatterns cfg' = excludedPatterns cfg →
  shares (mkHeap (<[c := cfg']> (configs h)) (lists h) (maps h)).
Proof.
  intros Hsh Hc Hp He c0 cfg0 p pcfg H0 Hp0 Hpc. cbn [configs] in *.
  pose proof (lookup_lt_Some _ _ _ Hc) as Hlt.
  assert (Hold : ∀ n x, <[c := cfg']> (configs h) !! n = Some x →
    ∃ x0, configs h !! n = Some x0 ∧ parent x = parent x0 ∧
          excludedPatterns x = excludedPatterns x0).
  { intros n x Hx. destruct (decide (n = c)) as [-> | Hne].
    - rewrite list_lookup_insert_eq in Hx by done. simplify_eq. eauto.
    - rewrite list_lookup_insert_ne in Hx by done. eauto. }
  destruct (Hold _ _ H0) as (x0 & Hx0 & Ep & Ee).
  destruct (Hold _ _ Hpc) as (y0 & Hy0 & _ & Ee').
  rewrite Ee, Ee'. apply (Hsh c0 x0 p y0); [done | congruence | done].
Qed.

Lemma run_call_shares k h u h' :
  wf h → shares h → run_call k h = Some (u, h') → shares h'.
Proof.
  intros Hwf Hsh H.
  assert (Hset : ∀ s c, run_setter s c h = Some (u, h') → shares h').
  { intros s c Hs.
    assert (Hn : node h c).
    { destruct s; cbn [run_setter] in Hs; unfold node;
        unfold SetGenerationEnabled, SetValidateImportStatements,
          SetEnvironmentType, SetLibraryNamingConvention,
          SetTestNamingConvention, bind, load in Hs;
        by destruct (configs h !! c). }
    destruct Hn as [cfg Hc].
    destruct (run_setter_spec s c cfg h Hc) as (cfg' & E & Hp & He & _).
    rewrite E in Hs. simplify_eq. by eapply shares_store. }
  destruct k as [rr | c | c pat | c en | c dep | c v | c e | c s | c s];
    cbn [run_call] in H.
  - unfold bind in H. destruct (New_spec rr h) as (cfg & E & ->).
    rewrite E in H. unfold ret in H. simplify_eq.
    intros c0 cfg0 p pcfg H0 Hp0 Hpc. cbn [configs] in *.
    apply lookup_app_Some in H0 as [H0 | [_ H0]].
    + pose proof (wf_parent h Hwf _ _ _ H0 Hp0).
      pose proof (lookup_lt_Some _ _ _ H0).
      rewrite lookup_app_l in Hpc by lia. eauto.
    + apply list_lookup_singleton_Some in H0 as [_ <-]. done.
  - unfold bind in H. destruct (NewChild c h) as [[c1 h1] |] eqn:E; [| done].
    unfold ret in H. simplify_eq.
    destruct (NewChild_node _ _ _ E) as [cfg Hc].
    rewrite (NewChild_spec _ _ _ Hc) in E. simplify_eq.
    intros c0 cfg0 p pcfg H0 Hp0 Hpc. cbn [configs] in *.
    apply lookup_app_Some in H0 as [H0 | [_ H0]].
    + pose proof (wf_parent h Hwf _ _ _ H0 Hp0).
      pose proof (lookup_lt_Some _ _ _ H0).
      rewrite lookup_app_l in Hpc by lia. eauto.
    + apply list_lookup_singleton_Some in H0 as [_ <-].
      cbn [parent excludedPatterns] in *. simplify_eq.
      rewrite lookup_app_l in Hpc by (by eapply lookup_lt_Some).
      congruence.
  - apply AddExcludedPattern_inv in H as (? & ? & ? & ? & ? & ? & ->). done.
  - by eapply (Hset (SetGen en)).
  - apply AddIgnoreDependency_inv in H as (? & ? & ? & ? & ? & ? & ->). done.
  - by eapply (Hset (SetValidate v)).
  - by eapply (Hset (SetEnv e)).
  - by eapply (Hset (SetLibrary s)).
  - by eapply (Hset (SetTest s)).
Qed.

Lemma reachable_shares h : reachable h → shares h.
Proof.
  intros [ks H].
  enough (∀ h0, wf h0 → shares h0 → run_calls ks h0 = Some (tt, h) → shares h)
    as Hgen.
  { eapply Hgen; [apply wf_empty | | exact H].
    intros c cfg p pcfg Hc. cbn [configs empty_heap] in Hc.
    by rewrite lookup_nil in Hc. }
  clear H. induction ks as [| k ks IH]; intros h0 Hwf Hsh H; cbn in H.
  - unfold ret in H. by simplify_eq.
  - unfold bind in H. destruct (run_call k h0) as [[[] h1] |] eqn:E; [| done].
    destruct (run_call_wf _ _ _ _ Hwf E) as [Hwf1 _].
    apply (IH h1); [exact Hwf1 | exact (run_call_shares _ _ _ _ Hwf Hsh E) | exact H].
Qed.

Lemma shares_ancestor h c a cfg acfg :
  shares h → ancestor_or_self h c a →
  configs h !! c = Some cfg → configs h !! a = Some acfg →
  excludedPatterns cfg = excludedPatterns acfg.
Proof.
  intros Hsh Haos. revert cfg.
  induction Haos as [c Hn | c cfg0 p a Hc Hp Haos IH]; intros cfg Hcfg Ha.
  - congruence.
  - assert (cfg0 = cfg) as -> by congruence.
    destruct (ancestor_or_self_node _ _ _ Haos) as [[pcfg Hpc] _].
    rewrite (Hsh _ _ _ _ Hc Hp Hpc). by apply IH.
Qed.

(** X8. On a heap the package builds, all nodes below one node [r] return
    the same list pointer from [ExcludedPatterns]: a pattern added through
    any of them is the last value read through any other, siblings and
    ancestors included. *)
Theorem excluded_patterns_shared_in_tree (h : Heap) (c c' r : loc) :
  reachable h → ancestor_or_self h c r → ancestor_or_self h c' r →
  ∃ l vs,
    ExcludedPatterns c h = Some (Some l, h) ∧
    ExcludedPatterns c' h = Some (Some l, h) ∧
    lists h !! l = Some vs ∧
    ∀ g, ∃ h1, AddExcludedPattern c g h = Some (tt, h1) ∧
               (do l' <- ExcludedPatterns c'; singlylinkedlist_Values l') h1
               = Some (vs ++ [g], h1).
Proof.
  intros Hr Hc Hc'. pose proof (reachable_wf _ Hr) as Hwf.
  pose proof (reachable_shares _ Hr) as Hsh.
  destruct (ancestor_or_self_node _ _ _ Hc) as [[cfg Hcfg] [rcfg Hrcfg]].
  destruct (ancestor_or_self_node _ _ _ Hc') as [[cfg' Hcfg'] _].
  pose proof (shares_ancestor _ _ _ _ _ Hsh Hc Hcfg Hrcfg) as E.
  pose proof (shares_ancestor _ _ _ _ _ Hsh Hc' Hcfg' Hrcfg) as E'.
  destruct (wf_excluded h Hwf _ _ Hcfg) as (l & Hl & Hlt).
  apply lookup_lt_is_Some in Hlt as [vs Hvs].
  assert (Hl' : excludedPatterns cfg' = Some l) by congruence.
  exists l, vs.
  split; [unfold ExcludedPatterns, bind, load, ret; by rewrite Hcfg, Hl |].
  split; [unfold ExcludedPatterns, bind, load, ret; by rewrite Hcfg', Hl' |].
  split; [done |]. intros g. eexists.
  split; [by eapply AddExcludedPattern_spec |].
  eapply ExcludedPatterns_Values_spec; [exact Hcfg' | exact Hl' |].
  cbn [lists]. apply list_lookup_insert_eq. by eapply lookup_lt_Some.
Qed.

Lemma excluded_patterns_shared_in_tree_witness :
  ∃ l vs,
    ExcludedPatterns 2 sibling_heap = Some (Some l, sibling_heap) ∧
    ExcludedPatterns 1 sibling_heap = Some (Some l, sibling_heap) ∧
    lists sibling_heap !! l = Some vs ∧
    ∀ g, ∃ h1, AddExcludedPattern 2 g sibling_heap = Some (tt, h1) ∧
               (do l' <- ExcludedPatterns 1; singlylinkedlist_Values l') h1
               = Some (vs ++ [g], h1).
Proof.
  assert (Hroot : ancestor_or_self sibling_heap 0 0).
  { apply aos_self. vm_compute. eexists. reflexivity. }
  apply (excluded_patterns_shared_in_tree sibling_heap 2 1 0).
  - exists sibling_calls. vm_compute. reflexivity.
  - eapply aos_step; [vm_compute; reflexivity | reflexivity | exact Hroot].
  - eapply aos_step; [vm_compute; reflexivity | reflexivity | exact Hroot].
Defined.

(** X10. On a heap the package builds, right after [NewChild] the child
    answers every query but [Parent] as its parent does: the exclusion list
    and its values, the two flags, both rendered names and, the map of the
    child being empty, [IgnoresDependency]. *)
Theorem child_answers_as_parent (h : Heap) (n : loc) :
  reachable h → node h n →
  ∃ c h1,
    NewChild n h = Some (c, h1) ∧
    ∀ q, q ≠ QParent →
      ∃ a, run_query q c h1 = Some (a, h1) ∧ run_query q n h1 = Some (a, h1).
Proof.
  intros Hr [cfgn Hn]. pose proof (reachable_wf _ Hr) as Hwf.
  pose proof (NewChild_spec _ _ _ Hn) as E.
  destruct (NewChild_wf _ _ _ _ Hwf E) as [Hwf1 Hle].
  set (cfgc := mkConfig (Some n) (generationEnabled cfgn) (repoRoot cfgn)
         (environmentType cfgn) (excludedPatterns cfgn)
         (Some (length (maps h))) (validateImportStatements cfgn)
         (libraryNamingConvention cfgn) (testNamingConvention cfgn)) in *.
  set (h1 := mkHeap (configs h ++ [cfgc]) (lists h) (maps h ++ [∅])) in *.
  exists (length (configs h)), h1. split; [exact E |]. intros q Hq.
  assert (Hc1 : configs h1 !! length (configs h) = Some cfgc).
  { cbn [h1 configs]. by rewrite lookup_app_r, Nat.sub_diag. }
  assert (Hn1 : configs h1 !! n = Some cfgn).
  { cbn [h1 configs]. by apply lookup_app_l_Some. }
  apply (run_query_reads_same q h1 _ cfgc h1 n cfgn Hwf1 Hwf1 Hc1 Hn1).
  destruct q; cbn [reads_same]; try done.
  - destruct (wf_excluded h Hwf _ _ Hn) as (l & Hl & _). by exists l, l.
  - split.
    + intros (a & Haos & Hli).
      inversion Haos as [c0 Hnode | c0 cfg0 p a0 Hc0 Hp0 Haos0]; subst.
      * exfalso. destruct Hli as (cfg & m & ks & Hc & Hm & Hks & Hin).
        assert (cfg = cfgc) as -> by congruence. cbn [cfgc ignoreDependencies] in Hm.
        simplify_eq. cbn [h1 maps] in Hks.
        rewrite lookup_app_r, Nat.sub_diag in Hks by done.
        cbn in Hks. simplify_eq; set_solver.
      * assert (cfg0 = cfgc) as -> by congruence. cbn [cfgc parent] in Hp0.
        simplify_eq. by exists a.
    + intros (a & Haos & Hli). exists a. split; [| done].
      by apply (aos_step h1 _ cfgc n a).
Qed.

Lemma child_answers_as_parent_witness :
  ∃ c h1,
    NewChild 1 demo_heap = Some (c, h1) ∧
    ∀ q, q ≠ QParent →
      ∃ a, run_query q c h1 = Some (a, h1) ∧ run_query q 1 h1 = Some (a, h1).
Proof.
  apply (child_answers_as_parent demo_heap 1).
  - exists demo_calls. vm_compute. reflexivity.
  - vm_compute. eexists. reflexivity.
Defined.

Lemma bytes_str l : bytes (str l) = l.
Proof. apply list_ascii_of_string_of_list_ascii. Qed.

Lemma str_app l1 l2 : str (l1 ++ l2) = str l1 +:+ str l2.
Proof.
  unfold str. induction l1 as [| c l1 IH]; [done |]. cbn. by rewrite IH.
Qed.

Lemma ReplaceAll_placeholder_alone new rest :
  (∀ j, HasPrefix (drop j rest) placeholder = false) →
  ReplaceAll (str (placeholder ++ rest))
    packageNameNamingConventionSubstitution new
  = new +:+ str rest.
Proof.
  intros Hno. rewrite ReplaceAll_replace_every by done.
  rewrite bytes_str. fold placeholder.
  rewrite replace_every_match; [| done | ].
  2: { apply HasPrefix_spec. by rewrite take_app_length. }
  rewrite drop_app_length, replace_every_none by done.
  by rewrite str_app, str_bytes.
Qed.

(** X11. What a config fresh from [New] answers, on any heap: no name is
    ignored, the library name of a package is the package name, its test
    name the package name followed by [_test], and the exclusion list is
    empty. *)
Theorem New_root_answers (repoRoot_ : string) (h : Heap) :
  ∃ c h1,
    New repoRoot_ h = Some (c, h1) ∧
    (∀ d, IgnoresDependency c d h1 = Some (false, h1)) ∧
    (∀ p, RenderLibraryName c p h1 = Some (p, h1)) ∧
    (∀ p, RenderTestName c p h1 = Some (p +:+ "_test", h1)) ∧
    (do l <- ExcludedPatterns c; singlylinkedlist_Values l) h1 = Some ([], h1).
Proof.
  destruct (New_spec repoRoot_ h) as (cfg & E & Hcfg).
  set (h1 := mkHeap (configs h ++ [cfg]) (lists h ++ [[]]) (maps h ++ [∅])) in *.
  exists (length (configs h)), h1. split; [exact E |].
  assert (Hc : configs h1 !! length (configs h) = Some cfg).
  { cbn [h1 configs]. by rewrite lookup_app_r, Nat.sub_diag. }
  assert (Hm : maps h1 !! length (maps h) = Some ∅).
  { cbn [h1 maps]. by rewrite lookup_app_r, Nat.sub_diag. }
  assert (Hl : lists h1 !! length (lists h) = Some []).
  { cbn [h1 lists]. by rewrite lookup_app_r, Nat.sub_diag. }
  assert (Hp : parent cfg = None) by (by subst cfg).
  assert (Hi : ignoreDependencies cfg = Some (length (maps h))) by (by subst cfg).
  assert (He : excludedPatterns cfg = Some (length (lists h))) by (by subst cfg).
  assert (Hlib : libraryNamingConvention cfg = str (placeholder ++ []))
    by (by subst cfg).
  assert (Htest : testNamingConvention cfg = str (placeholder ++ bytes "_test"))
    by (by subst cfg).
  clearbody h1. clear Hcfg E. repeat split.
  - intros d.
    unfold IgnoresDependency, IgnoresDependency_fuel, bind, load, map_lookup.
    rewrite Hc, Hi, Hm, Hp.
    rewrite bool_decide_eq_false_2 by set_solver.
    by destruct (length (configs h1)).
  - intros p. unfold RenderLibraryName, bind, load, ret.
    rewrite Hc, Hlib. rewrite ReplaceAll_placeholder_alone; [| by intros []].
    change (str []) with "". do 2 f_equal.
    clear. induction p as [| a p IH]; [done |].
    change (String a (p +:+ "") = String a p). by rewrite IH.
  - intros p. unfold RenderTestName, bind, load, ret.
    rewrite Hc, Htest. rewrite ReplaceAll_placeholder_alone; [done |].
    intros j. do 6 (destruct j as [| j]; [reflexivity |]). reflexivity.
  - unfold ExcludedPatterns, singlylinkedlist_Values, bind, load, ret.
    by rewrite Hc, He, Hl.
Qed.

(** X12. On a heap the package builds, [Parent] of a node returns nil or a
    node allocated before it; following [Parent] from any node leads to a
    root, a node whose [Parent] is nil; and no later call of the package
    changes what [Parent] returns. *)
Theorem parent_chain (h : Heap) (c : loc) :
  reachable h → node h c →
  ∃ pp,
    Parent c h = Some (pp, h) ∧
    (∀ p, pp = Some p → p < c ∧ node h p) ∧
    (∃ r, ancestor_or_self h c r ∧ Parent r h = Some (None, h)) ∧
    (∀ ks h', run_calls ks h = Some (tt, h') → Parent c h' = Some (pp, h')).
Proof.
  intros Hr Hn. pose proof (reachable_wf _ Hr) as Hwf.
  destruct Hn as [cfg Hc]. exists (parent cfg).
  split; [unfold Parent, bind, load, ret; by rewrite Hc |]. split.
  { intros p Hp. pose proof (wf_parent h Hwf _ _ _ Hc Hp) as Hlt.
    split; [done |]. apply lookup_lt_is_Some.
    apply lookup_lt_Some in Hc. lia. }
  split.
  { clear Hr. revert cfg Hc. induction c as [c IH] using lt_wf_ind.
    intros cfg Hc. destruct (parent cfg) as [p |] eqn:Hp.
    - pose proof (wf_parent h Hwf _ _ _ Hc Hp) as Hlt.
      assert (Hnp : is_Some (configs h !! p)).
      { apply lookup_lt_is_Some. apply lookup_lt_Some in Hc. lia. }
      destruct Hnp as [pcfg Hpc].
      destruct (IH p Hlt pcfg Hpc) as (r & Haos & Hroot).
      exists r. split; [by eapply aos_step | done].
    - exists c. split; [apply aos_self; by exists cfg |].
      unfold Parent, bind, load, ret. by rewrite Hc, Hp. }
  intros ks h' Hrun.
  destruct (run_calls_wf _ _ _ _ Hwf Hrun) as [_ Hle].
  destruct (le_configs _ _ Hle _ _ Hc) as (cfg' & Hc' & Hp' & _).
  unfold Parent, bind, load, ret. by rewrite Hc', Hp'.
Qed.

Lemma parent_chain_witness :
  ∃ pp,
    Parent 2 demo_heap = Some (pp, demo_heap) ∧
    (∀ p, pp = Some p → p < 2 ∧ node demo_heap p) ∧
    (∃ r, ancestor_or_self demo_heap 2 r ∧
          Parent r demo_heap = Some (None, demo_heap)) ∧
    (∀ ks h', run_calls ks demo_heap = Some (tt, h') →
              Parent 2 h' = Some (pp, h')).
Proof.
  apply (parent_chain demo_heap 2).
  - exists demo_calls. vm_compute. reflexivity.
  - vm_compute. eexists. reflexivity.
Defined.

(** [ReplaceAll] on a template with one placeholder and no other dollar
    sign. *)
Lemma ReplaceAll_single_placeholder (pre post : list ascii) (p : string) :
  forallb (λ b, negb (Ascii.eqb b "$")) (pre ++ post) = true →
  ReplaceAll (str (pre ++ placeholder ++ post))
    packageNameNamingConventionSubstitution p
  = str pre +:+ p +:+ str post.
Proof.
  intros Hno.
  assert (Hnd : ∀ b, b ∈ pre ++ post → b ≠ "$"%char).
  { intros b Hb. rewrite forallb_forall in Hno.
    apply list_elem_of_In, Hno in Hb. apply negb_true_iff in Hb.
    by apply Ascii.eqb_neq. }
  assert (Hhead : ∀ s, (∀ b, b ∈ s → b ≠ "$"%char) → ∀ t j,
            (j < length s)%nat → HasPrefix (drop j (s ++ t)) placeholder = false).
  { intros s Hs t j Hj. rewrite drop_app_le by lia.
    destruct (drop j s) as [| b s'] eqn:Ed.
    - apply (f_equal length) in Ed. rewrite length_drop in Ed. cbn in Ed. lia.
    - cbn. destruct (Ascii.eqb_spec b "$") as [-> | _]; [| done].
      exfalso. apply (Hs "$"%char); [| done].
      rewrite <- (take_drop j s), Ed. apply elem_of_app. right. left. }
  rewrite ReplaceAll_replace_every by done. rewrite bytes_str.
  fold placeholder.
  rewrite (replace_every_copy placeholder (bytes p) (length pre)).
  2: { intros j Hj. apply Hhead; [| done].
       intros b Hb. apply Hnd, elem_of_app. by left. }
  rewrite take_app_length, drop_app_length.
  rewrite replace_every_match; [| done |].
  2: { apply HasPrefix_spec. by rewrite take_app_length. }
  rewrite drop_app_length, replace_every_none.
  - by rewrite !str_app, str_bytes.
  - intros j. destruct (decide (j < length post)%nat) as [Hlt | Hge].
    + rewrite <- (app_nil_r post). apply Hhead; [| done].
      intros b Hb. apply Hnd, elem_of_app. by right.
    + by rewrite drop_ge by lia.
Qed.

(** X13. A template with one placeholder and no other dollar sign, once
    set on a node, renders every package name as the text before the
    placeholder, the name, and the text after it: [$package_name$_my_lib]
    renders [foo] as [foo_my_lib]. *)
Theorem Render_single_placeholder
    (h : Heap) (c : loc) (pre post : list ascii) :
  node h c →
  forallb (λ b, negb (Ascii.eqb b "$")) (pre ++ post) = true →
  (∃ h1, SetLibraryNamingConvention c (str (pre ++ placeholder ++ post)) h
         = Some (tt, h1) ∧
         ∀ p, RenderLibraryName c p h1 = Some (str pre +:+ p +:+ str post, h1)) ∧
  (∃ h1, SetTestNamingConvention c (str (pre ++ placeholder ++ post)) h
         = Some (tt, h1) ∧
         ∀ p, RenderTestName c p h1 = Some (str pre +:+ p +:+ str post, h1)).
Proof.
  intros [cfg Hc] Hno. pose proof (lookup_lt_Some _ _ _ Hc) as Hlt. split.
  - destruct (run_setter_fields (SetLibrary (str (pre ++ placeholder ++ post)))
                c cfg h Hc) as (cfg' & E & _ & _ & _ & _ & _ & _ & _ & Hl & _).
    eexists. split; [exact E |]. intros p.
    unfold RenderLibraryName, bind, load, ret. cbn [configs].
    rewrite list_lookup_insert_eq by done.
    by rewrite Hl, ReplaceAll_single_placeholder.
  - destruct (run_setter_fields (SetTest (str (pre ++ placeholder ++ post)))
                c cfg h Hc) as (cfg' & E & _ & _ & _ & _ & _ & _ & _ & _ & Ht).
    eexists. split; [exact E |]. intros p.
    unfold RenderTestName, bind, load, ret. cbn [configs].
    rewrite list_lookup_insert_eq by done.
    by rewrite Ht, ReplaceAll_single_placeholder.
Qed.

Lemma Render_single_placeholder_witness :
  (∃ h1, SetLibraryNamingConvention 2
           (str (bytes "lib_" ++ placeholder ++ bytes "_ts")) demo_heap
         = Some (tt, h1) ∧
         ∀ p, RenderLibraryName 2 p h1
              = Some (str (bytes "lib_") +:+ p +:+ str (bytes "_ts"), h1)) ∧
  (∃ h1, SetTestNamingConvention 2
           (str (bytes "lib_" ++ placeholder ++ bytes "_ts")) demo_heap
         = Some (tt, h1) ∧
         ∀ p, RenderTestName 2 p h1
              = Some (str (bytes "lib_") +:+ p +:+ str (bytes "_ts"), h1)).
Proof.
  apply (Render_single_placeholder demo_heap 2 (bytes "lib_") (bytes "_ts")).
  - vm_compute. eexists. reflexivity.
  - reflexivity.
Defined.

Lemma reads_same_refl q h n cfg :
  wf h → configs h !! n = Some cfg → reads_same q h n cfg h n cfg.
Proof.
  intros Hwf Hc. destruct q; cbn [reads_same]; try done.
  destruct (wf_excluded h Hwf _ _ Hc) as (l & Hl & _). by exists l, l.
Qed.

(** X14. On a heap the package builds, no method panics on a node: every
    call whose receiver is a node returns and leaves a heap the package
    builds, and every query on a node returns an answer and leaves the heap
    as it is. *)
Theorem methods_never_panic (h : Heap) :
  reachable h →
  (∀ k, (∀ c, receiver k = Some c → node h c) →
        ∃ h', run_call k h = Some (tt, h') ∧ reachable h') ∧
  (∀ q n, node h n → ∃ a, run_query q n h = Some (a, h)).
Proof.
  intros Hr. pose proof (reachable_wf _ Hr) as Hwf. split.
  - intros k Hrec.
    enough (∃ h', run_call k h = Some (tt, h')) as [h' E].
    { exists h'. split; [done |]. apply (reachable_run_calls [k] h tt h' Hr).
      cbn. unfold bind. by rewrite E. }
    assert (Hset : ∀ s c, node h c → ∃ h', run_setter s c h = Some (tt, h')).
    { intros s c [cfg Hc]. destruct (run_setter_spec s c cfg h Hc) as (? & E & _).
      eauto. }
    destruct k as [rr | c | c pat | c en | c dep | c v | c e | c s | c s];
      cbn [run_call receiver] in *.
    + destruct (New_spec rr h) as (cfg & E & _). unfold bind, ret.
      rewrite E. eauto.
    + destruct (Hrec c eq_refl) as [cfg Hc]. unfold bind, ret.
      rewrite (NewChild_spec _ _ _ Hc). eauto.
    + destruct (Hrec c eq_refl) as [cfg Hc].
      destruct (wf_excluded h Hwf _ _ Hc) as (l & Hl & Hlt).
      apply lookup_lt_is_Some in Hlt as [vs Hvs].
      rewrite (AddExcludedPattern_spec c cfg l vs pat h Hc Hl Hvs). eauto.
    + apply (Hset (SetGen en)), Hrec. done.
    + destruct (Hrec c eq_refl) as [cfg Hc].
      destruct (wf_map_lookup _ _ _ Hwf Hc) as [_ [ks Hks]].
      rewrite (AddIgnoreDependency_spec c cfg ks dep h Hwf Hc Hks). eauto.
    + apply (Hset (SetValidate v)), Hrec. done.
    + apply (Hset (SetEnv e)), Hrec. done.
    + apply (Hset (SetLibrary s)), Hrec. done.
    + apply (Hset (SetTest s)), Hrec. done.
  - intros q n [cfg Hc].
    destruct (run_query_reads_same q h n cfg h n cfg Hwf Hwf Hc Hc)
      as (a & E & _); [by apply reads_same_refl |]. eauto.
Qed.

Lemma methods_never_panic_witness :
  (∀ k, (∀ c, receiver k = Some c → node demo_heap c) →
        ∃ h', run_call k demo_heap = Some (tt, h') ∧ reachable h') ∧
  (∀ q n, node demo_heap n → ∃ a, run_query q n demo_heap = Some (a, demo_heap)).
Proof.
  apply (methods_never_panic demo_heap).
  exists demo_calls. vm_compute. reflexivity.
Defined.

Lemma separate_store h c cfg cfg' :
  separate h → configs h !! c = Some cfg →
  parent cfg' = parent cfg → excludedPatterns cfg' = excludedPatterns cfg →
  separate (mkHeap (<[c := cfg']> (configs h)) (lists h) (maps h)).
Proof.
  intros Hsep Hc Hp He r r' x x' Hr Hr' Hpr Hpr' Hex. cbn [configs] in *.
  pose proof (lookup_lt_Some _ _ _ Hc) as Hlt.
  assert (Hold : ∀ n y, <[c := cfg']> (configs h) !! n = Some y →
    ∃ y0, configs h !! n = Some y0 ∧ parent y = parent y0 ∧
          excludedPatterns y = excludedPatterns y0).
  { intros n y Hy. destruct (decide (n = c)) as [-> | Hne].
    - rewrite list_lookup_insert_eq in Hy by done. simplify_eq. eauto.
    - rewrite list_lookup_insert_ne in Hy by done. eauto. }
  destruct (Hold _ _ Hr) as (x0 & Hx0 & Ep & Ee).
  destruct (Hold _ _ Hr') as (y0 & Hy0 & Ep' & Ee').
  apply (Hsep r r' x0 y0); congruence.
Qed.

Lemma run_call_separate k h u h' :
  wf h → separate h → run_call k h = Some (u, h') → separate h'.
Proof.
  intros Hwf Hsep H.
  assert (Hset : ∀ s c, run_setter s c h = Some (u, h') → separate h').
  { intros s c Hs.
    assert (Hn : node h c).
    { destruct s; cbn [run_setter] in Hs; unfold node;
        unfold SetGenerationEnabled, SetValidateImportStatements,
          SetEnvironmentType, SetLibraryNamingConvention,
          SetTestNamingConvention, bind, load in Hs;
        by destruct (configs h !! c). }
    destruct Hn as [cfg Hc].
    destruct (run_setter_spec s c cfg h Hc) as (cfg' & E & Hp & He & _).
    rewrite E in Hs. simplify_eq. by eapply separate_store. }
  destruct k as [rr | c | c pat | c en | c dep | c v | c e | c s | c s];
    cbn [run_call] in H.
  - unfold bind in H. destruct (New_spec rr h) as (cfg & E & ->).
    rewrite E in H. unfold ret in H. simplify_eq.
    intros r r' x x' Hr Hr' Hpr Hpr' Hex. cbn [configs] in *.
    apply lookup_app_Some in Hr as [Hr | [Hge Hr]];
      apply lookup_app_Some in Hr' as [Hr' | [Hge' Hr']].
    + by eapply Hsep.
    + apply list_lookup_singleton_Some in Hr' as [_ <-].
      cbn [excludedPatterns] in Hex.
      destruct (wf_excluded h Hwf _ _ Hr) as (l & Hl & Hlt).
      rewrite Hl in Hex. simplify_eq. lia.
    + apply list_lookup_singleton_Some in Hr as [_ <-].
      cbn [excludedPatterns] in Hex.
      destruct (wf_excluded h Hwf _ _ Hr') as (l & Hl & Hlt).
      rewrite Hl in Hex. simplify_eq. lia.
    + apply list_lookup_singleton_Some in Hr as [Hr _].
      apply list_lookup_singleton_Some in Hr' as [Hr' _]. lia.
  - unfold bind in H. destruct (NewChild c h) as [[c1 h1] |] eqn:E; [| done].
    unfold ret in H. simplify_eq.
    destruct (NewChild_node _ _ _ E) as [cfg Hc].
    rewrite (NewChild_spec _ _ _ Hc) in E. simplify_eq.
    intros r r' x x' Hr Hr' Hpr Hpr' Hex. cbn [configs] in *.
    apply lookup_app_Some in Hr as [Hr | [Hge Hr]];
      apply lookup_app_Some in Hr' as [Hr' | [Hge' Hr']].
    + by eapply Hsep.
    + apply list_lookup_singleton_Some in Hr' as [_ <-]. done.
    + apply list_lookup_singleton_Some in Hr as [_ <-]. done.
    + apply list_lookup_singleton_Some in Hr as [_ <-]. done.
  - apply AddExcludedPattern_inv in H as (? & ? & ? & ? & ? & ? & ->). done.
  - by eapply (Hset (SetGen en)).
  - apply AddIgnoreDependency_inv in H as (? & ? & ? & ? & ? & ? & ->). done.
  - by eapply (Hset (SetValidate v)).
  - by eapply (Hset (SetEnv e)).
  - by eapply (Hset (SetLibrary s)).
  - by eapply (Hset (SetTest s)).
Qed.

Lemma reachable_separate h : reachable h → separate h.
Proof.
  intros [ks H].
  enough (∀ h0, wf h0 → separate h0 → run_calls ks h0 = Some (tt, h) →
                separate h) as Hgen.
  { eapply Hgen; [apply wf_empty | | exact H].
    intros r r' cfg cfg' Hr. cbn [configs empty_heap] in Hr.
    by rewrite lookup_nil in Hr. }
  clear H. induction ks as [| k ks IH]; intros h0 Hwf Hsep H; cbn in H.
  - unfold ret in H. by simplify_eq.
  - unfold bind in H. destruct (run_call k h0) as [[[] h1] |] eqn:E; [| done].
    destruct (run_call_wf _ _ _ _ Hwf E) as [Hwf1 _].
    apply (IH h1); [exact Hwf1 | exact (run_call_separate _ _ _ _ Hwf Hsep E) | exact H].
Qed.

(** X9. On a heap the package builds, nodes below two different roots have
    two different exclusion lists: a pattern added below one root is not
    seen below the other. *)
Theorem excluded_patterns_separate_trees (h : Heap) (c c' r r' : loc) :
  reachable h →
  ancestor_or_self h c r → ancestor_or_self h c' r' →
  Parent r h = Some (None, h) → Parent r' h = Some (None, h) → r ≠ r' →
  ∃ l l' vs,
    ExcludedPatterns c h = Some (Some l, h) ∧
    ExcludedPatterns c' h = Some (Some l', h) ∧ l ≠ l' ∧
    (do x <- ExcludedPatterns c'; singlylinkedlist_Values x) h = Some (vs, h) ∧
    ∀ g, ∃ h1, AddExcludedPattern c g h = Some (tt, h1) ∧
               (do x <- ExcludedPatterns c'; singlylinkedlist_Values x) h1
               = Some (vs, h1).
Proof.
  intros Hr Hc Hc' Hroot Hroot' Hne. pose proof (reachable_wf _ Hr) as Hwf.
  pose proof (reachable_shares _ Hr) as Hsh.
  pose proof (reachable_separate _ Hr) as Hsep.
  destruct (ancestor_or_self_node _ _ _ Hc) as [[cfg Hcfg] [rcfg Hrcfg]].
  destruct (ancestor_or_self_node _ _ _ Hc') as [[cfg' Hcfg'] [rcfg' Hrcfg']].
  pose proof (shares_ancestor _ _ _ _ _ Hsh Hc Hcfg Hrcfg) as E.
  pose proof (shares_ancestor _ _ _ _ _ Hsh Hc' Hcfg' Hrcfg') as E'.
  unfold Parent, bind, load, ret in Hroot, Hroot'.
  rewrite Hrcfg in Hroot. rewrite Hrcfg' in Hroot'.
  assert (Hp : parent rcfg = None) by congruence.
  assert (Hp' : parent rcfg' = None) by congruence.
  destruct (wf_excluded h Hwf _ _ Hcfg) as (l & Hl & Hlt).
  destruct (wf_excluded h Hwf _ _ Hcfg') as (l' & Hl' & Hlt').
  apply lookup_lt_is_Some in Hlt as [vs Hvs].
  apply lookup_lt_is_Some in Hlt' as [vs' Hvs'].
  assert (Hll : l ≠ l').
  { intros ->. apply Hne. apply (Hsep r r' rcfg rcfg'); congruence. }
  exists l, l', vs'.
  split; [unfold ExcludedPatterns, bind, load, ret; by rewrite Hcfg, Hl |].
  split; [unfold ExcludedPatterns, bind, load, ret; by rewrite Hcfg', Hl' |].
  split; [done |].
  split; [by eapply ExcludedPatterns_Values_spec |].
  intros g. eexists.
  split; [by eapply AddExcludedPattern_spec |].
  eapply ExcludedPatterns_Values_spec; [exact Hcfg' | exact Hl' |].
  cbn [lists]. by rewrite list_lookup_insert_ne.
Qed.

Lemma excluded_patterns_separate_trees_witness :
  ∃ l l' vs,
    ExcludedPatterns 2 forest_heap = Some (Some l, forest_heap) ∧
    ExcludedPatterns 3 forest_heap = Some (Some l', forest_heap) ∧ l ≠ l' ∧
    (do x <- ExcludedPatterns 3; singlylinkedlist_Values x) forest_heap
    = Some (vs, forest_heap) ∧
    ∀ g, ∃ h1, AddExcludedPattern 2 g forest_heap = Some (tt, h1) ∧
               (do x <- ExcludedPatterns 3; singlylinkedlist_Values x) h1
               = Some (vs, h1).
Proof.
  apply (excluded_patterns_separate_trees forest_heap 2 3 0 1).
  - exists forest_calls. vm_compute. reflexivity.
  - eapply aos_step; [vm_compute; reflexivity | reflexivity |].
    apply aos_self. vm_compute. eexists. reflexivity.
  - eapply aos_step; [vm_compute; reflexivity | reflexivity |].
    apply aos_self. vm_compute. eexists. reflexivity.
  - vm_compute. reflexivity.
  - vm_compute. reflexivity.
  - lia.
Defined.

Lemma join_path_snoc segs name :
  join_path (segs ++ [name]) = with_separators segs ++ name.
Proof.
  induction segs as [| seg segs IH]; [done |].
  cbn [app join_path]. rewrite IH.
  destruct (segs ++ [name]) eqn:E.
  - by destruct segs.
  - unfold with_separators. cbn [map concat]. by rewrite <- !app_assoc.
Qed.

Lemma with_separators_join segs :
  segs ≠ [] → with_separators segs = join_path segs ++ [Separator].
Proof.
  induction segs as [| seg segs IH]; [done |]. intros _.
  unfold with_separators in *. cbn [map concat join_path].
  destruct segs as [| seg' segs].
  - cbn. by rewrite app_nil_r.
  - rewrite IH by done. by rewrite <- !app_assoc.
Qed.

(** The buffer after the bytes [cs] are appended one by one. *)
Lemma lazybuf_append_all (cs : list ascii) out :
  w out = length (buf out) →
  fold_left lazybuf_append cs out
  = mkLazybuf (buf out ++ cs) (length (buf out ++ cs)).
Proof.
  revert out. induction cs as [| c cs IH]; intros out Hw.
  - cbn. rewrite app_nil_r. destruct out; cbn in *. by subst.
  - cbn [fold_left]. rewrite IH.
    + unfold lazybuf_append. cbn [buf]. rewrite Hw, firstn_all.
      by rewrite <- !app_assoc.
    + unfold lazybuf_append. cbn [buf w]. rewrite Hw, firstn_all.
      rewrite length_app. cbn. lia.
Qed.

Lemma copy_element_segment seg t out r :
  (∀ c, c ∈ seg → IsPathSeparator c = false) →
  copy_element (seg ++ Separator :: t) out r
  = (fold_left lazybuf_append seg out, r + length seg).
Proof.
  revert out r. induction seg as [| c seg IH]; intros out r Hno.
  - cbn. rewrite Nat.add_0_r. done.
  - cbn [app copy_element]. rewrite Hno by (left).
    rewrite IH by (intros c' Hc'; apply Hno; by right).
    cbn [fold_left length]. f_equal. lia.
Qed.

Lemma IsPathSeparator_dot : IsPathSeparator dot = false.
Proof. reflexivity. Qed.

(** The main loop of [Clean] on clean elements, each followed by a
    separator, copies them, separated by single separators. *)
Lemma Clean_loop_elements segs fuel pre out :
  Forall path_element segs →
  length (with_separators segs) ≤ fuel →
  w out = length (buf out) →
  Clean_loop fuel (pre ++ with_separators segs) false out (length pre) 0
  = fold_left
      (λ o seg, fold_left lazybuf_append seg
                  (if (w o =? 0) then o else lazybuf_append o Separator))
      segs out.
Proof.
  revert fuel pre out. induction segs as [| seg segs IH];
    intros fuel pre out Hel Hfuel Hw.
  - unfold with_separators. cbn [map concat fold_left]. rewrite app_nil_r.
    destruct fuel; [done |]. cbn [Clean_loop].
    by rewrite Nat.ltb_irrefl.
  - apply Forall_cons in Hel as [(Hne & Hno & Hdot & Hdotdot) Hel].
    rewrite Forall_forall in Hno.
    unfold with_separators in *. cbn [map concat] in *.
    rewrite length_app, length_app in Hfuel. cbn [length] in Hfuel.
    destruct seg as [| c0 seg']; [done |]. cbn [length] in Hfuel.
    destruct fuel as [| fuel]; [lia |].
    set (rest := concat (map (λ seg, seg ++ [Separator]) segs)) in *.
    set (path := pre ++ ((c0 :: seg') ++ [Separator]) ++ rest).
    assert (Hn : length path = length pre + S (length seg') + 1 + length rest).
    { unfold path. rewrite !length_app. cbn. lia. }
    assert (Hat : ∀ i, nth (length pre + i) path zero
                       = nth i (((c0 :: seg') ++ [Separator]) ++ rest) zero).
    { intros i. unfold path. rewrite app_nth2 by lia. f_equal. lia. }
    assert (Hc0 : IsPathSeparator c0 = false) by (apply Hno; left).
    cbn [Clean_loop].
    destruct (Nat.ltb_spec (length pre) (length path)) as [_ | ?]; [| lia].
    pose proof (Hat 0) as Hat0. rewrite Nat.add_0_r in Hat0.
    rewrite Hat0, (Hat 1), (Hat 2). cbn [app nth]. rewrite Hc0.
    assert (Hcase1 : (c0 =? dot)%char &&
       ((length pre + 1 =? length path)
        || IsPathSeparator (nth 0 ((seg' ++ [Separator]) ++ rest) zero)) = false).
    { destruct (Ascii.eqb_spec c0 dot) as [-> | _]; [| done].
      destruct seg' as [| c1 seg'']; [done |]. cbn [app nth andb].
      rewrite (Hno c1) by (right; left).
      destruct (Nat.eqb_spec (length pre + 1) (length path)); [| done].
      cbn [length] in Hn. lia. }
    assert (Hcase2 : (c0 =? dot)%char &&
       (nth 0 ((seg' ++ [Separator]) ++ rest) zero =? dot)%char &&
       ((length pre + 2 =? length path)
        || IsPathSeparator (nth 1 ((seg' ++ [Separator]) ++ rest) zero)) = false).
    { destruct (Ascii.eqb_spec c0 dot) as [-> | _]; [| done].
      destruct seg' as [| c1 seg'']; [done |]. cbn [app nth andb].
      destruct (Ascii.eqb_spec c1 dot) as [-> | _]; [| done].
      destruct seg'' as [| c2 seg3]; [done |]. cbn [app nth andb].
      rewrite (Hno c2) by (right; right; left).
      destruct (Nat.eqb_spec (length pre + 2) (length path)); [| done].
      cbn [length] in Hn. lia. }
    rewrite Hcase1, Hcase2. cbn [andb orb negb].
    unfold path at 1. rewrite drop_app_length.
    rewrite <- app_assoc. cbn [app].
    change (c0 :: seg' ++ Separator :: rest)
      with ((c0 :: seg') ++ Separator :: rest).
    rewrite copy_element_segment by done.
    set (out1 := if negb (w out =? 0) then lazybuf_append out Separator else out).
    assert (Hout1 : out1 = if w out =? 0 then out else lazybuf_append out Separator).
    { unfold out1. by destruct (w out =? 0). }
    assert (Hw1 : w out1 = length (buf out1)).
    { rewrite Hout1. destruct (w out =? 0); [done |].
      unfold lazybuf_append. cbn [buf w]. rewrite Hw, firstn_all.
      rewrite length_app. cbn. lia. }
    set (out2 := fold_left lazybuf_append (c0 :: seg') out1).
    assert (Hw2 : w out2 = length (buf out2)).
    { unfold out2. by rewrite lazybuf_append_all. }
    destruct fuel as [| fuel]; [cbn [length] in Hfuel; lia |].
    cbn [Clean_loop].
    destruct (Nat.ltb_spec (length pre + length (c0 :: seg')) (length path))
      as [_ | ?]; [| cbn [length] in *; lia].
    rewrite (Hat (length (c0 :: seg'))).
    rewrite <- app_assoc, app_nth2 by lia. rewrite Nat.sub_diag. cbn [app nth].
    change (IsPathSeparator Separator) with true. cbv iota.
    replace (length pre + length (c0 :: seg') + 1)
      with (length (pre ++ (c0 :: seg') ++ [Separator])).
    2: { rewrite !length_app. cbn [length]. lia. }
    replace path with ((pre ++ (c0 :: seg') ++ [Separator]) ++ rest).
    2: { unfold path. by rewrite <- !app_assoc. }
    rewrite IH; [| done | cbn [length] in Hfuel; lia | done].
    cbn [fold_left]. fold out2. by rewrite <- Hout1.
Qed.

Lemma separated_join segs :
  segs ≠ [] →
  concat (map (λ seg, Separator :: seg) segs) = Separator :: join_path segs.
Proof.
  induction segs as [| seg segs IH]; [done |]. intros _.
  cbn [map concat join_path]. destruct segs as [| seg' segs'].
  - cbn. by rewrite app_nil_r.
  - rewrite IH by done. done.
Qed.

Lemma fold_elements_string segs out :
  w out = length (buf out) →
  let final :=
    fold_left
      (λ o seg, fold_left lazybuf_append seg
                  (if (w o =? 0) then o else lazybuf_append o Separator))
      segs out in
  w final = length (buf final) ∧
  (Forall (λ seg, seg ≠ []) segs →
   buf final = buf out ++
     (if (w out =? 0) then join_path segs
      else concat (map (λ seg, Separator :: seg) segs))).
Proof.
  revert out. induction segs as [| seg segs IH]; intros out Hw; cbn zeta.
  - cbn [fold_left]. split; [done |]. intros _.
    destruct (w out =? 0); cbn; by rewrite app_nil_r.
  - cbn [fold_left].
    set (out1 := if w out =? 0 then out else lazybuf_append out Separator).
    assert (Hw1 : w out1 = length (buf out1)).
    { unfold out1. destruct (w out =? 0); [done |].
      unfold lazybuf_append. cbn [buf w]. rewrite Hw, firstn_all.
      rewrite length_app. cbn. lia. }
    rewrite (lazybuf_append_all seg out1 Hw1).
    destruct (IH (mkLazybuf (buf out1 ++ seg) (length (buf out1 ++ seg))))
      as [Hwf Hbuf]; [done |].
    split; [exact Hwf |]. intros Hne.
    apply Forall_cons in Hne as [Hseg Hne].
    rewrite (Hbuf Hne). cbn [buf w].
    assert (Hpos : (length (buf out1 ++ seg) =? 0) = false).
    { apply Nat.eqb_neq. rewrite length_app. destruct seg; [done | cbn; lia]. }
    rewrite Hpos. unfold out1.
    destruct (Nat.eqb_spec (w out) 0) as [Hz | Hnz].
    + rewrite <- app_assoc. f_equal. cbn [join_path].
      destruct segs as [| seg' segs']; [cbn; by rewrite app_nil_r |].
      f_equal. by apply separated_join.
    + unfold lazybuf_append. cbn [buf]. rewrite Hw, firstn_all.
      cbn [map concat]. by rewrite <- !app_assoc.
Qed.

(** [Clean] removes the separator that ends a clean relative path. *)
Lemma Clean_clean_path segs :
  segs ≠ [] → Forall path_element segs →
  Clean (with_separators segs) = join_path segs.
Proof.
  intros Hne Hel. unfold Clean.
  destruct (with_separators segs) as [| c path'] eqn:Epath.
  { destruct segs as [| seg segs]; [done |]. unfold with_separators in Epath.
    cbn in Epath. by destruct seg. }
  assert (Hroot : IsPathSeparator c = false).
  { destruct segs as [| seg segs]; [done |].
    apply Forall_cons in Hel as [(Hn & Hno & _) _].
    rewrite Forall_forall in Hno.
    unfold with_separators in Epath. cbn [map concat] in Epath.
    destruct seg as [| c0 seg']; [done |]. cbn in Epath. simplify_eq.
    apply Hno. left. }
  rewrite Hroot. cbv iota. rewrite <- Epath.
  pose proof (Clean_loop_elements segs (length (with_separators segs)) []
                (mkLazybuf [] 0) Hel ltac:(lia) eq_refl) as Hloop.
  cbn [app length] in Hloop. rewrite Hloop.
  destruct (fold_elements_string segs (mkLazybuf [] 0) eq_refl) as [Hw Hbuf].
  cbv zeta in Hw, Hbuf.
  set (final := fold_left _ segs _) in *.
  rewrite Hbuf in Hw.
  2: { eapply Forall_impl; [exact Hel | by intros seg (? & _)]. }
  cbn [buf w Nat.eqb app] in Hw.
  assert (Hpos : 0 < length (join_path segs)).
  { destruct segs as [| seg segs]; [done |].
    apply Forall_cons in Hel as [(Hn & _) _]. cbn [join_path].
    destruct segs; [| rewrite length_app]; destruct seg; try done; cbn; lia. }
  destruct (Nat.eqb_spec (w final) 0) as [? | _]; [lia |].
  unfold lazybuf_string. rewrite Hbuf.
  2: { eapply Forall_impl; [exact Hel | by intros seg (? & _)]. }
  cbn [buf w Nat.eqb app]. rewrite Hw. apply firstn_all.
Qed.

(** [Dir_scan] stops after the last separator. *)
Lemma Dir_scan_last_separator p name k :
  (∀ c, c ∈ name → IsPathSeparator c = false) → k ≤ length name →
  Dir_scan ((p ++ [Separator]) ++ name) (length (p ++ [Separator]) + k)
  = length (p ++ [Separator]).
Proof.
  intros Hno. induction k as [| k IH]; intros Hk.
  - rewrite Nat.add_0_r, length_app. cbn [length].
    replace (length p + 1) with (S (length p)) by lia. cbn [Dir_scan].
    rewrite <- app_assoc, app_nth2, Nat.sub_diag by lia. done.
  - replace (length (p ++ [Separator]) + S k)
      with (S (length (p ++ [Separator]) + k)) by lia.
    cbn [Dir_scan]. rewrite app_nth2 by lia.
    replace (length (p ++ [Separator]) + k - length (p ++ [Separator]))
      with k by lia.
    rewrite Hno; [apply IH; lia |]. apply list_elem_of_In, nth_In. lia.
Qed.

(** The directory of a clean relative path is the path without its last
    element. *)
Lemma Dir_clean_path segs name :
  segs ≠ [] → Forall path_element segs →
  (∀ c, c ∈ name → IsPathSeparator c = false) →
  Dir (str (join_path (segs ++ [name]))) = str (join_path segs).
Proof.
  intros Hne Hel Hno. unfold Dir, bytes, str.
  rewrite list_ascii_of_string_of_list_ascii. f_equal.
  rewrite join_path_snoc, (with_separators_join segs Hne).
  rewrite length_app.
  rewrite (Dir_scan_last_separator (join_path segs) name (length name)) by done.
  rewrite take_app_length. rewrite <- with_separators_join by done.
  by apply Clean_clean_path.
Qed.

(** The joined path of two or more elements is not a single dot. *)
Lemma join_path_not_dot segs :
  Forall path_element segs → join_path segs ≠ [dot].
Proof.
  intros Hel. destruct segs as [| seg [| seg' rest]]; [done | |].
  - apply Forall_cons in Hel as [(_ & _ & Hdot & _) _]. done.
  - apply Forall_cons in Hel as [(Hne & Hno & _) _].
    cbn [join_path]. intros E. destruct seg as [| c [| c' seg]]; [done | |].
    + cbn in E. discriminate.
    + cbn in E. discriminate.
Qed.

(** X15. For a clean relative package path, elements [segs] and a last
    element [name] joined by separators, no element empty, [.] or [..],
    [ParentForPackage] returns what is registered under the path without its
    last element, the empty string when there is one element only.  Only that
    key is read: a directory registered further up is not looked for. *)
Theorem ParentForPackage_enclosing_directory
    (c : Configs) (segs : list (list ascii)) (name : list ascii) (h : Heap) :
  Forall path_element segs →
  Forall (λ b, IsPathSeparator b = false) name →
  ParentForPackage c (str (join_path (segs ++ [name]))) h
  = Some (default None (c !! str (join_path segs)), h).
Proof.
  intros Hel Hno. unfold ParentForPackage, ret.
  destruct (decide (segs = [])) as [-> | Hne].
  - cbn [app join_path]. rewrite Dir_no_separator.
    + done.
    + unfold bytes, str. rewrite list_ascii_of_string_of_list_ascii.
      by apply Forall_forall.
  - rewrite Dir_clean_path by (done || by apply Forall_forall).
    rewrite bool_decide_eq_false_2; [done |].
    intros E. apply (join_path_not_dot segs Hel).
    apply (f_equal bytes) in E. unfold bytes, str in E.
    by rewrite list_ascii_of_string_of_list_ascii in E.
Qed.

Lemma ParentForPackage_enclosing_directory_witness :
  ParentForPackage demo_configs "a/b/c" demo_heap
  = Some (default None (demo_configs !! "a/b"), demo_heap).
Proof.
  apply (ParentForPackage_enclosing_directory demo_configs
           [bytes "a"; bytes "b"] (bytes "c") demo_heap).
  - repeat constructor; done.
  - repeat constructor.
Defined.
